(** * discoursegraphs: the layer-tagged multigraph core

    A shallow embedding of [src/discoursegraphs/discoursegraph.py]:
    [DiscourseDocumentGraph] (a [networkx.MultiDiGraph] whose nodes and
    edges carry a mandatory ['layers'] attribute), graph merging, the
    precedence builder, and the span / pointing-chain queries.

    Python objects are modelled as follows.
    - Hashable identifiers (node ids, edge keys) are [atom]s: an integer or
      a string.
    - Attribute dictionaries are finite maps from strings to [value]s; the
      ['layers'] entry is an ordinary entry of the dictionary, as in the
      code.
    - The graph keeps networkx's three dictionaries [node], [succ] (which is
      also [adj]) and [pred].  [succ[u][v]] and [pred[v][u]] hold the *same*
      key dictionary object, so both are modelled as references into a
      [heap] of key dictionaries.
    - A method is a computation in a state-and-exception monad over the
      graph: an exception leaves the state as it was when it was raised.
    - In the first part an attribute dictionary handed in by a caller is
      taken by value: it is a dictionary of its own for this call, which
      the caller does not use again (as keyword arguments always are).
      The part [Obj] has the dictionaries as objects, for callers that
      pass a dictionary twice or pass one that the graph holds.
    - Dictionary and set iteration follows the enumeration order of the
      finite-map library; statements about query results are given up to
      this order.
    - Recursive functions take the interpreter's recursion limit as their
      [depth]; running into it raises [RecursionError].
    - A generator is modelled by the list of what it yields to a consumer
      that runs it to its end; an error raised on the way is the result.

    The first part of the file is the embedding, the second part holds the
    notions the statements use, the embedding with dictionaries as objects
    and the example graphs, the third part the properties. *)

From stdpp Require Import gmap strings list fin_maps sorting relations.
From Stdlib Require Import ZArith Lia Ascii.

Open Scope Z_scope.
Open Scope string_scope.
Open Scope list_scope.

(** ** Python values *)

(** Hashable identifiers. *)
Inductive atom :=
| AInt (z : Z)
| AStr (s : string).

#[global] Instance atom_eq_dec : EqDecision atom.
Proof. solve_decision. Defined.

Definition atom_to_sum (a : atom) : Z + string :=
  match a with AInt z => inl z | AStr s => inr s end.

Definition atom_of_sum (x : Z + string) : atom :=
  match x with inl z => AInt z | inr s => AStr s end.

#[global] Instance atom_countable : Countable atom.
Proof.
  refine (inj_countable' atom_to_sum atom_of_sum _).
  intros []; reflexivity.
Defined.

Definition is_str (a : atom) : Prop :=
  match a with AStr _ => True | AInt _ => False end.

#[global] Instance is_str_dec a : Decision (is_str a).
Proof. destruct a; simpl; apply _. Defined.

(** [class EdgeTypes(Enum)] *)
Inductive EdgeTypes :=
| pointing_relation
| dominance_relation
| reverse_dominance_relation
| spanning_relation
| precedence_relation.

#[global] Instance EdgeTypes_eq_dec : EqDecision EdgeTypes.
Proof. solve_decision. Defined.

(** The value of an [Enum] member. *)
Definition EdgeTypes_value (e : EdgeTypes) : string :=
  match e with
  | pointing_relation => "points_to"
  | dominance_relation => "dominates"
  | reverse_dominance_relation => "is_dominated_by"
  | spanning_relation => "spans"
  | precedence_relation => "precedes"
  end.

(** Attribute values.  An [Enum] member is an object of its own: it is not
    equal to the string it wraps. *)
Inductive value :=
| VNone
| VInt (z : Z)
| VStr (s : string)
| VEnum (e : EdgeTypes)
| VList (l : list atom)
| VSet (s : gset atom).

#[global] Instance value_eq_dec : EqDecision value.
Proof. solve_decision. Defined.

(** A set of layer names, as a Python value. *)
Definition layer_set (ls : gset string) : value := VSet (set_map AStr ls).

(** Attribute dictionaries, [dict.update]. *)
Abbreviation attrs := (gmap string value).

Definition update {K A} `{Countable K} (d e : gmap K A) : gmap K A := e ∪ d.

(** ** Exceptions and results *)

Inductive exn :=
| AssertionError
| AttributeError
| KeyError
| IndexError
| ValueError
| TypeError
| RecursionError.

#[global] Instance exn_eq_dec : EqDecision exn.
Proof. solve_decision. Defined.

Inductive result (A : Type) :=
| Ok (a : A)
| Raise (e : exn).
Arguments Ok {A} a.
Arguments Raise {A} e.

#[global] Instance result_ret : MRet result := λ A a, Ok a.
#[global] Instance result_bind : MBind result := λ A B k r,
  match r with Ok a => k a | Raise e => Raise e end.

#[global] Instance result_eq_dec {A} `{EqDecision A} : EqDecision (result A).
Proof. solve_decision. Defined.

Definition or_raise {A} (e : exn) (o : option A) : result A :=
  match o with Some a => Ok a | None => Raise e end.

(** ** The graph object *)

(** References to key dictionaries. *)
Abbreviation loc := nat.
Abbreviation keydict := (gmap atom attrs).

Record graph := Graph {
  name : string;
  ns : string;
  root : atom;
  tokens : list atom;
  node : gmap atom attrs;
  succ : gmap atom (gmap atom loc);
  pred : gmap atom (gmap atom loc);
  heap : gmap loc keydict
}.

#[global] Instance graph_eq_dec : EqDecision graph.
Proof. solve_decision. Defined.

(** [DiscourseDocumentGraph()], for a document with the given name,
    namespace, root id and token ids. *)
Definition empty_graph (nm nsp : string) (r : atom) (toks : list atom) : graph :=
  Graph nm nsp r toks ∅ ∅ ∅ ∅.

Definition set_node (f : gmap atom attrs → gmap atom attrs) (g : graph) : graph :=
  Graph (name g) (ns g) (root g) (tokens g) (f (node g)) (succ g) (pred g) (heap g).
Definition set_succ (f : gmap atom (gmap atom loc) → gmap atom (gmap atom loc))
    (g : graph) : graph :=
  Graph (name g) (ns g) (root g) (tokens g) (node g) (f (succ g)) (pred g) (heap g).
Definition set_pred (f : gmap atom (gmap atom loc) → gmap atom (gmap atom loc))
    (g : graph) : graph :=
  Graph (name g) (ns g) (root g) (tokens g) (node g) (succ g) (f (pred g)) (heap g).
Definition set_heap (f : gmap loc keydict → gmap loc keydict) (g : graph) : graph :=
  Graph (name g) (ns g) (root g) (tokens g) (node g) (succ g) (pred g) (f (heap g)).

(** [self.adj[u][v]] read through the reference. *)
Definition adj_ref (g : graph) (u v : atom) : option loc :=
  succ g !! u ≫= (.!! v).
Definition pred_ref (g : graph) (v u : atom) : option loc :=
  pred g !! v ≫= (.!! u).

(** ** Methods as state-and-exception computations *)

Definition M (A : Type) : Type := graph → result A * graph.

Definition ret {A} (a : A) : M A := λ g, (Ok a, g).
Definition throw {A} (e : exn) : M A := λ g, (Raise e, g).
Definition bind {A B} (m : M A) (k : A → M B) : M B := λ g,
  match m g with
  | (Ok a, g') => k a g'
  | (Raise e, g') => (Raise e, g')
  end.
Definition get : M graph := λ g, (Ok g, g).
Definition modify (f : graph → graph) : M unit := λ g, (Ok tt, f g).
Definition lift {A} (r : result A) : M A := λ g, (r, g).

Notation "'do' x <- m ; k" := (bind m (λ x, k))
  (at level 10, x name, m at level 100, k at level 200).
Notation "m ;; k" := (bind m (λ _, k))
  (at level 100, k at level 200, right associativity, only parsing).

(** [assert b] *)
Definition assert (b : bool) : M unit :=
  if b then ret tt else throw AssertionError.

(** [for x in xs: body x] *)
Fixpoint for_each {A} (xs : list A) (body : A → M unit) : M unit :=
  match xs with
  | [] => ret tt
  | x :: xs' => body x ;; for_each xs' body
  end.

(** The two assertions on a [layers] argument:
    [isinstance(layers, set)] and
    [all(isinstance(layer, str) for layer in layers)]; the second one is
    only reached by a set. *)
Definition isinstance_set (v : value) : bool :=
  match v with VSet _ => true | _ => false end.

Definition all_str (s : gset atom) : bool := bool_decide (set_Forall is_str s).

Definition assert_layers (layers : value) : M (gset atom) :=
  assert (isinstance_set layers) ;;
  match layers with
  | VSet s => assert (all_str s) ;; ret s
  | _ => throw AssertionError
  end.

(** [existing_layers.union(layers)]: the receiver has to be a set. *)
Definition as_set (v : value) : result (gset atom) :=
  match v with VSet s => Ok s | _ => Raise AttributeError end.

(** *** [add_node] *)

Definition add_node (n : atom) (layers : value)
    (attr_dict : option attrs) (attr : attrs) : M unit :=
  do ls <- assert_layers layers;
  let attr := update attr {["layers" := layers]} in
  let attr_dict :=
    match attr_dict with None => attr | Some d => update d attr end in
  do g <- get;
  if decide (n ∈ dom (succ g)) then
    do nd <- lift (or_raise KeyError (node g !! n));
    do existing <- lift (or_raise KeyError (nd !! "layers"));
    do existing_layers <- lift (as_set existing);
    let all_layers := existing_layers ∪ ls in
    let attrs_without_layers := delete "layers" attr_dict in
    let nd := update nd attrs_without_layers in
    let nd := update nd {["layers" := VSet all_layers]} in
    modify (set_node <[n := nd]>)
  else
    modify (set_succ <[n := ∅]>) ;;
    modify (set_pred <[n := ∅]>) ;;
    modify (set_node <[n := attr_dict]>).

(** *** [add_nodes_from] *)

Definition add_nodes_from (nodes : list (atom * attrs)) (attr : attrs) : M unit :=
  let additional_attribs := attr in
  for_each nodes (λ '(node_id, ndict),
    assert (bool_decide ("layers" ∈ dom ndict)) ;;
    do layers <- lift (or_raise KeyError (ndict !! "layers"));
    do ls <- assert_layers layers;
    do g <- get;
    if decide (node_id ∈ dom (succ g)) then
      do nd <- lift (or_raise KeyError (node g !! node_id));
      do existing <- lift (or_raise KeyError (nd !! "layers"));
      do existing_layers <- lift (as_set existing);
      let all_layers := existing_layers ∪ ls in
      let nd := update nd ndict in
      let nd := update nd additional_attribs in
      let nd := update nd {["layers" := VSet all_layers]} in
      modify (set_node <[node_id := nd]>)
    else
      modify (set_succ <[node_id := ∅]>) ;;
      modify (set_pred <[node_id := ∅]>) ;;
      let newdict := update additional_attribs ndict in
      modify (set_node <[node_id := newdict]>)).

(** *** [add_edge] *)

(** [key = len(keydict); while key in keydict: key += 1].  The loop runs at
    most [len(keydict)] times, which is the fuel given to it. *)
Fixpoint unused_key (fuel : nat) (kd : keydict) (key : Z) : Z :=
  match fuel with
  | O => key
  | S fuel' =>
      if decide (AInt key ∈ dom kd) then unused_key fuel' kd (key + 1) else key
  end.

Definition new_key (kd : keydict) : Z :=
  unused_key (size kd) kd (Z.of_nat (size kd)).

(** The key dictionary a reference points to. *)
Definition deref (g : graph) (l : loc) : keydict := default ∅ (heap g !! l).

(** A new dictionary object. *)
Definition alloc (kd : keydict) : M loc := λ g,
  let l := fresh (dom (heap g)) in (Ok l, set_heap <[l := kd]> g).

(** [datadict.get('layers', set())] *)
Definition get_layers (datadict : attrs) : value :=
  default (VSet ∅) (datadict !! "layers").

Definition add_edge (u v : atom) (layers : value) (key : option atom)
    (attr_dict : option attrs) (attr : attrs) : M unit :=
  do ls <- assert_layers layers;
  let attr := update attr {["layers" := layers]} in
  let attr_dict :=
    match attr_dict with None => attr | Some d => update d attr end in
  do g <- get;
  assert (bool_decide (u ∈ dom (succ g))) ;;
  assert (bool_decide (v ∈ dom (succ g))) ;;
  match adj_ref g u v with
  | Some l =>
      let kd := deref g l in
      let key := match key with Some k => k | None => AInt (new_key kd) end in
      let datadict := default ∅ (kd !! key) in
      do existing_layers <- lift (as_set (get_layers datadict));
      let all_layers := existing_layers ∪ ls in
      let datadict := update datadict attr_dict in
      let datadict := update datadict {["layers" := VSet all_layers]} in
      modify (set_heap <[l := <[key := datadict]> kd]>)
  | None =>
      let key := default (AInt 0) key in
      let datadict := update ∅ attr_dict in
      do l <- alloc {[key := datadict]};
      modify (set_succ (alter <[v := l]> u)) ;;
      do g <- get;
      if decide (v ∈ dom (pred g)) then modify (set_pred (alter <[u := l]> v))
      else throw KeyError
  end.

(** *** [add_edges_from] *)

(** An element of an edge bunch: a 3-tuple [(u, v, d)], a 4-tuple
    [(u, v, key, d)] (whose key may be [None]), or a tuple of any other
    length [ne]. *)
Inductive ebunch_entry :=
| Edge3 (u v : atom) (dd : attrs)
| Edge4 (u v : atom) (key : option atom) (dd : attrs)
| EdgeOther (ne : nat).

(** Truth value of an object. *)
Definition truthy (v : value) : bool :=
  match v with
  | VNone => false
  | VInt z => bool_decide (z ≠ 0)
  | VStr s => bool_decide (s ≠ "")
  | VEnum _ => true
  | VList l => bool_decide (l ≠ [])
  | VSet s => bool_decide (s ≠ ∅)
  end.

(** The elements of an iterable, as [set.union] collects them. *)
Definition iter_set (v : value) : result (gset atom) :=
  match v with
  | VSet s => Ok s
  | VList l => Ok (list_to_set l)
  | VStr s => Ok (list_to_set ((λ c, AStr (String c "")) <$> String.list_ascii_of_string s))
  | _ => Raise TypeError
  end.

Definition add_edges_from (ebunch : list ebunch_entry)
    (attr_dict : option attrs) (attr : attrs) : M unit :=
  let attr_dict :=
    match attr_dict with None => attr | Some d => update d attr end in
  for_each ebunch (λ e,
    do uvkd <-
      match e with
      | Edge4 u v key dd => ret (u, v, key, dd)
      | Edge3 u v dd => ret (u, v, None, dd)
      | EdgeOther _ => throw AttributeError
      end;
    let '(u, v, key, dd) := uvkd in
    assert (bool_decide ("layers" ∈ dom dd)) ;;
    do layers <- lift (or_raise KeyError (dd !! "layers"));
    do ls <- assert_layers layers;
    do additional_layers <-
      match attr_dict !! "layers" with
      | None => ret ∅
      | Some al =>
          if truthy al then assert_layers al else lift (iter_set al)
      end;
    let new_layers := ls ∪ additional_layers in
    do g <- get;
    let ref := if decide (u ∈ dom (succ g)) then adj_ref g u v else None in
    let kd := match ref with Some l => deref g l | None => ∅ end in
    let key := match key with Some k => k | None => AInt (new_key kd) end in
    let datadict := default ∅ (kd !! key) in
    let existing := get_layers datadict in
    let datadict' := update (update datadict attr_dict) dd in
    match ref, kd !! key with
    | Some l, Some _ => modify (set_heap <[l := <[key := datadict']> kd]>)
    | _, _ => ret tt
    end ;;
    let updated_attrs := delete "layers" datadict' in
    do existing_layers <- lift (as_set existing);
    let all_layers := existing_layers ∪ new_layers in
    add_edge u v (VSet all_layers) (Some key) (Some updated_attrs) ∅).

(** *** [add_precedence_relations] *)

Definition precedence_layers (g : graph) : value :=
  VSet {[AStr (ns g); AStr (ns g +:+ ":precedence")]}.

Definition add_precedence_relations : M unit :=
  do g <- get;
  assert (bool_decide (1 < length (tokens g))%nat) ;;
  let layers := precedence_layers g in
  let attr : attrs := {["edge_type" := VEnum precedence_relation]} in
  do t0 <- lift (or_raise IndexError (tokens g !! 0%nat));
  add_edge (root g) t0 layers None None attr ;;
  for_each (imap (λ i t, (i, t)) (drop 1 (tokens g))) (λ '(i, token_node_id),
    do ti <- lift (or_raise IndexError (tokens g !! i));
    add_edge ti token_node_id layers None None attr).

(** ** Read access *)

(** networkx: [nodes(data=True)], [edges(data=True)] and
    [out_edges_iter(n, data=True)] of a [MultiDiGraph]: one triple
    [(u, v, datadict)] per parallel edge, enumerated through [adj]; a node
    that is not in the graph has no out-edges. *)
Definition nodes (g : graph) : list (atom * attrs) := map_to_list (node g).

Definition edges_of (g : graph) (n : atom) (nbrs : gmap atom loc) :
    list (atom * atom * attrs) :=
  '(nbr, l) ← map_to_list nbrs;
  '(_, data) ← map_to_list (deref g l);
  [(n, nbr, data)].

Definition edges (g : graph) : list (atom * atom * attrs) :=
  '(n, nbrs) ← map_to_list (succ g); edges_of g n nbrs.

Definition out_edges (g : graph) (n : atom) : list (atom * atom * attrs) :=
  match succ g !! n with
  | Some nbrs => edges_of g n nbrs
  | None => []
  end.

(** Monadic folds over a list, for loops that may raise. *)
Fixpoint foldM {A B} (f : B → A → result B) (b : B) (xs : list A) : result B :=
  match xs with
  | [] => Ok b
  | x :: xs' => b' ← f b x; foldM f b' xs'
  end.

Definition mapM_result {A B} (f : A → result B) (xs : list A) : result (list B) :=
  foldM (λ acc x, y ← f x; Ok (acc ++ [y])) [] xs.

(** *** [get_tokens] *)

(** One step of the generator. *)
Definition get_token (g : graph) (token_attrib : string) (token_id : atom) :
    result (atom * value) :=
  nd ← or_raise KeyError (node g !! token_id);
  tok ← or_raise KeyError (nd !! (ns g +:+ ":" +:+ token_attrib));
  Ok (token_id, tok).

Definition get_tokens (g : graph) (token_attrib : string) :
    result (list (atom * value)) :=
  mapM_result (get_token g token_attrib) (tokens g).

(** *** [merge_graphs] *)

(** Modelled from the spec: [discoursegraphs.relabel.relabel_nodes] is not
    among the sources.  "relabel all of other's node ids through that map in
    place (non-token node ids are unaffected)". *)
Definition relabel (mapping : gmap atom atom) (n : atom) : atom :=
  default n (mapping !! n).

Definition rename_keys {A} (f : atom → atom) (m : gmap atom A) : gmap atom A :=
  kmap (M2 := gmap atom) f m.

Definition relabel_nodes (g : graph) (mapping : gmap atom atom) : graph :=
  let f := relabel mapping in
  Graph (name g) (ns g) (f (root g)) (f <$> tokens g)
    (rename_keys f (node g))
    (rename_keys f (rename_keys f <$> succ g))
    (rename_keys f (rename_keys f <$> pred g))
    (heap g).

(** The loop over [enumerate(local_tokens)]: the local generator is advanced
    one token at a time. *)
Fixpoint align_tokens (self : graph) (token_attrib : string)
    (remote_tokens : list (atom * value)) (i : nat) (local_ids : list atom)
    (remote2local : gmap atom atom) : result (gmap atom atom) :=
  match local_ids with
  | [] => Ok remote2local
  | local_tok_id :: rest =>
      '(_, local_tok) ← get_token self token_attrib local_tok_id;
      '(remote_tok_id, remote_tok) ← or_raise IndexError (remote_tokens !! i);
      if decide (local_tok ≠ remote_tok) then Raise ValueError
      else align_tokens self token_attrib remote_tokens (S i) rest
             (<[remote_tok_id := local_tok_id]> remote2local)
  end.

Definition merge_graphs (document_graph : graph) : M unit :=
  do self <- get;
  let token_attrib := if decide (ns self = "tiger") then "word" else "token" in
  do remote_tokens <- lift (get_tokens document_graph "token");
  do remote2local <-
    lift (align_tokens self token_attrib remote_tokens 0 (tokens self) ∅);
  let document_graph := relabel_nodes document_graph remote2local in
  add_nodes_from (nodes document_graph) ∅ ;;
  add_edges_from ((λ '(u, v, d), Edge3 u v d) <$> edges document_graph) None ∅.

(** *** [get_annotation_layers] *)

(** [for layer in node_attribs['layers']: all_layers.add(layer)] adds the
    elements of the iterable to the set. *)
Definition get_annotation_layers (docgraph : graph) : result (gset atom) :=
  foldM (λ all_layers '(node_id, node_attribs),
    layers ← or_raise KeyError (node_attribs !! "layers");
    ls ← iter_set layers;
    Ok (all_layers ∪ ls)) ∅ (nodes docgraph).

(** *** [get_span] *)

(** Modelled from the spec: [discoursegraphs.util.natural_sort_key] is not
    among the sources.  "a natural, numeric-aware ordering of node
    identifiers": an identifier is cut into runs of digits, read as numbers,
    and runs of other characters; keys are compared run by run, numbers by
    value and before text. *)
Inductive chunk :=
| CNum (n : N)
| CText (s : string).

Definition is_digit (c : ascii) : bool :=
  let n := Ascii.N_of_ascii c in ((48 <=? n) && (n <=? 57))%N.

Fixpoint chunks (cur : chunk) (cs : list ascii) : list chunk :=
  match cs with
  | [] => [cur]
  | c :: cs' =>
      match cur, is_digit c with
      | CNum n, true => chunks (CNum (10 * n + (Ascii.N_of_ascii c - 48))%N) cs'
      | CText s, false => chunks (CText (s +:+ String c "")) cs'
      | _, true => cur :: chunks (CNum (Ascii.N_of_ascii c - 48)%N) cs'
      | _, false => cur :: chunks (CText (String c "")) cs'
      end
  end.

Definition natural_sort_key (a : atom) : result (list chunk) :=
  match a with
  | AStr s => Ok (chunks (CText "") (String.list_ascii_of_string s))
  | AInt _ => Raise TypeError
  end.

Definition chunk_compare (x y : chunk) : comparison :=
  match x, y with
  | CNum a, CNum b => (a ?= b)%N
  | CNum _, CText _ => Lt
  | CText _, CNum _ => Gt
  | CText s, CText t => String.compare s t
  end.

Fixpoint key_compare (k1 k2 : list chunk) : comparison :=
  match k1, k2 with
  | [], [] => Eq
  | [], _ :: _ => Lt
  | _ :: _, [] => Gt
  | x :: k1', y :: k2' =>
      match chunk_compare x y with
      | Eq => key_compare k1' k2'
      | c => c
      end
  end.

Definition key_le (k1 k2 : list chunk) : bool :=
  match key_compare k1 k2 with Gt => false | _ => true end.

(** [sorted(span, key=natural_sort_key)]: the stable sort, by insertion. *)
Fixpoint insert_by_key (x : list chunk * atom) (l : list (list chunk * atom)) :
    list (list chunk * atom) :=
  match l with
  | [] => [x]
  | y :: l' => if key_le y.1 x.1 then y :: insert_by_key x l' else x :: l
  end.

Definition sort_by_key (l : list (list chunk * atom)) : list (list chunk * atom) :=
  foldl (λ acc x, insert_by_key x acc) [] l.

Definition sorted (span : list atom) : result (list atom) :=
  keyed ← mapM_result (λ x, k ← natural_sort_key x; Ok (k, x)) span;
  Ok ((sort_by_key keyed).*2).

(** The body of [get_span], with [rec] for the recursive call.  The test
    [if from_id == to_id: pass] has an empty body and is followed by the
    test on the edge type whatever its outcome, so it leaves no trace
    here. *)
Definition get_span_body (rec : atom → result (list atom)) (docgraph : graph)
    (node_id : atom) : result (list atom) :=
  span ← foldM (λ span '(from_id, to_id, edge_attribs),
    edge_type ← or_raise KeyError (edge_attribs !! "edge_type");
    if decide (edge_type ≠ VEnum pointing_relation) then
      to_attrs ← or_raise KeyError (node docgraph !! to_id);
      if decide (ns docgraph +:+ ":token" ∈ dom to_attrs)
      then Ok (span ++ [to_id])
      else sub ← rec to_id; Ok (span ++ sub)
    else Ok span) [] (out_edges docgraph node_id);
  sorted span.

(** [depth] is the interpreter's recursion limit: running into it raises
    the "maximum recursion depth exceeded" error. *)
Fixpoint get_span (depth : nat) (docgraph : graph) (node_id : atom) :
    result (list atom) :=
  match depth with
  | O => Raise RecursionError
  | S depth' => get_span_body (get_span depth' docgraph) docgraph node_id
  end.

(** *** [get_text] *)

(** [' '.join(tokens)]: the generator is consumed first, then every item
    has to be a string. *)
Definition as_str (v : value) : result string :=
  match v with VStr s => Ok s | _ => Raise TypeError end.

Definition get_text (depth : nat) (docgraph : graph) (node_id : atom) :
    result string :=
  span ← get_span depth docgraph node_id;
  tokens ← mapM_result (λ node_id,
    nd ← or_raise KeyError (node docgraph !! node_id);
    or_raise KeyError (nd !! (ns docgraph +:+ ":token"))) span;
  strs ← mapM_result as_str tokens;
  Ok (String.concat " " strs).

(** *** [select_nodes_by_layer] *)

(** [t in s] for two strings. *)
Fixpoint is_substring (t s : string) : bool :=
  String.prefix t s ||
  match s with
  | EmptyString => false
  | String _ s' => is_substring t s'
  end.

(** [layer in node_attribs['layers']] *)
Definition contains (container : value) (layer : atom) : result bool :=
  match container with
  | VSet s => Ok (bool_decide (layer ∈ s))
  | VList l => Ok (bool_decide (layer ∈ l))
  | VStr s =>
      match layer with
      | AStr t => Ok (is_substring t s)
      | AInt _ => Raise TypeError
      end
  | _ => Raise TypeError
  end.

(** The node ids the generator yields, as a list. *)
Definition select_nodes_by_layer (docgraph : graph) (layer : atom) :
    result (list atom) :=
  foldM (λ acc '(node_id, node_attribs),
    layers ← or_raise KeyError (node_attribs !! "layers");
    b ← contains layers layer;
    Ok (if b : bool then acc ++ [node_id] else acc)) [] (nodes docgraph).

(** *** Pointing chains *)

Definition select_edges_by_edgetype (docgraph : graph) (edge_type : value) :
    result (list (atom * atom)) :=
  foldM (λ acc '(from_id, to_id, edge_attribs),
    et ← or_raise KeyError (edge_attribs !! "edge_type");
    if decide (et = edge_type) then Ok (acc ++ [(from_id, to_id)]) else Ok acc)
    [] (edges docgraph).

(** [rel_dict = defaultdict(set)] filled by [rel_dict[from_id].add(to_id)]. *)
Definition make_rel_dict (pointing_relations : list (atom * atom)) :
    gmap atom (gset atom) :=
  foldl (λ rel_dict '(from_id, to_id),
           <[from_id := default ∅ (rel_dict !! from_id) ∪ {[to_id]}]> rel_dict)
        ∅ pointing_relations.

(** [rel_dict[from_id]] *)
Definition targets (rel_dict : gmap atom (gset atom)) (from_id : atom) : gset atom :=
  default ∅ (rel_dict !! from_id).

(** One round of the loop of [__walk_chain], with [rec] for the recursive
    call. *)
Definition walk_step (rec : atom → result (list (list atom)))
    (rel_dict : gmap atom (gset atom)) (from_id : atom)
    (paths_starting_with_id : list (list atom)) (to_id : atom) :
    result (list (list atom)) :=
  if decide (to_id ∈ dom rel_dict) then
    tails ← rec to_id;
    Ok (paths_starting_with_id ++ ((from_id ::.) <$> tails))
  else Ok (paths_starting_with_id ++ [[from_id; to_id]]).

Fixpoint walk_chain (depth : nat) (rel_dict : gmap atom (gset atom))
    (from_id : atom) : result (list (list atom)) :=
  match depth with
  | O => Raise RecursionError
  | S depth' =>
      foldM (walk_step (walk_chain depth' rel_dict) rel_dict from_id) []
            (elements (targets rel_dict from_id))
  end.

(** The filter at the end of [get_pointing_chains]: one round of the loop
    over [enumerate(all_chains)], and the loop. *)
Definition unique_step (all_chains : list (list (list atom)))
    (unique : list (list atom)) (entry : nat * list (list atom)) :
    result (list (list atom)) :=
  let '(i, from_id_chains) := entry in
  from_id ← or_raise IndexError (from_id_chains !! 0%nat ≫= (.!! 0%nat));
  let other_chainlists := take i all_chains ++ drop (S i) all_chains in
  if existsb (λ chain, bool_decide (from_id ∈ chain)) (concat other_chainlists)
  then Ok unique
  else Ok (unique ++ from_id_chains).

Definition unique_chains (all_chains : list (list (list atom))) :
    result (list (list atom)) :=
  foldM (unique_step all_chains) [] (imap (λ i c, (i, c)) all_chains).

Definition chains_of_rel_dict (depth : nat) (rel_dict : gmap atom (gset atom)) :
    result (list (list atom)) :=
  all_chains ← mapM_result (walk_chain depth rel_dict) (map_to_list rel_dict).*1;
  unique_chains all_chains.

Definition get_pointing_chains (depth : nat) (docgraph : graph) :
    result (list (list atom)) :=
  pointing_relations ← select_edges_by_edgetype docgraph (VStr "points_to");
  chains_of_rel_dict depth (make_rel_dict pointing_relations).

(** * Notions used in the statements *)

(** ** Running a method *)

Definition outcome {A} (m : M A) (g : graph) : result A := (m g).1.
Definition exec {A} (m : M A) (g : graph) : graph := (m g).2.

(** An argument that passes both assertions on [layers]. *)
Definition is_layer_set (v : value) : bool :=
  match v with VSet s => all_str s | _ => false end.

(** The parallel edges between [u] and [v], by key. *)
Definition keydict_of (g : graph) (u v : atom) : keydict :=
  match adj_ref g u v with Some l => deref g l | None => ∅ end.

(** networkx: [number_of_edges(u, v)]. *)
Definition number_of_edges (g : graph) (u v : atom) : nat := size (keydict_of g u v).

(** [succ[u][v][k]] and [pred[v][u][k]]. *)
Definition succ_edge (g : graph) (u v k : atom) : option attrs :=
  l ← adj_ref g u v; kd ← heap g !! l; kd !! k.
Definition pred_edge (g : graph) (v u k : atom) : option attrs :=
  l ← pred_ref g v u; kd ← heap g !! l; kd !! k.

(** ** Invalid entries of an edge bunch *)

(** Wrong arity, no ['layers'], or ['layers'] not a set of strings. *)
Definition invalid_entry (e : ebunch_entry) : bool :=
  match e with
  | EdgeOther _ => true
  | Edge3 _ _ dd | Edge4 _ _ _ dd =>
      match dd !! "layers" with
      | Some layers => negb (is_layer_set layers)
      | None => true
      end
  end.

Definition entry_error (e : ebunch_entry) : exn :=
  match e with EdgeOther _ => AttributeError | _ => AssertionError end.

(** ** Well-formed graphs *)

(** What the methods maintain about the adjacency dictionaries: [succ] and
    [pred] have the same nodes, [succ[u][v]] and [pred[v][u]] are one and the
    same key dictionary, and two different pairs never share one. *)
Record wf (g : graph) : Prop := {
  wf_dom : dom (pred g) = dom (succ g);
  wf_refs : ∀ u v, adj_ref g u v = pred_ref g v u;
  wf_heap : ∀ u v l, adj_ref g u v = Some l → is_Some (heap g !! l);
  wf_inj : ∀ u v u' v' l,
    adj_ref g u v = Some l → adj_ref g u' v' = Some l → u = u' ∧ v = v'
}.

(** ** Sequences of calls *)

Inductive call :=
| AddNode (n : atom) (layers : value) (attr_dict : option attrs) (attr : attrs)
| AddNodesFrom (nodes : list (atom * attrs)) (attr : attrs)
| AddEdge (u v : atom) (layers : value) (key : option atom)
    (attr_dict : option attrs) (attr : attrs)
| AddEdgesFrom (ebunch : list ebunch_entry) (attr_dict : option attrs) (attr : attrs)
| AddPrecedenceRelations
| MergeGraphs (document_graph : graph).

Definition run_call (c : call) : M unit :=
  match c with
  | AddNode n layers attr_dict attr => add_node n layers attr_dict attr
  | AddNodesFrom nodes attr => add_nodes_from nodes attr
  | AddEdge u v layers key attr_dict attr => add_edge u v layers key attr_dict attr
  | AddEdgesFrom ebunch attr_dict attr => add_edges_from ebunch attr_dict attr
  | AddPrecedenceRelations => add_precedence_relations
  | MergeGraphs document_graph => merge_graphs document_graph
  end.

(** The graph after a sequence of calls; a call that raises leaves the graph
    as it was at that moment, and the caller goes on. *)
Definition run_calls (cs : list call) (g : graph) : graph :=
  foldl (λ g c, exec (run_call c) g) g cs.

(** A method keeps a property of the graph, whether it returns or raises. *)
Definition preserves {A} (P : graph → Prop) (m : M A) : Prop :=
  ∀ g, P g → P (exec m g).

(** ** Precedence pairs *)

(** The pairs [add_precedence_relations] connects: the root with the first
    token, and every token with the next one. *)
Definition precedence_pairs (g : graph) : list (atom * atom) :=
  match tokens g with
  | [] => []
  | t0 :: rest => (root g, t0) :: zip (tokens g) rest
  end.

(** The attributes of a precedence edge. *)
Definition precedence_attrs (g : graph) : attrs :=
  {["layers" := precedence_layers g; "edge_type" := VEnum precedence_relation]}.

(** How often a pair occurs in a list of pairs. *)
Definition occurrences (p : atom * atom) (ps : list (atom * atom)) : nat :=
  length (filter (λ q, q = p) ps).

(** ** Keys in use *)

(** An integer key not below [key]. *)
Definition key_from (key : Z) (a : atom) : Prop :=
  match a with AInt z => (key ≤ z)%Z | AStr _ => False end.

#[global] Instance key_from_dec key a : Decision (key_from key a).
Proof. destruct a; simpl; apply _. Defined.

(** ** Repeated calls for one node or one edge *)

(** The arguments [layers], [attr_dict] and [**attr] of one call. *)
Record call_args := CallArgs {
  arg_layers : gset atom;
  arg_attr_dict : option attrs;
  arg_attr : attrs
}.

(** The attributes a call supplies: the keyword arguments, and under them
    the attribute dictionary. *)
Definition supplied (c : call_args) : attrs :=
  match arg_attr_dict c with
  | None => arg_attr c
  | Some d => update d (arg_attr c)
  end.

(** The attribute dictionary [add_node] and [add_edge] set up from their
    arguments. *)
Definition effective (c : call_args) : attrs :=
  match arg_attr_dict c with
  | None => update (arg_attr c) {["layers" := VSet (arg_layers c)]}
  | Some d => update d (update (arg_attr c) {["layers" := VSet (arg_layers c)]})
  end.

(** The value of [k] from the most recent call that supplied one. *)
Definition most_recent (k : string) (calls : list call_args) : option value :=
  foldl (λ acc c, supplied c !! k ∪ acc) None calls.

(** The union of the [layers] arguments of all calls. *)
Definition all_layers (calls : list call_args) : gset atom :=
  ⋃ (arg_layers <$> calls).

Definition add_node_calls (n : atom) (calls : list call_args) : M unit :=
  for_each calls (λ c,
    add_node n (VSet (arg_layers c)) (arg_attr_dict c) (arg_attr c)).

Definition add_edge_calls (u v key : atom) (calls : list call_args) : M unit :=
  for_each calls (λ c,
    add_edge u v (VSet (arg_layers c)) (Some key) (arg_attr_dict c) (arg_attr c)).

(** ** Chains of pointing relations *)

(** A chain that follows pointing relations and ends at a node that points
    nowhere. *)
Inductive pointing_path (rel_dict : gmap atom (gset atom)) : list atom → Prop :=
| path_end from_id to_id :
    to_id ∈ targets rel_dict from_id → to_id ∉ dom rel_dict →
    pointing_path rel_dict [from_id; to_id]
| path_step from_id to_id tail :
    to_id ∈ targets rel_dict from_id → to_id ∈ dom rel_dict →
    pointing_path rel_dict (to_id :: tail) →
    pointing_path rel_dict (from_id :: to_id :: tail).

(** A chain list is dropped when its starting id occurs in a chain of
    another list. *)
Definition occurs_elsewhere (all_chains : list (list (list atom))) (i : nat)
    (from_id : atom) : Prop :=
  ∃ j chains chain,
    j ≠ i ∧ all_chains !! j = Some chains ∧ chain ∈ chains ∧ from_id ∈ chain.

(** The relations a→b, b→c, d→c, and the chains walked from each of their
    starting ids. *)
Definition three_relations (a b c d : atom) : gmap atom (gset atom) :=
  {[a := {[b]}; b := {[c]}; d := {[c]}]}.

Definition walked (a b c d k : atom) : list (list atom) :=
  if decide (k = a) then [[a; b; c]]
  else if decide (k = b) then [[b; c]] else [[d; c]].

(** ** Consistent graphs *)

(** An attribute dictionary whose ['layers'] entry is a set of strings. *)
Definition has_layers (d : attrs) : Prop :=
  ∃ s, d !! "layers" = Some (VSet s) ∧ all_str s = true.

(** The adjacency dictionaries are well formed, the node dictionary has the
    same keys as they have, and every node and every edge carries a set of
    layer names. *)
Record consistent (g : graph) : Prop := {
  c_wf : wf g;
  c_nodes : dom (node g) = dom (succ g);
  c_node_layers : ∀ n nd, node g !! n = Some nd → has_layers nd;
  c_edge_layers : ∀ l kd k d,
    heap g !! l = Some kd → kd !! k = Some d → has_layers d
}.

(** ** Elementary updates *)

(** What one round of a method does to the graph: a new node, new attributes
    and layers for a node, a first edge between two nodes, or new attributes
    and layers under a key of an existing key dictionary. *)
Inductive update_step (g : graph) : graph → Prop :=
| new_node n nd :
    n ∉ dom (succ g) → has_layers nd →
    update_step g
      (set_node <[n := nd]> (set_pred <[n := ∅]> (set_succ <[n := ∅]> g)))
| updated_node n nd extra s0 ls :
    n ∈ dom (succ g) → node g !! n = Some nd →
    nd !! "layers" = Some (VSet s0) → all_str ls = true →
    update_step g
      (set_node <[n := update (update nd extra)
                                {["layers" := VSet (s0 ∪ ls)]}]> g)
| new_edge u v key d :
    u ∈ dom (succ g) → v ∈ dom (succ g) → adj_ref g u v = None →
    has_layers d →
    update_step g
      (set_pred (alter <[u := fresh (dom (heap g))]> v)
        (set_succ (alter <[v := fresh (dom (heap g))]> u)
          (set_heap <[fresh (dom (heap g)) := {[key := d]}]> g)))
| updated_edge u v l key extra s0 ls :
    adj_ref g u v = Some l →
    as_set (get_layers (default ∅ (deref g l !! key))) = Ok s0 →
    all_str ls = true →
    update_step g
      (set_heap <[l := <[key := update (update (default ∅ (deref g l !! key)) extra)
                                       {["layers" := VSet (s0 ∪ ls)]}]>
                         (deref g l)]> g).

(** A consistent graph reached from [g0] by elementary updates. *)
Definition reached (g0 g : graph) : Prop :=
  consistent g ∧ rtc update_step g0 g.

(** ** What is kept and what grows *)

(** The layers of [d] are among those of [d']. *)
Definition layers_grow (d d' : attrs) : Prop :=
  ∀ s, d !! "layers" = Some (VSet s) →
       ∃ s', d' !! "layers" = Some (VSet s') ∧ s ⊆ s'.

(** [g'] has the document data of [g], its nodes and its edges; each of them
    has kept its attribute keys and its layers. *)
Record grows (g g' : graph) : Prop := {
  grows_name : name g' = name g;
  grows_ns : ns g' = ns g;
  grows_root : root g' = root g;
  grows_tokens : tokens g' = tokens g;
  grows_nodes : ∀ n nd, node g !! n = Some nd →
    ∃ nd', node g' !! n = Some nd' ∧ dom nd ⊆ dom nd' ∧ layers_grow nd nd';
  grows_edges : ∀ u v k d, succ_edge g u v k = Some d →
    ∃ d', succ_edge g' u v k = Some d' ∧ dom d ⊆ dom d' ∧ layers_grow d d'
}.

(** ** Graphs with the same nodes *)

(** The same node dictionary, and the same nodes in the adjacency
    dictionaries. *)
Definition same_nodes (g0 g : graph) : Prop :=
  node g = node g0 ∧ dom (succ g) = dom (succ g0) ∧ dom (pred g) = dom (pred g0).

(** ** Invalid entries of a node list *)

(** No ['layers'], or ['layers'] not a set of strings. *)
Definition invalid_node (n : atom * attrs) : bool :=
  match n.2 !! "layers" with
  | Some layers => negb (is_layer_set layers)
  | None => true
  end.

(** ** Pointing relations *)

(** [to_id] is among the targets of [from_id]. *)
Definition related (rel_dict : gmap atom (gset atom)) (from_id to_id : atom) : Prop :=
  to_id ∈ targets rel_dict from_id.

(** An edge of type ['points_to'] from [u] to [v]. *)
Definition pointing (g : graph) (u v : atom) : Prop :=
  ∃ k d, succ_edge g u v k = Some d ∧ d !! "edge_type" = Some (VStr "points_to").

(** Every edge has an edge type. *)
Definition typed (g : graph) : Prop :=
  ∀ u v k d, succ_edge g u v k = Some d → is_Some (d !! "edge_type").

(** ** The tokens of a span *)

(** An edge [get_span] follows: it has an edge type, and the type is not the
    member [EdgeTypes.pointing_relation]. *)
Definition followed (d : attrs) : Prop :=
  ∃ et, d !! "edge_type" = Some et ∧ et ≠ VEnum pointing_relation.

(** [x] is a token node that is reached from [n] over followed edges; the
    nodes passed on the way are no token nodes. *)
Inductive spanned (g : graph) : atom → atom → Prop :=
| spanned_token n to_id k d to_attrs :
    succ_edge g n to_id k = Some d → followed d →
    node g !! to_id = Some to_attrs → ns g +:+ ":token" ∈ dom to_attrs →
    spanned g n to_id
| spanned_inner n to_id k d to_attrs x :
    succ_edge g n to_id k = Some d → followed d →
    node g !! to_id = Some to_attrs → ns g +:+ ":token" ∉ dom to_attrs →
    spanned g to_id x →
    spanned g n x.

(** A followed edge from [n] to a node [to_id] that is no token. *)
Definition inner_edge (g : graph) (n to_id : atom) : Prop :=
  ∃ k d to_attrs,
    succ_edge g n to_id k = Some d ∧ followed d ∧
    node g !! to_id = Some to_attrs ∧ ns g +:+ ":token" ∉ dom to_attrs.

(** * Attribute dictionaries as objects

    Python hands a dictionary to a method by reference.  [add_node] makes
    the [attr_dict] of its caller the dictionary of a new node, and
    [add_node], [add_edge] and [add_edges_from] update that object in
    place ([attr_dict.update(attr)]) before they look at the graph.  A
    caller who passes a dictionary a second time, or one that the graph
    already holds, therefore changes what the graph holds.

    In this part the attribute dictionaries are objects in a store, the
    node dictionary and the key dictionaries hold references to them, and
    a dictionary argument is either written out at the call, which makes
    it a new object, or is a reference to an existing object.  The
    definitions of the first part are these methods for callers who hand
    in new dictionaries only. *)

Module Obj.

(** References to attribute dictionaries. *)
Abbreviation ref := nat.

Record world := World {
  w_name : string;
  w_ns : string;
  w_root : atom;
  w_tokens : list atom;
  w_node : gmap atom ref;
  w_succ : gmap atom (gmap atom loc);
  w_pred : gmap atom (gmap atom loc);
  w_heap : gmap loc (gmap atom ref);
  w_dicts : gmap ref attrs
}.

#[global] Instance world_eq_dec : EqDecision world.
Proof. solve_decision. Defined.

(** [DiscourseDocumentGraph()] *)
Definition empty_world (nm nsp : string) (r : atom) (toks : list atom) : world :=
  World nm nsp r toks ∅ ∅ ∅ ∅ ∅.

Definition set_node (f : gmap atom ref → gmap atom ref) (w : world) : world :=
  World (w_name w) (w_ns w) (w_root w) (w_tokens w) (f (w_node w)) (w_succ w)
        (w_pred w) (w_heap w) (w_dicts w).
Definition set_succ (f : gmap atom (gmap atom loc) → gmap atom (gmap atom loc))
    (w : world) : world :=
  World (w_name w) (w_ns w) (w_root w) (w_tokens w) (w_node w) (f (w_succ w))
        (w_pred w) (w_heap w) (w_dicts w).
Definition set_pred (f : gmap atom (gmap atom loc) → gmap atom (gmap atom loc))
    (w : world) : world :=
  World (w_name w) (w_ns w) (w_root w) (w_tokens w) (w_node w) (w_succ w)
        (f (w_pred w)) (w_heap w) (w_dicts w).
Definition set_heap (f : gmap loc (gmap atom ref) → gmap loc (gmap atom ref))
    (w : world) : world :=
  World (w_name w) (w_ns w) (w_root w) (w_tokens w) (w_node w) (w_succ w)
        (w_pred w) (f (w_heap w)) (w_dicts w).
Definition set_dicts (f : gmap ref attrs → gmap ref attrs) (w : world) : world :=
  World (w_name w) (w_ns w) (w_root w) (w_tokens w) (w_node w) (w_succ w)
        (w_pred w) (w_heap w) (f (w_dicts w)).

(** [self.adj[u][v]], the key dictionary and the attribute dictionary a
    reference points to. *)
Definition adj_ref (w : world) (u v : atom) : option loc :=
  w_succ w !! u ≫= (.!! v).
Definition deref (w : world) (l : loc) : gmap atom ref := default ∅ (w_heap w !! l).
Definition the_dict (w : world) (r : ref) : attrs := default ∅ (w_dicts w !! r).

(** ** Methods as state-and-exception computations *)

Definition W (A : Type) : Type := world → result A * world.

Definition ret {A} (a : A) : W A := λ w, (Ok a, w).
Definition throw {A} (e : exn) : W A := λ w, (Raise e, w).
Definition bind {A B} (m : W A) (k : A → W B) : W B := λ w,
  match m w with
  | (Ok a, w') => k a w'
  | (Raise e, w') => (Raise e, w')
  end.
Definition get : W world := λ w, (Ok w, w).
Definition modify (f : world → world) : W unit := λ w, (Ok tt, f w).
Definition lift {A} (r : result A) : W A := λ w, (r, w).

#[warnings="-notation-overridden"]
Notation "'do' x <- m ; k" := (bind m (λ x, k))
  (at level 10, x name, m at level 100, k at level 200).
#[warnings="-notation-overridden"]
Notation "m ;; k" := (bind m (λ _, k))
  (at level 100, k at level 200, right associativity, only parsing).

Definition assert (b : bool) : W unit :=
  if b then ret tt else throw AssertionError.

Fixpoint for_each {A} (xs : list A) (body : A → W unit) : W unit :=
  match xs with
  | [] => ret tt
  | x :: xs' => body x ;; for_each xs' body
  end.

Definition assert_layers (layers : value) : W (gset atom) :=
  assert (isinstance_set layers) ;;
  match layers with
  | VSet s => assert (all_str s) ;; ret s
  | _ => throw AssertionError
  end.

(** ** Dictionary objects *)

(** A new dictionary object. *)
Definition new_dict (d : attrs) : W ref := λ w,
  let r := fresh (dom (w_dicts w)) in (Ok r, set_dicts <[r := d]> w).

(** [r.update(e)], in place. *)
Definition update_dict (r : ref) (e : attrs) : W unit :=
  modify (λ w, set_dicts <[r := update (the_dict w r) e]> w).

(** A dictionary argument: written out at the call, or an existing
    object. *)
Inductive dict_arg :=
| Lit (d : attrs)
| Ref (r : ref).

(** What can be passed as [attr_dict] besides [None]: a dictionary, or an
    object without an [update] method (a number, a string, a list). *)
Inductive arg :=
| Dict (a : dict_arg)
| NoUpdate.

(** What a dictionary argument holds at the moment. *)
Definition content (w : world) (a : dict_arg) : attrs :=
  match a with Lit d => d | Ref r => the_dict w r end.

(** [a.update(attr)]: a dictionary written out at the call is changed
    without anybody else seeing it, an existing object is changed in the
    store. *)
Definition update_arg (a : dict_arg) (attr : attrs) : W dict_arg :=
  match a with
  | Lit d => ret (Lit (update d attr))
  | Ref r => update_dict r attr ;; ret (Ref r)
  end.

(** The lines "set up attribute dict" of [add_node], [add_edge] and
    [add_edges_from].  The keyword dictionary [attr] is a new object in
    every call. *)
Definition set_up (attr_dict : option arg) (attr : attrs) : W dict_arg :=
  match attr_dict with
  | None => ret (Lit attr)
  | Some (Dict a) => update_arg a attr
  | Some NoUpdate => throw AttributeError
  end.

(** The object behind a dictionary argument, for storing it. *)
Definition object_of (a : dict_arg) : W ref :=
  match a with Lit d => new_dict d | Ref r => ret r end.

(** *** [add_node] *)

Definition add_node (n : atom) (layers : value)
    (attr_dict : option arg) (attr : attrs) : W unit :=
  do ls <- assert_layers layers;
  let attr := update attr {["layers" := layers]} in
  do attr_dict <- set_up attr_dict attr;
  do w <- get;
  if decide (n ∈ dom (w_succ w)) then
    do nd <- lift (or_raise KeyError (w_node w !! n));
    do existing <- lift (or_raise KeyError (the_dict w nd !! "layers"));
    do existing_layers <- lift (as_set existing);
    let all_layers := existing_layers ∪ ls in
    let attrs_without_layers := delete "layers" (content w attr_dict) in
    update_dict nd attrs_without_layers ;;
    update_dict nd {["layers" := VSet all_layers]}
  else
    modify (set_succ <[n := ∅]>) ;;
    modify (set_pred <[n := ∅]>) ;;
    do r <- object_of attr_dict;
    modify (set_node <[n := r]>).

(** *** [add_nodes_from] *)

(** The dictionary of an entry is only read; a new node gets a copy. *)
Definition add_nodes_from (nodes : list (atom * dict_arg)) (attr : attrs) : W unit :=
  let additional_attribs := attr in
  for_each nodes (λ '(node_id, ndict),
    do w <- get;
    let ndict := content w ndict in
    assert (bool_decide ("layers" ∈ dom ndict)) ;;
    do layers <- lift (or_raise KeyError (ndict !! "layers"));
    do ls <- assert_layers layers;
    if decide (node_id ∈ dom (w_succ w)) then
      do nd <- lift (or_raise KeyError (w_node w !! node_id));
      do existing <- lift (or_raise KeyError (the_dict w nd !! "layers"));
      do existing_layers <- lift (as_set existing);
      let all_layers := existing_layers ∪ ls in
      update_dict nd ndict ;;
      update_dict nd additional_attribs ;;
      update_dict nd {["layers" := VSet all_layers]}
    else
      modify (set_succ <[node_id := ∅]>) ;;
      modify (set_pred <[node_id := ∅]>) ;;
      let newdict := update additional_attribs ndict in
      do r <- new_dict newdict;
      modify (set_node <[node_id := r]>)).

(** *** [add_edge] *)

Fixpoint unused_key (fuel : nat) (kd : gmap atom ref) (key : Z) : Z :=
  match fuel with
  | O => key
  | S fuel' =>
      if decide (AInt key ∈ dom kd) then unused_key fuel' kd (key + 1) else key
  end.

Definition new_key (kd : gmap atom ref) : Z :=
  unused_key (size kd) kd (Z.of_nat (size kd)).

(** A new key dictionary object. *)
Definition alloc (kd : gmap atom ref) : W loc := λ w,
  let l := fresh (dom (w_heap w)) in (Ok l, set_heap <[l := kd]> w).

Definition add_edge (u v : atom) (layers : value) (key : option atom)
    (attr_dict : option arg) (attr : attrs) : W unit :=
  do ls <- assert_layers layers;
  let attr := update attr {["layers" := layers]} in
  do attr_dict <- set_up attr_dict attr;
  do w <- get;
  assert (bool_decide (u ∈ dom (w_succ w))) ;;
  assert (bool_decide (v ∈ dom (w_succ w))) ;;
  match adj_ref w u v with
  | Some l =>
      let kd := deref w l in
      let key := match key with Some k => k | None => AInt (new_key kd) end in
      match kd !! key with
      | Some datadict =>
          do existing_layers <- lift (as_set (get_layers (the_dict w datadict)));
          let all_layers := existing_layers ∪ ls in
          update_dict datadict (content w attr_dict) ;;
          update_dict datadict {["layers" := VSet all_layers]}
      | None =>
          do existing_layers <- lift (as_set (get_layers ∅));
          let all_layers := existing_layers ∪ ls in
          let datadict := update ∅ (content w attr_dict) in
          let datadict := update datadict {["layers" := VSet all_layers]} in
          do r <- new_dict datadict;
          modify (set_heap <[l := <[key := r]> kd]>)
      end
  | None =>
      let key := default (AInt 0) key in
      let datadict := update ∅ (content w attr_dict) in
      do r <- new_dict datadict;
      do l <- alloc {[key := r]};
      modify (set_succ (alter <[v := l]> u)) ;;
      do w <- get;
      if decide (v ∈ dom (w_pred w)) then modify (set_pred (alter <[u := l]> v))
      else throw KeyError
  end.

(** *** [add_edges_from] *)

Inductive ebunch_entry :=
| Edge3 (u v : atom) (dd : dict_arg)
| Edge4 (u v : atom) (key : option atom) (dd : dict_arg)
| EdgeOther (ne : nat).

(** The dictionary [dd] of an entry is only read; [datadict], if the edge
    exists, is the edge's own dictionary and is updated in place before
    [add_edge] is called with a new dictionary [updated_attrs]. *)
Definition add_edges_from (ebunch : list ebunch_entry)
    (attr_dict : option arg) (attr : attrs) : W unit :=
  do attr_dict <- set_up attr_dict attr;
  for_each ebunch (λ e,
    do uvkd <-
      match e with
      | Edge4 u v key dd => ret (u, v, key, dd)
      | Edge3 u v dd => ret (u, v, None, dd)
      | EdgeOther _ => throw AttributeError
      end;
    let '(u, v, key, dd) := uvkd in
    do w <- get;
    assert (bool_decide ("layers" ∈ dom (content w dd))) ;;
    do layers <- lift (or_raise KeyError (content w dd !! "layers"));
    do ls <- assert_layers layers;
    do additional_layers <-
      match content w attr_dict !! "layers" with
      | None => ret ∅
      | Some al =>
          if truthy al then assert_layers al else lift (iter_set al)
      end;
    let new_layers := ls ∪ additional_layers in
    let ref := if decide (u ∈ dom (w_succ w)) then adj_ref w u v else None in
    let kd := match ref with Some l => deref w l | None => ∅ end in
    let key := match key with Some k => k | None => AInt (new_key kd) end in
    do existing_and_datadict <-
      match kd !! key with
      | Some datadict =>
          let existing := get_layers (the_dict w datadict) in
          update_dict datadict (content w attr_dict) ;;
          do w <- get;
          update_dict datadict (content w dd) ;;
          do w <- get;
          ret (existing, the_dict w datadict)
      | None =>
          ret (get_layers ∅, update (update ∅ (content w attr_dict)) (content w dd))
      end;
    let '(existing, datadict) := existing_and_datadict in
    let updated_attrs := delete "layers" datadict in
    do existing_layers <- lift (as_set existing);
    let all_layers := existing_layers ∪ new_layers in
    add_edge u v (VSet all_layers) (Some key) (Some (Dict (Lit updated_attrs))) ∅).

(** *** [add_precedence_relations] *)

Definition precedence_layers (w : world) : value :=
  VSet {[AStr (w_ns w); AStr (w_ns w +:+ ":precedence")]}.

Definition add_precedence_relations : W unit :=
  do w <- get;
  assert (bool_decide (1 < length (w_tokens w))%nat) ;;
  let layers := precedence_layers w in
  let attr : attrs := {["edge_type" := VEnum precedence_relation]} in
  do t0 <- lift (or_raise IndexError (w_tokens w !! 0%nat));
  add_edge (w_root w) t0 layers None None attr ;;
  for_each (imap (λ i t, (i, t)) (drop 1 (w_tokens w))) (λ '(i, token_node_id),
    do ti <- lift (or_raise IndexError (w_tokens w !! i));
    add_edge ti token_node_id layers None None attr).

(** ** The graph as the read-only functions see it *)

(** Every reference replaced by the dictionary it points to. *)
Definition view (w : world) : graph :=
  Graph (w_name w) (w_ns w) (w_root w) (w_tokens w)
    (the_dict w <$> w_node w) (w_succ w) (w_pred w)
    ((λ kd : gmap atom ref, the_dict w <$> kd) <$> w_heap w).

(** *** [merge_graphs] *)

(** The other graph shares no dictionary with this one: the dictionaries
    of its nodes and edges are only read here. *)
Definition merge_graphs (document_graph : graph) : W unit :=
  do w <- get;
  let self := view w in
  let token_attrib := if decide (ns self = "tiger") then "word" else "token" in
  do remote_tokens <- lift (get_tokens document_graph "token");
  do remote2local <-
    lift (align_tokens self token_attrib remote_tokens 0 (tokens self) ∅);
  let document_graph := relabel_nodes document_graph remote2local in
  add_nodes_from ((λ '(n, d), (n, Lit d)) <$> nodes document_graph) ∅ ;;
  add_edges_from ((λ '(u, v, d), Edge3 u v (Lit d)) <$> edges document_graph) None ∅.

(** ** Sequences of calls *)

Inductive call :=
| AddNode (n : atom) (layers : value) (attr_dict : option arg) (attr : attrs)
| AddNodesFrom (nodes : list (atom * dict_arg)) (attr : attrs)
| AddEdge (u v : atom) (layers : value) (key : option atom)
    (attr_dict : option arg) (attr : attrs)
| AddEdgesFrom (ebunch : list ebunch_entry) (attr_dict : option arg) (attr : attrs)
| AddPrecedenceRelations
| MergeGraphs (document_graph : graph).

Definition run_call (c : call) : W unit :=
  match c with
  | AddNode n layers attr_dict attr => add_node n layers attr_dict attr
  | AddNodesFrom nodes attr => add_nodes_from nodes attr
  | AddEdge u v layers key attr_dict attr => add_edge u v layers key attr_dict attr
  | AddEdgesFrom ebunch attr_dict attr => add_edges_from ebunch attr_dict attr
  | AddPrecedenceRelations => add_precedence_relations
  | MergeGraphs document_graph => merge_graphs document_graph
  end.

Definition outcome {A} (m : W A) (w : world) : result A := (m w).1.
Definition exec {A} (m : W A) (w : world) : world := (m w).2.

Definition run_calls (cs : list call) (w : world) : world :=
  foldl (λ w c, exec (run_call c) w) w cs.

(** [self.node[n]] and [self[u][v][k]], read through the references. *)
Definition node_dict (w : world) (n : atom) : option attrs :=
  the_dict w <$> w_node w !! n.
Definition edge_ref (w : world) (u v k : atom) : option ref :=
  l ← adj_ref w u v; kd ← w_heap w !! l; kd !! k.
Definition edge_dict (w : world) (u v k : atom) : option attrs :=
  the_dict w <$> edge_ref w u v k.

End Obj.

(** ** Example graphs *)

Module Examples.

Definition L (names : list string) : value := layer_set (list_to_set names).

Definition plain (id : string) : atom * attrs :=
  (AStr id, {["layers" := L ["ex"]]}).
Definition token (id text : string) : atom * attrs :=
  (AStr id, {["layers" := L ["ex"; "ex:token"]; "ex:token" := VStr text]}).

(** An empty document graph in namespace [ex]. *)
Definition doc (toks : list string) : graph :=
  empty_graph "doc" "ex" (AStr "root") (AStr <$> toks).

(** Two unconnected nodes. *)
Definition two_nodes : graph :=
  exec (add_nodes_from [plain "u"; plain "v"] ∅) (doc []).

(** Two parallel edges from [u] to [v] under the keys 0 and 5. *)
Definition keys_0_5 : graph :=
  exec (add_edge (AStr "u") (AStr "v") (L ["a"]) (Some (AInt 0)) None ∅ ;;
        add_edge (AStr "u") (AStr "v") (L ["a"]) (Some (AInt 5)) None ∅)
       two_nodes.

(** A node [n] with an attribute [size]. *)
Definition sized_node : graph :=
  exec (add_node (AStr "n") (L ["a"]) None {["size" := VInt 1]}) (doc []).

(** A root and two tokens, no edges. *)
Definition root_t1_t2 : graph :=
  exec (add_nodes_from [plain "root"; token "t1" "a"; token "t2" "b"] ∅)
       (doc ["t1"; "t2"]).

Definition dominates : attrs :=
  {["layers" := L ["ex"]; "edge_type" := VEnum dominance_relation]}.
Definition points_to : attrs :=
  {["layers" := L ["ex"]; "edge_type" := VStr "points_to"]}.

(** A token that carries a dominance edge to itself. *)
Definition token_loop : graph :=
  exec (add_nodes_from [token "t1" "a"] ∅ ;;
        add_edges_from [Edge3 (AStr "t1") (AStr "t1") dominates] None ∅)
       (doc ["t1"]).

(** A non-token node [n] that dominates itself and the token [t1]. *)
Definition node_loop : graph :=
  exec (add_nodes_from [plain "n"; token "t1" "a"] ∅ ;;
        add_edges_from [Edge3 (AStr "n") (AStr "n") dominates;
                        Edge3 (AStr "n") (AStr "t1") dominates] None ∅)
       (doc ["t1"]).

(** A node that dominates the tokens [t1], [t10] and [t2]. *)
Definition span_tree : graph :=
  exec (add_nodes_from [plain "n"; token "t1" "a"; token "t10" "b";
                        token "t2" "c"] ∅ ;;
        add_edges_from [Edge3 (AStr "n") (AStr "t1") dominates;
                        Edge3 (AStr "n") (AStr "t10") dominates;
                        Edge3 (AStr "n") (AStr "t2") dominates] None ∅)
       (doc ["t1"; "t10"; "t2"]).

(** [self] has one token, [other] the same token and one more. *)
Definition merge_self : graph :=
  exec (add_nodes_from [token "t1" "a"] ∅)
       (empty_graph "self" "ex" (AStr "root") [AStr "t1"]).
Definition merge_other : graph :=
  exec (add_nodes_from [token "r1" "a"; token "r2" "b"] ∅)
       (empty_graph "other" "ex" (AStr "root") [AStr "r1"; AStr "r2"]).

(** The pointing relations a→b, b→c, d→c. *)
Definition chain_graph : graph :=
  exec (add_nodes_from [plain "a"; plain "b"; plain "c"; plain "d"] ∅ ;;
        add_edges_from [Edge3 (AStr "a") (AStr "b") points_to;
                        Edge3 (AStr "b") (AStr "c") points_to;
                        Edge3 (AStr "d") (AStr "c") points_to] None ∅)
       (doc []).

(** A node that points to itself. *)
Definition pointing_loop : graph :=
  exec (add_nodes_from [plain "a"] ∅ ;;
        add_edges_from [Edge3 (AStr "a") (AStr "a") points_to] None ∅)
       (doc []).

(** A graph whose only token has another text than the token of
    [merge_self]. *)
Definition merge_other_text : graph :=
  exec (add_nodes_from [token "r1" "b"] ∅)
       (empty_graph "other" "ex" (AStr "root") [AStr "r1"]).

(** The calls that build [span_tree] and [node_loop]. *)
Definition span_tree_calls : list call :=
  [AddNodesFrom [plain "n"; token "t1" "a"; token "t10" "b"; token "t2" "c"] ∅;
   AddEdgesFrom [Edge3 (AStr "n") (AStr "t1") dominates;
                 Edge3 (AStr "n") (AStr "t10") dominates;
                 Edge3 (AStr "n") (AStr "t2") dominates] None ∅].

Definition node_loop_calls : list call :=
  [AddNodesFrom [plain "n"; token "t1" "a"] ∅;
   AddEdgesFrom [Edge3 (AStr "n") (AStr "n") dominates;
                 Edge3 (AStr "n") (AStr "t1") dominates] None ∅].

(** [d = {}; g.add_node('n', {'a'}, attr_dict=d, weight=1)] on an empty
    document graph: the dictionary [d] has become the dictionary of [n]. *)
Definition shared_node : Obj.world :=
  Obj.exec (Obj.add_node (AStr "n") (L ["a"]) (Some (Obj.Dict (Obj.Lit ∅)))
              {["weight" := VInt 1]})
           (Obj.empty_world "doc" "ex" (AStr "root") []).

(** Two nodes and an edge from [u] to [v] under the key 0, with the layers
    [{'a'}]. *)
Definition one_edge : Obj.world :=
  Obj.exec (Obj.bind (Obj.add_nodes_from [(AStr "u", Obj.Lit (plain "u").2);
                                          (AStr "v", Obj.Lit (plain "v").2)] ∅)
              (λ _, Obj.add_edge (AStr "u") (AStr "v") (L ["a"]) (Some (AInt 0))
                      None ∅))
           (Obj.empty_world "doc" "ex" (AStr "root") []).

(** The pointing relations of [chain_graph], and an edge from [a] to [d]
    that has no edge type. *)
Definition chain_untyped : graph :=
  exec (add_edge (AStr "a") (AStr "d") (L ["ex"]) None None ∅) chain_graph.

End Examples.

(** * Properties *)

(** ** Sequencing and loops *)

Lemma for_each_cons {A} (x : A) xs body g :
  for_each (x :: xs) body g = bind (body x) (λ _, for_each xs body) g.
Proof. reflexivity. Qed.

Lemma for_each_app {A} (xs ys : list A) (body : A → M unit) g :
  for_each (xs ++ ys) body g =
  match for_each xs body g with
  | (Ok _, g') => for_each ys body g'
  | (Raise e, g') => (Raise e, g')
  end.
Proof.
  revert g. induction xs as [|x xs IH]; intros g; simpl; [done|].
  unfold bind. destruct (body x g) as [[[]|e] g']; [apply IH|done].
Qed.

Lemma bind_ext {A B} (m m' : M A) (k k' : A → M B) g :
  m g = m' g → (∀ a g', k a g' = k' a g') → bind m k g = bind m' k' g.
Proof.
  intros Hm Hk. unfold bind. rewrite Hm.
  destruct (m' g) as [[a|e] g']; [apply Hk|done].
Qed.

Lemma exec_bind {A B} (P : graph → Prop) (m : M A) (k : A → M B) g :
  P (exec m g) → (∀ a, preserves P (k a)) → P (exec (bind m k) g).
Proof.
  unfold exec, bind. intros Hm Hk.
  destruct (m g) as [[a|e] g']; simpl in *; [by apply Hk|done].
Qed.

Lemma preserves_bind {A B} P (m : M A) (k : A → M B) :
  preserves P m → (∀ a, preserves P (k a)) → preserves P (bind m k).
Proof.
  intros Hm Hk g HP. unfold exec, bind. specialize (Hm g HP). unfold exec in Hm.
  destruct (m g) as [[a|e] g']; simpl in *; [by apply Hk|done].
Qed.

Lemma preserves_for_each {A} P (xs : list A) body :
  (∀ x, preserves P (body x)) → preserves P (for_each xs body).
Proof.
  intros Hb. induction xs as [|x xs IH]; simpl; [by intros g|].
  apply preserves_bind; auto.
Qed.

Lemma foldM_cons {A B} (f : B → A → result B) b x xs :
  foldM f b (x :: xs) = (f b x ≫= λ b', foldM f b' xs).
Proof. reflexivity. Qed.

(** More depth does not change what is returned. *)
Lemma foldM_ext_Ok {A B} (f f' : B → A → result B) xs : ∀ b res,
  (∀ b x r, x ∈ xs → f b x = Ok r → f' b x = Ok r) →
  foldM f b xs = Ok res → foldM f' b xs = Ok res.
Proof.
  induction xs as [|x xs IH]; intros b res Hf Hrun; [done|].
  simpl in *. destruct (f b x) as [b'|e] eqn:Hfx; simpl in Hrun; [|done].
  rewrite (Hf b x b') by (done || by left). simpl.
  apply IH; [|done]. intros ? ? ? ?. apply Hf. by right.
Qed.

Lemma mapM_result_cons_acc {A B} (f : A → result B) xs : ∀ acc ys,
  foldM (λ acc x, y ← f x; Ok (acc ++ [y])) acc xs = Ok ys →
  ∃ zs, ys = acc ++ zs ∧ Forall2 (λ x y, f x = Ok y) xs zs.
Proof.
  induction xs as [|x xs IH]; intros acc ys; simpl.
  - intros [= <-]. exists []. by rewrite app_nil_r.
  - destruct (f x) as [y|e] eqn:Hfx; simpl; [|done].
    intros (zs & -> & Hzs)%IH. exists (y :: zs). split.
    + by rewrite <- app_assoc.
    + by constructor.
Qed.

Lemma mapM_result_Ok {A B} (f : A → result B) xs ys :
  mapM_result f xs = Ok ys → Forall2 (λ x y, f x = Ok y) xs ys.
Proof.
  intros (zs & -> & Hzs)%mapM_result_cons_acc. done.
Qed.

Lemma mapM_result_total_acc {A B} (f : A → result B) (g : A → B) xs : ∀ acc,
  Forall (λ x, f x = Ok (g x)) xs →
  foldM (λ acc x, y ← f x; Ok (acc ++ [y])) acc xs = Ok (acc ++ (g <$> xs)).
Proof.
  induction xs as [|x xs IH]; intros acc Hall; simpl.
  - by rewrite app_nil_r.
  - apply Forall_cons in Hall as [Hx Hxs]. rewrite Hx. simpl.
    rewrite (IH _ Hxs). by rewrite <- app_assoc.
Qed.

Lemma mapM_result_total {A B} (f : A → result B) (g : A → B) xs :
  Forall (λ x, f x = Ok (g x)) xs → mapM_result f xs = Ok (g <$> xs).
Proof. apply (mapM_result_total_acc f g xs []). Qed.

(** ** Validation of the [layers] argument *)

Lemma assert_layers_invalid layers g :
  is_layer_set layers = false → assert_layers layers g = (Raise AssertionError, g).
Proof.
  unfold assert_layers, bind, assert. destruct layers; simpl; try done.
  by intros ->.
Qed.

Lemma assert_layers_valid layers g :
  is_layer_set layers = true → ∃ s, layers = VSet s ∧ assert_layers layers g = (Ok s, g).
Proof.
  unfold assert_layers, bind, assert. destruct layers; simpl; try done.
  intros ->. by eexists.
Qed.

Lemma assert_layers_state layers g : (assert_layers layers g).2 = g.
Proof.
  unfold assert_layers, bind, assert. destruct layers; simpl; try done.
  by destruct (all_str s).
Qed.

(** C3, amended: a [layers] argument that is not a set, or that holds an
    element that is not a string, makes [add_node] and [add_edge] raise the
    assertion error, and the graph is left as it was. *)
Theorem layers_rejected_unchanged g n u v key layers attr_dict attr :
  is_layer_set layers = false →
  add_node n layers attr_dict attr g = (Raise AssertionError, g) ∧
  add_edge u v layers key attr_dict attr g = (Raise AssertionError, g).
Proof.
  intros Hbad. unfold add_node, add_edge, bind.
  by rewrite !(assert_layers_invalid _ _ Hbad).
Qed.

Lemma layers_rejected_unchanged_witness :
  is_layer_set (VSet {[AStr "a"; AInt 1]}) = false ∧
  is_layer_set (VList [AStr "a"]) = false ∧
  add_node (AStr "n") (VSet {[AStr "a"; AInt 1]}) None ∅ Examples.two_nodes
    = (Raise AssertionError, Examples.two_nodes) ∧
  add_edge (AStr "u") (AStr "v") (VList [AStr "a"]) None None ∅ Examples.two_nodes
    = (Raise AssertionError, Examples.two_nodes).
Proof.
  split; [reflexivity|]. split; [reflexivity|].
  split.
  - apply (layers_rejected_unchanged Examples.two_nodes (AStr "n") (AStr "u")
             (AStr "v") None (VSet {[AStr "a"; AInt 1]}) None ∅). reflexivity.
  - apply (layers_rejected_unchanged Examples.two_nodes (AStr "n") (AStr "u")
             (AStr "v") None (VList [AStr "a"]) None ∅). reflexivity.
Defined.

(** C3 as stated fails on the empty set: it passes both assertions, the node
    (the edge) is stored with no layer at all. *)
Lemma empty_layers_accepted :
  is_layer_set (VSet ∅) = true ∧
  outcome (add_node (AStr "n") (VSet ∅) None ∅) Examples.two_nodes = Ok tt ∧
  node (exec (add_node (AStr "n") (VSet ∅) None ∅) Examples.two_nodes) !! AStr "n"
    = Some {["layers" := VSet ∅]} ∧
  outcome (add_edge (AStr "u") (AStr "v") (VSet ∅) None None ∅) Examples.two_nodes
    = Ok tt ∧
  succ_edge (exec (add_edge (AStr "u") (AStr "v") (VSet ∅) None None ∅)
                  Examples.two_nodes) (AStr "u") (AStr "v") (AInt 0)
    = Some {["layers" := VSet ∅]}.
Proof. compute_done. Qed.

(** ** Reading the adjacency dictionaries *)

Lemma lookup_alter_insert {A} (m : gmap atom (gmap atom A)) u v x u' v' :
  u ∈ dom m →
  alter <[v := x]> u m !! u' ≫= (.!! v') =
  if decide (u = u' ∧ v = v') then Some x else m !! u' ≫= (.!! v').
Proof.
  intros [nbrs Hu]%elem_of_dom.
  destruct (decide (u = u')) as [<-|Hne].
  - rewrite lookup_alter_eq, Hu. simpl. destruct (decide (v = v')) as [<-|Hne].
    + rewrite lookup_insert_eq. by rewrite decide_True.
    + rewrite lookup_insert_ne by done. rewrite decide_False by naive_solver. done.
  - rewrite lookup_alter_ne by done. rewrite decide_False by naive_solver. done.
Qed.

Lemma keydict_of_set_heap g l kd u v :
  keydict_of (set_heap <[l := kd]> g) u v =
  match adj_ref g u v with
  | Some l' => if decide (l = l') then kd else deref g l'
  | None => ∅
  end.
Proof.
  unfold keydict_of. change (adj_ref (set_heap <[l:=kd]> g) u v) with (adj_ref g u v).
  destruct (adj_ref g u v) as [l'|]; [|done].
  unfold deref. simpl. case_decide as Hl.
  - subst. by rewrite lookup_insert_eq.
  - by rewrite lookup_insert_ne.
Qed.

Lemma keydict_of_succ_edge g u v k d :
  keydict_of g u v !! k = Some d ↔ succ_edge g u v k = Some d.
Proof.
  unfold keydict_of, succ_edge, deref.
  destruct (adj_ref g u v) as [l|]; simpl; [|by rewrite lookup_empty].
  destruct (heap g !! l); simpl; [done|by rewrite lookup_empty].
Qed.

(** ** Repeated insertion *)

Lemma effective_layers c : effective c !! "layers" = Some (VSet (arg_layers c)).
Proof.
  unfold effective, update. destruct (arg_attr_dict c);
    by rewrite !lookup_union, lookup_singleton_eq, !union_Some_l.
Qed.

Lemma effective_other c k : k ≠ "layers" → effective c !! k = supplied c !! k.
Proof.
  intros Hk. unfold effective, supplied, update.
  destruct (arg_attr_dict c); rewrite ?lookup_union, lookup_singleton_ne by done;
    by repeat (destruct (_ !! k)).
Qed.

Lemma add_node_new g n c :
  n ∉ dom (succ g) → all_str (arg_layers c) = true →
  add_node n (VSet (arg_layers c)) (arg_attr_dict c) (arg_attr c) g =
  (Ok tt, set_node <[n := effective c]>
            (set_pred <[n := ∅]> (set_succ <[n := ∅]> g))).
Proof.
  intros Hn Hls. unfold add_node, assert_layers, bind, get, assert, modify, ret. simpl.
  rewrite Hls. simpl. rewrite decide_False by done. by destruct c as [? [?|] ?].
Qed.

Lemma add_node_existing g n c nd s0 :
  n ∈ dom (succ g) → node g !! n = Some nd → nd !! "layers" = Some (VSet s0) →
  all_str (arg_layers c) = true →
  add_node n (VSet (arg_layers c)) (arg_attr_dict c) (arg_attr c) g =
  (Ok tt, set_node <[n := update (update nd (delete "layers" (effective c)))
                                {["layers" := VSet (s0 ∪ arg_layers c)]}]> g).
Proof.
  intros Hn Hnd Hl Hls. unfold add_node, assert_layers, bind, get, assert, modify, ret, lift. simpl.
  rewrite Hls. simpl. rewrite decide_True by done. rewrite Hnd. simpl.
  rewrite Hl. simpl. by destruct c as [? [?|] ?].
Qed.

Lemma add_node_calls_existing n calls :
  Forall (λ c, all_str (arg_layers c) = true) calls →
  ∀ g nd s0,
  n ∈ dom (succ g) → node g !! n = Some nd → nd !! "layers" = Some (VSet s0) →
  ∃ g' nd',
    add_node_calls n calls g = (Ok tt, g') ∧
    node g' !! n = Some nd' ∧
    nd' !! "layers" = Some (VSet (s0 ∪ all_layers calls)) ∧
    ∀ k, k ≠ "layers" →
      nd' !! k = foldl (λ acc c, supplied c !! k ∪ acc) (nd !! k) calls.
Proof.
  induction 1 as [|c calls Hc Hcalls IH]; intros g nd s0 Hn Hnd Hl.
  - exists g, nd. split; [done|]. split; [done|]. split; [|done].
    rewrite Hl. do 2 f_equal. unfold all_layers. simpl. set_solver.
  - edestruct (IH (set_node <[n := update (update nd (delete "layers" (effective c)))
                     {["layers" := VSet (s0 ∪ arg_layers c)]}]> g))
      as (g' & nd' & Hrun & Hnd' & Hl' & Hk').
    + done.
    + simpl. apply lookup_insert_eq.
    + unfold update. by rewrite lookup_union, lookup_singleton_eq, union_Some_l.
    + exists g', nd'. split.
      { unfold add_node_calls. rewrite for_each_cons. unfold bind.
        by rewrite (add_node_existing g n c nd s0). }
      split; [done|]. split.
      { rewrite Hl'. do 2 f_equal. unfold all_layers. simpl. set_solver. }
      intros k Hk. rewrite (Hk' k Hk). simpl. f_equal.
      unfold update. rewrite !lookup_union, lookup_singleton_ne by done.
      rewrite lookup_delete_ne by done. rewrite effective_other by done.
      by destruct (supplied c !! k), (nd !! k).
Qed.

Lemma add_node_calls_new n c calls g :
  n ∉ dom (succ g) →
  Forall (λ c, all_str (arg_layers c) = true) (c :: calls) →
  ∃ g' nd,
    add_node_calls n (c :: calls) g = (Ok tt, g') ∧
    node g' !! n = Some nd ∧
    nd !! "layers" = Some (VSet (all_layers (c :: calls))) ∧
    ∀ k, k ≠ "layers" → nd !! k = most_recent k (c :: calls).
Proof.
  intros Hn [Hc Hcalls]%Forall_cons.
  edestruct (add_node_calls_existing n calls Hcalls
               (set_node <[n := effective c]>
                  (set_pred <[n := ∅]> (set_succ <[n := ∅]> g))))
    as (g' & nd' & Hrun & Hnd' & Hl' & Hk').
  - simpl. rewrite dom_insert_L. set_solver.
  - simpl. apply lookup_insert_eq.
  - apply effective_layers.
  - exists g', nd'. split.
    { unfold add_node_calls. rewrite for_each_cons. unfold bind.
      by rewrite (add_node_new g n c). }
    split; [done|]. split; [done|].
    intros k Hk. rewrite (Hk' k Hk). unfold most_recent. simpl.
    rewrite effective_other by done. by destruct (supplied c !! k).
Qed.

Lemma add_edge_keyed_existing g u v key c l s0 :
  adj_ref g u v = Some l → u ∈ dom (succ g) → v ∈ dom (succ g) →
  as_set (get_layers (default ∅ (deref g l !! key))) = Ok s0 →
  all_str (arg_layers c) = true →
  add_edge u v (VSet (arg_layers c)) (Some key) (arg_attr_dict c) (arg_attr c) g =
  (Ok tt, set_heap <[l := <[key := update (update (default ∅ (deref g l !! key))
                                                  (effective c))
                                     {["layers" := VSet (s0 ∪ arg_layers c)]}]>
                           (deref g l)]> g).
Proof.
  intros Href Hu Hv Hs0 Hls.
  unfold add_edge, assert_layers, bind, get, assert, modify, ret, lift. simpl.
  rewrite Hls. simpl. rewrite !bool_decide_eq_true_2 by done. simpl.
  rewrite Href, Hs0. by destruct c as [? [?|] ?].
Qed.

Lemma add_edge_keyed_new_pair g u v key c :
  adj_ref g u v = None → u ∈ dom (succ g) → v ∈ dom (succ g) →
  v ∈ dom (pred g) → all_str (arg_layers c) = true →
  add_edge u v (VSet (arg_layers c)) (Some key) (arg_attr_dict c) (arg_attr c) g =
  (Ok tt,
   set_pred (alter <[u := fresh (dom (heap g))]> v)
     (set_succ (alter <[v := fresh (dom (heap g))]> u)
       (set_heap <[fresh (dom (heap g)) := {[key := effective c]}]> g))).
Proof.
  intros Href Hu Hv Hp Hls.
  unfold add_edge, assert_layers, bind, get, assert, modify, ret, lift, alloc. simpl.
  rewrite Hls. simpl. rewrite !bool_decide_eq_true_2 by done. simpl.
  rewrite Href. simpl. rewrite decide_True by done.
  unfold update at 1. rewrite (right_id_L ∅ (∪)). by destruct c as [? [?|] ?].
Qed.

Lemma datadict_layers (d e : attrs) s :
  update (update d e) {["layers" := VSet s]} !! "layers" = Some (VSet s).
Proof. unfold update. by rewrite lookup_union, lookup_singleton_eq, union_Some_l. Qed.

Lemma datadict_other (d : attrs) c s k :
  k ≠ "layers" →
  update (update d (effective c)) {["layers" := VSet s]} !! k
  = supplied c !! k ∪ d !! k.
Proof.
  intros Hk. unfold update. rewrite !lookup_union, lookup_singleton_ne by done.
  rewrite effective_other by done. by rewrite (left_id_L None (∪)).
Qed.

Lemma add_edge_calls_existing u v key calls :
  Forall (λ c, all_str (arg_layers c) = true) calls →
  ∀ g l d s0,
  adj_ref g u v = Some l → u ∈ dom (succ g) → v ∈ dom (succ g) →
  deref g l !! key = Some d → d !! "layers" = Some (VSet s0) →
  ∃ g' d',
    add_edge_calls u v key calls g = (Ok tt, g') ∧
    keydict_of g' u v !! key = Some d' ∧
    d' !! "layers" = Some (VSet (s0 ∪ all_layers calls)) ∧
    ∀ k, k ≠ "layers" →
      d' !! k = foldl (λ acc c, supplied c !! k ∪ acc) (d !! k) calls.
Proof.
  induction 1 as [|c calls Hc Hcalls IH]; intros g l d s0 Href Hu Hv Hd Hl.
  - exists g, d. split; [done|]. split; [by unfold keydict_of; rewrite Href|].
    split; [|done]. rewrite Hl. do 2 f_equal. unfold all_layers. simpl. set_solver.
  - pose proof (add_edge_keyed_existing g u v key c l s0 Href Hu Hv) as Hstep.
    rewrite Hd in Hstep. simpl in Hstep. unfold get_layers in Hstep.
    rewrite Hl in Hstep. specialize (Hstep eq_refl Hc).
    destruct (IH (set_heap <[l := <[key := update (update d (effective c))
                     {["layers" := VSet (s0 ∪ arg_layers c)]}]> (deref g l)]> g) l
                 (update (update d (effective c))
                     {["layers" := VSet (s0 ∪ arg_layers c)]})
                 (s0 ∪ arg_layers c))
      as (g' & d' & Hrun & Hd' & Hl' & Hk'); [done|done|done| | |].
    + unfold deref. simpl. rewrite lookup_insert_eq. simpl. apply lookup_insert_eq.
    + apply datadict_layers.
    + exists g', d'. split.
      { unfold add_edge_calls. rewrite for_each_cons. unfold bind. by rewrite Hstep. }
      split; [done|]. split.
      { rewrite Hl'. do 2 f_equal. unfold all_layers. simpl. set_solver. }
      intros k Hk. rewrite (Hk' k Hk). simpl. f_equal. by apply datadict_other.
Qed.

Lemma add_edge_calls_new u v key c calls g :
  u ∈ dom (succ g) → v ∈ dom (succ g) → v ∈ dom (pred g) →
  keydict_of g u v !! key = None →
  Forall (λ c, all_str (arg_layers c) = true) (c :: calls) →
  ∃ g' d,
    add_edge_calls u v key (c :: calls) g = (Ok tt, g') ∧
    keydict_of g' u v !! key = Some d ∧
    d !! "layers" = Some (VSet (all_layers (c :: calls))) ∧
    ∀ k, k ≠ "layers" → d !! k = most_recent k (c :: calls).
Proof.
  intros Hu Hv Hp Hfree [Hc Hcalls]%Forall_cons.
  assert (∃ g1 l d1,
    add_edge u v (VSet (arg_layers c)) (Some key) (arg_attr_dict c) (arg_attr c) g
      = (Ok tt, g1) ∧
    adj_ref g1 u v = Some l ∧ dom (succ g1) = dom (succ g) ∧
    deref g1 l !! key = Some d1 ∧
    d1 !! "layers" = Some (VSet (arg_layers c)) ∧
    ∀ k, k ≠ "layers" → d1 !! k = supplied c !! k) as (g1 & l & d1 & Hstep & Href1 & Hdom1 & Hd1 & Hl1 & Hk1).
  { destruct (adj_ref g u v) as [l|] eqn:Href.
    - unfold keydict_of in Hfree. rewrite Href in Hfree.
      pose proof (add_edge_keyed_existing g u v key c l ∅ Href Hu Hv) as Hstep.
      rewrite Hfree in Hstep. specialize (Hstep eq_refl Hc). simpl in Hstep.
      eexists _, l, _. split; [exact Hstep|]. split; [done|]. split; [done|].
      split; [unfold deref; simpl; rewrite lookup_insert_eq; simpl; apply lookup_insert_eq|].
      split.
      + rewrite datadict_layers. by rewrite (left_id_L ∅ (∪)).
      + intros k Hk. rewrite datadict_other by done. rewrite lookup_empty.
        by rewrite (right_id_L None (∪)).
    - eexists _, (fresh (dom (heap g))), _.
      split; [by apply add_edge_keyed_new_pair|].
      split; [unfold adj_ref; simpl; rewrite lookup_alter_insert by done;
              by rewrite decide_True|].
      split; [simpl; by rewrite dom_alter_L|].
      split; [unfold deref; simpl; rewrite lookup_insert_eq; simpl;
              apply lookup_singleton_eq|].
      split; [apply effective_layers|]. intros k Hk. by apply effective_other. }
  destruct (add_edge_calls_existing u v key calls Hcalls g1 l d1 (arg_layers c))
    as (g' & d' & Hrun & Hd' & Hl' & Hk'); [done|by rewrite Hdom1|by rewrite Hdom1|done|done|].
  exists g', d'. split.
  { unfold add_edge_calls. rewrite for_each_cons. unfold bind. by rewrite Hstep. }
  split; [done|]. split; [done|].
  intros k Hk. rewrite (Hk' k Hk). unfold most_recent. simpl.
  rewrite (Hk1 k Hk). by rewrite (right_id_L None (∪)).
Qed.

(** Repeated [add_node] calls for a new node [n], and repeated [add_edge]
    calls for a new edge [(u, v, key)], each with an attribute dictionary
    of its own, all return; afterwards the ['layers'] attribute is the
    union of the [layers] arguments of all the calls, and every other
    attribute key holds the value of the most recent call that supplied
    it. *)
Theorem layers_union_attributes_overwritten g n u v key calls :
  n ∉ dom (succ g) →
  u ∈ dom (succ g) → v ∈ dom (succ g) → v ∈ dom (pred g) →
  keydict_of g u v !! key = None →
  calls ≠ [] →
  Forall (λ c, all_str (arg_layers c) = true) calls →
  (∃ g' nd,
     add_node_calls n calls g = (Ok tt, g') ∧
     node g' !! n = Some nd ∧
     nd !! "layers" = Some (VSet (all_layers calls)) ∧
     ∀ k, k ≠ "layers" → nd !! k = most_recent k calls) ∧
  (∃ g' d,
     add_edge_calls u v key calls g = (Ok tt, g') ∧
     succ_edge g' u v key = Some d ∧
     d !! "layers" = Some (VSet (all_layers calls)) ∧
     ∀ k, k ≠ "layers" → d !! k = most_recent k calls).
Proof.
  intros Hn Hu Hv Hp Hfree Hne Hvalid.
  destruct calls as [|c calls]; [done|]. split.
  - by apply add_node_calls_new.
  - destruct (add_edge_calls_new u v key c calls g) as (g' & d & ? & Hd & ? & ?);
      try done.
    exists g', d. split; [done|]. split; [|done].
    by apply keydict_of_succ_edge.
Qed.

Lemma layers_union_attributes_overwritten_witness :
  let g := Examples.two_nodes in
  let calls :=
    [CallArgs {[AStr "a"]} None {["weight" := VInt 1]};
     CallArgs {[AStr "b"]} (Some {["weight" := VInt 7; "pos" := VStr "N"]})
              {["weight" := VInt 2]}] in
  (∃ g' nd,
     add_node_calls (AStr "n") calls g = (Ok tt, g') ∧
     node g' !! AStr "n" = Some nd ∧
     nd !! "layers" = Some (VSet (all_layers calls)) ∧
     ∀ k, k ≠ "layers" → nd !! k = most_recent k calls) ∧
  (∃ g' d,
     add_edge_calls (AStr "u") (AStr "v") (AInt 0) calls g = (Ok tt, g') ∧
     succ_edge g' (AStr "u") (AStr "v") (AInt 0) = Some d ∧
     d !! "layers" = Some (VSet (all_layers calls)) ∧
     ∀ k, k ≠ "layers" → d !! k = most_recent k calls).
Proof.
  intros g calls.
  apply (layers_union_attributes_overwritten g (AStr "n") (AStr "u") (AStr "v")
           (AInt 0) calls); subst g calls; compute_done.
Defined.

(** The example of the specification: re-adding [n] with the layers [{a}]
    and weight 1, then with [{b}] and weight 2. *)
Lemma readd_node_example :
  let calls := [CallArgs {[AStr "a"]} None {["weight" := VInt 1]};
                CallArgs {[AStr "b"]} None {["weight" := VInt 2]}] in
  node (exec (add_node_calls (AStr "n") calls) (Examples.doc [])) !! AStr "n"
  = Some {["layers" := VSet {[AStr "a"; AStr "b"]}; "weight" := VInt 2]}.
Proof. cbv zeta. compute_done. Qed.

(** ** Keys of parallel edges *)

Lemma unused_key_not_used fuel (kd : keydict) key :
  (size (filter (key_from key) (dom kd)) ≤ fuel)%nat →
  AInt (unused_key fuel kd key) ∉ dom kd.
Proof.
  revert key. induction fuel as [|fuel IH]; intros key Hsize; simpl.
  - intros Hin. assert (AInt key ∈ filter (key_from key) (dom kd)) as Hf.
    { apply elem_of_filter. split; [simpl; lia|done]. }
    assert (filter (key_from key) (dom kd) ≡ ∅) as Hempty.
    { apply size_empty_iff. lia. }
    rewrite Hempty in Hf. set_solver.
  - case_decide as Hin; [|done]. apply IH.
    assert (filter (key_from (key + 1)) (dom kd) ⊂ filter (key_from key) (dom kd)) as Hsub.
    { split.
      - intros a [Ha ?]%elem_of_filter. apply elem_of_filter. split; [|done].
        destruct a; simpl in *; lia.
      - intros Hsub. assert (AInt key ∈ filter (key_from (key + 1)) (dom kd)) as Hk.
        { apply Hsub, elem_of_filter. split; [simpl; lia|done]. }
        apply elem_of_filter in Hk as [Hk _]. simpl in Hk. lia. }
    apply subset_size in Hsub. lia.
Qed.

Lemma new_key_not_used (kd : keydict) : kd !! AInt (new_key kd) = None.
Proof.
  apply not_elem_of_dom, unused_key_not_used.
  rewrite <- (size_dom kd). apply subseteq_size. intros a [_ Ha]%elem_of_filter. exact Ha.
Qed.

(** C7: with the keys 0 and 5 in use, an edge added without a key gets the
    key 2, the number of existing keys, and the key 1 stays unused. *)
Theorem new_key_counts_from_len :
  let g := exec (add_edge (AStr "u") (AStr "v") (Examples.L ["b"]) None None ∅)
                Examples.keys_0_5 in
  dom (keydict_of Examples.keys_0_5 (AStr "u") (AStr "v")) = {[AInt 0; AInt 5]} ∧
  outcome (add_edge (AStr "u") (AStr "v") (Examples.L ["b"]) None None ∅)
          Examples.keys_0_5 = Ok tt ∧
  dom (keydict_of g (AStr "u") (AStr "v")) = {[AInt 0; AInt 5; AInt 2]} ∧
  succ_edge g (AStr "u") (AStr "v") (AInt 1) = None ∧
  succ_edge g (AStr "u") (AStr "v") (AInt 2) = Some {["layers" := Examples.L ["b"]]}.
Proof. cbv zeta. compute_done. Qed.

(** ** The shared overlay of [add_nodes_from] *)

(** C8: for a node that already exists the overlay is applied after the
    entry's own attributes and wins; for a new node the entry's own
    attributes win. *)
Theorem overlay_wins_on_existing_node :
  let own : attrs := {["layers" := Examples.L ["b"]; "size" := VInt 5]} in
  let g := exec (add_nodes_from [(AStr "n", own); (AStr "m", own)]
                                {["size" := VInt 10]}) Examples.sized_node in
  outcome (add_nodes_from [(AStr "n", own); (AStr "m", own)] {["size" := VInt 10]})
          Examples.sized_node = Ok tt ∧
  (node g !! AStr "n") ≫= (.!! "size") = Some (VInt 10) ∧
  (node g !! AStr "m") ≫= (.!! "size") = Some (VInt 5).
Proof. cbv zeta. compute_done. Qed.

(** ** Edge bunches *)

Lemma invalid_entry_raises e attr_dict g rest :
  invalid_entry e = true →
  add_edges_from (e :: rest) attr_dict.1 attr_dict.2 g = (Raise (entry_error e), g).
Proof.
  intros Hbad. unfold add_edges_from. simpl. unfold bind at 1.
  destruct e as [u v dd|u v key dd|ne]; simpl in *; [| |done].
  - unfold bind, ret, assert, lift, throw. simpl.
    destruct (dd !! "layers") as [layers|] eqn:Hl.
    + rewrite bool_decide_eq_true_2 by (apply elem_of_dom; eauto). simpl.
      apply negb_true_iff in Hbad. by rewrite (assert_layers_invalid _ _ Hbad).
    + by rewrite bool_decide_eq_false_2 by (by apply not_elem_of_dom).
  - unfold bind, ret, assert, lift, throw. simpl.
    destruct (dd !! "layers") as [layers|] eqn:Hl.
    + rewrite bool_decide_eq_true_2 by (apply elem_of_dom; eauto). simpl.
      apply negb_true_iff in Hbad. by rewrite (assert_layers_invalid _ _ Hbad).
    + by rewrite bool_decide_eq_false_2 by (by apply not_elem_of_dom).
Qed.

(** C9, amended: the error of an invalid entry is raised when the loop
    reaches it.  The entries in front of it have been processed as if the
    bunch ended there, the invalid entry and the entries behind it change
    nothing. *)
Theorem add_edges_from_stops_at_invalid_entry pre bad post attr_dict attr g :
  invalid_entry bad = true →
  add_edges_from (pre ++ bad :: post) attr_dict attr g =
  match add_edges_from pre attr_dict attr g with
  | (Ok _, g') => (Raise (entry_error bad), g')
  | (Raise e, g') => (Raise e, g')
  end.
Proof.
  intros Hbad. unfold add_edges_from at 1. rewrite for_each_app.
  fold (add_edges_from pre attr_dict attr).
  destruct (add_edges_from pre attr_dict attr g) as [[[]|e] g']; [|done].
  apply (invalid_entry_raises bad (attr_dict, attr) g' post Hbad).
Qed.

Lemma add_edges_from_stops_at_invalid_entry_witness :
  let good := Edge3 (AStr "u") (AStr "v") {["layers" := Examples.L ["a"]]} in
  invalid_entry (EdgeOther 2) = true ∧
  add_edges_from ([good] ++ EdgeOther 2 :: [good]) None ∅ Examples.two_nodes =
  match add_edges_from [good] None ∅ Examples.two_nodes with
  | (Ok _, g') => (Raise AttributeError, g')
  | (Raise e, g') => (Raise e, g')
  end.
Proof.
  intros good. split; [reflexivity|].
  apply (add_edges_from_stops_at_invalid_entry [good] (EdgeOther 2) [good] None ∅
           Examples.two_nodes).
  reflexivity.
Defined.

(** C9 as stated fails: the entries in front of an invalid one have been
    added when the error is raised. *)
Lemma add_edges_from_keeps_earlier_entries :
  let good := Edge3 (AStr "u") (AStr "v") {["layers" := Examples.L ["a"]]} in
  let g := Examples.two_nodes in
  add_edges_from [good] None ∅ g ≠ (Ok tt, g) ∧
  outcome (add_edges_from [good; EdgeOther 2] None ∅) g = Raise AttributeError ∧
  exec (add_edges_from [good; EdgeOther 2] None ∅) g ≠ g ∧
  succ_edge (exec (add_edges_from [good; EdgeOther 2] None ∅) g)
            (AStr "u") (AStr "v") (AInt 0) = Some {["layers" := Examples.L ["a"]]} ∧
  outcome (add_edges_from [good; Edge3 (AStr "u") (AStr "v") ∅] None ∅) g
    = Raise AssertionError ∧
  succ_edge (exec (add_edges_from [good; Edge3 (AStr "u") (AStr "v") ∅] None ∅) g)
            (AStr "u") (AStr "v") (AInt 0) = Some {["layers" := Examples.L ["a"]]}.
Proof. cbv zeta. compute_done. Qed.

(** ** The adjacency invariant *)

Lemma wf_set_node f g : wf g → wf (set_node f g).
Proof. intros [H1 H2 H3 H4]. by split. Qed.

Lemma wf_new_node n g :
  wf g → n ∉ dom (succ g) →
  wf (set_pred <[n := ∅]> (set_succ <[n := ∅]> g)).
Proof.
  intros [H1 H2 H3 H4] Hn.
  assert (Hs : ∀ u v, adj_ref (set_pred <[n := ∅]> (set_succ <[n := ∅]> g)) u v = adj_ref g u v).
  { intros u v. unfold adj_ref. simpl. destruct (decide (n = u)) as [->|Hne].
    - rewrite lookup_insert_eq. apply not_elem_of_dom in Hn. rewrite Hn. simpl. apply lookup_empty.
    - by rewrite lookup_insert_ne. }
  assert (Hp : ∀ v u, pred_ref (set_pred <[n := ∅]> (set_succ <[n := ∅]> g)) v u = pred_ref g v u).
  { intros v u. unfold pred_ref. simpl. destruct (decide (n = v)) as [->|Hne].
    - rewrite lookup_insert_eq. rewrite <- H1 in Hn. apply not_elem_of_dom in Hn. rewrite Hn. simpl. apply lookup_empty.
    - by rewrite lookup_insert_ne. }
  split.
  - simpl. rewrite !dom_insert_L. by rewrite H1.
  - intros u v. rewrite Hs, Hp. apply H2.
  - intros u v l. rewrite Hs. apply H3.
  - intros u v u' v' l. rewrite !Hs. apply H4.
Qed.

Lemma wf_set_heap g l kd :
  wf g → is_Some (heap g !! l) → wf (set_heap <[l := kd]> g).
Proof.
  intros [H1 H2 H3 H4] Hl. split; try done.
  intros u v l' Hr. simpl. destruct (decide (l = l')) as [->|Hne].
  - rewrite lookup_insert_eq. eauto.
  - rewrite lookup_insert_ne by done. by eapply H3.
Qed.

Lemma wf_new_edge u v kd g :
  wf g → u ∈ dom (succ g) → v ∈ dom (succ g) → adj_ref g u v = None →
  wf (set_pred (alter <[u := fresh (dom (heap g))]> v)
       (set_succ (alter <[v := fresh (dom (heap g))]> u)
         (set_heap <[fresh (dom (heap g)) := kd]> g))).
Proof.
  intros [H1 H2 H3 H4] Hu Hv Hnone.
  set (l := fresh (dom (heap g))).
  assert (Hfresh : heap g !! l = None) by (apply not_elem_of_dom, is_fresh).
  split.
  - simpl. by rewrite !dom_alter_L.
  - intros u' v'. unfold adj_ref, pred_ref. simpl.
    rewrite lookup_alter_insert by done.
    rewrite lookup_alter_insert by (by rewrite H1).
    repeat case_decide; naive_solver.
  - intros u' v' l'. unfold adj_ref. simpl. rewrite lookup_alter_insert by done.
    case_decide.
    + intros [= <-]. rewrite lookup_insert_eq. eauto.
    + intros Hr. rewrite lookup_insert_ne. { by eapply H3. }
      intros <-. apply H3 in Hr. rewrite Hfresh in Hr. by destruct Hr.
  - intros u1 v1 u2 v2 l'. unfold adj_ref. simpl. rewrite !lookup_alter_insert by done.
    repeat case_decide.
    + naive_solver.
    + intros [= <-] Hr. apply H3 in Hr. rewrite Hfresh in Hr. by destruct Hr.
    + intros Hr [= <-]. apply H3 in Hr. rewrite Hfresh in Hr. by destruct Hr.
    + apply H4.
Qed.

Lemma wf_add_node n layers attr_dict attr : preserves wf (add_node n layers attr_dict attr).
Proof.
  intros g Hwf. unfold exec, add_node.
  unfold bind at 1. pose proof (assert_layers_state layers g) as Hst.
  destruct (assert_layers layers g) as [[ls|e] g1]; simpl in Hst; subst g1; [|done].
  unfold bind, get, assert, lift, modify, throw, ret. simpl.
  case_decide.
  - repeat case_match; simpl; try done; by apply wf_set_node.
  - simpl. by apply wf_set_node, wf_new_node.
Qed.

Lemma wf_add_nodes_from nodes attr : preserves wf (add_nodes_from nodes attr).
Proof.
  unfold add_nodes_from. apply preserves_for_each. intros [node_id ndict] g Hwf.
  unfold exec, bind, get, assert, lift, modify, throw, ret. simpl.
  case_bool_decide; simpl; [|done].
  destruct (ndict !! "layers") as [layers|]; simpl; [|done].
  pose proof (assert_layers_state layers g) as Hst.
  destruct (assert_layers layers g) as [[ls|e] g1]; simpl in Hst; subst g1; [|done].
  case_decide.
  - repeat case_match; simpl; try done; by apply wf_set_node.
  - simpl. by apply wf_set_node, wf_new_node.
Qed.

Lemma wf_add_edge u v layers key attr_dict attr :
  preserves wf (add_edge u v layers key attr_dict attr).
Proof.
  intros g Hwf. unfold exec, add_edge.
  unfold bind at 1. pose proof (assert_layers_state layers g) as Hst.
  destruct (assert_layers layers g) as [[ls|e] g1]; simpl in Hst; subst g1; [|done].
  unfold bind, get, assert, lift, modify, throw, ret, alloc. simpl.
  case_bool_decide as Hu; simpl; [|done].
  case_bool_decide as Hv; simpl; [|done].
  destruct (adj_ref g u v) as [l|] eqn:Href.
  - destruct (as_set _); simpl; [|done].
    apply wf_set_heap; [done|]. by eapply wf_heap.
  - simpl. case_decide as Hp; simpl.
    + by apply wf_new_edge.
    + exfalso. apply Hp. by rewrite (wf_dom g Hwf).
Qed.

Lemma wf_add_edges_from ebunch attr_dict attr :
  preserves wf (add_edges_from ebunch attr_dict attr).
Proof.
  unfold add_edges_from. apply preserves_for_each. intros e.
  apply preserves_bind.
  { destruct e; by intros g Hwf. }
  intros [[[u v] key] dd].
  apply preserves_bind; [intros g Hwf; unfold exec, assert; by case_bool_decide|intros _].
  apply preserves_bind; [by intros g Hwf|intros layers].
  apply preserves_bind; [intros g Hwf; unfold exec; by rewrite assert_layers_state|intros ls].
  apply preserves_bind.
  { intros g Hwf. destruct (_ !! "layers") as [al|]; [|done].
    destruct (truthy al); [unfold exec; by rewrite assert_layers_state|done]. }
  intros additional_layers g Hwf.
  unfold exec. unfold bind at 1. unfold get.
  apply (exec_bind wf).
  - case_decide; [|done]. destruct (adj_ref g u v) as [l|] eqn:Href; [|done].
    case_match; [|done]. apply wf_set_heap; [done|]. by eapply wf_heap.
  - intros _. apply preserves_bind; [by intros g' Hwf'|intros existing_layers].
    apply wf_add_edge.
Qed.

Lemma wf_add_precedence_relations : preserves wf add_precedence_relations.
Proof.
  unfold add_precedence_relations.
  apply preserves_bind; [by intros g Hwf|intros g].
  apply preserves_bind; [intros g' Hwf; unfold exec, assert; by case_bool_decide|intros _].
  apply preserves_bind; [by intros g' Hwf|intros t0].
  apply preserves_bind; [apply wf_add_edge|intros _].
  apply preserves_for_each. intros [i token_node_id].
  apply preserves_bind; [by intros g' Hwf|intros ti].
  apply wf_add_edge.
Qed.

Lemma wf_merge_graphs document_graph : preserves wf (merge_graphs document_graph).
Proof.
  unfold merge_graphs.
  apply preserves_bind; [by intros g Hwf|intros self].
  apply preserves_bind; [by intros g Hwf|intros remote_tokens].
  apply preserves_bind; [by intros g Hwf|intros remote2local].
  apply preserves_bind; [apply wf_add_nodes_from|intros _].
  apply wf_add_edges_from.
Qed.

Lemma wf_run_call c : preserves wf (run_call c).
Proof.
  destruct c; simpl.
  - apply wf_add_node.
  - apply wf_add_nodes_from.
  - apply wf_add_edge.
  - apply wf_add_edges_from.
  - apply wf_add_precedence_relations.
  - apply wf_merge_graphs.
Qed.

Lemma wf_empty_graph nm nsp r toks : wf (empty_graph nm nsp r toks).
Proof. by split. Qed.

Lemma wf_run_calls cs g : wf g → wf (run_calls cs g).
Proof.
  revert g. induction cs as [|c cs IH]; intros g Hwf; [done|].
  simpl. apply IH. by apply wf_run_call.
Qed.

(** C10: after any sequence of calls on a new graph, whether they return or
    raise, the successor and the predecessor dictionaries hold the same
    edges: [succ[u][v][k]] is [d] exactly when [pred[v][u][k]] is [d]. *)
Theorem succ_pred_agree nm nsp r toks cs u v k d :
  let g := run_calls cs (empty_graph nm nsp r toks) in
  succ_edge g u v k = Some d ↔ pred_edge g v u k = Some d.
Proof.
  intros g. unfold succ_edge, pred_edge.
  assert (Hwf : wf g) by apply wf_run_calls, wf_empty_graph.
  by rewrite (wf_refs g Hwf).
Qed.

(** ** Precedence relations *)

Lemma all_str_precedence_layers g : is_layer_set (precedence_layers g) = true.
Proof.
  unfold precedence_layers, is_layer_set, all_str. apply bool_decide_eq_true_2.
  intros a Ha. set_unfold. by destruct Ha as [->| ->].
Qed.

Lemma precedence_datadict (attr : attrs) layers ls :
  layers = VSet ls →
  update (update ∅ (update attr {["layers" := layers]}))
         {["layers" := VSet (∅ ∪ ls)]}
  = update attr {["layers" := layers]}.
Proof.
  intros ->. unfold update. rewrite (left_id_L ∅ (∪) ls).
  apply map_eq. intros i. rewrite !lookup_union, lookup_empty.
  destruct (decide (i = "layers")) as [->|Hne].
  - rewrite !lookup_singleton_eq. by destruct (attr !! "layers").
  - rewrite !lookup_singleton_ne by done. by destruct (attr !! i).
Qed.

Lemma add_edge_existing_pair g u v layers attr l :
  adj_ref g u v = Some l → u ∈ dom (succ g) → v ∈ dom (succ g) →
  is_layer_set layers = true →
  add_edge u v layers None None attr g =
  (Ok tt, set_heap <[l := <[AInt (new_key (deref g l)) :=
                             update attr {["layers" := layers]}]> (deref g l)]> g).
Proof.
  intros Href Hu Hv Hls. unfold add_edge. unfold bind at 1.
  destruct (assert_layers_valid _ g Hls) as (ls & -> & ->).
  unfold bind, get, assert, lift, modify, throw, ret. simpl.
  rewrite !bool_decide_eq_true_2 by done. simpl. rewrite Href.
  rewrite new_key_not_used. simpl. unfold get_layers. rewrite lookup_empty. simpl.
  by rewrite precedence_datadict.
Qed.

Lemma add_edge_new_pair g u v layers key attr :
  adj_ref g u v = None → u ∈ dom (succ g) → v ∈ dom (succ g) →
  v ∈ dom (pred g) → is_layer_set layers = true →
  add_edge u v layers key None attr g =
  (Ok tt,
   set_pred (alter <[u := fresh (dom (heap g))]> v)
     (set_succ (alter <[v := fresh (dom (heap g))]> u)
       (set_heap <[fresh (dom (heap g)) :=
                    {[default (AInt 0) key := update attr {["layers" := layers]}]}]> g))).
Proof.
  intros Href Hu Hv Hp Hls. unfold add_edge. unfold bind at 1.
  destruct (assert_layers_valid _ g Hls) as (ls & -> & ->).
  unfold bind, get, assert, lift, modify, throw, ret, alloc. simpl.
  rewrite !bool_decide_eq_true_2 by done. simpl. rewrite Href. simpl.
  rewrite decide_True by done. simpl. unfold update at 1. by rewrite (right_id_L ∅ (∪)).
Qed.

Lemma keydict_of_new_edge g u v kd u' v' :
  wf g → u ∈ dom (succ g) → v ∈ dom (succ g) → adj_ref g u v = None →
  keydict_of
    (set_pred (alter <[u := fresh (dom (heap g))]> v)
      (set_succ (alter <[v := fresh (dom (heap g))]> u)
        (set_heap <[fresh (dom (heap g)) := kd]> g))) u' v'
  = if decide (u = u' ∧ v = v') then kd else keydict_of g u' v'.
Proof.
  intros Hwf Hu Hv Href. unfold keydict_of, adj_ref, deref. simpl.
  rewrite lookup_alter_insert by done.
  assert (heap g !! fresh (dom (heap g)) = None) as Hfresh
    by apply not_elem_of_dom, is_fresh.
  case_decide as Huv.
  - by rewrite lookup_insert_eq.
  - fold (adj_ref g u' v'). destruct (adj_ref g u' v') as [l'|] eqn:Href'; [|done].
    rewrite lookup_insert_ne; [done|]. intros <-.
    destruct (wf_heap g Hwf _ _ _ Href') as [? ?]. congruence.
Qed.

(** The effect of [add_edge(u, v, layers)] without a key on a well-formed
    graph: one more edge between [u] and [v], under a key that was free, and
    nothing else changes. *)
Lemma add_edge_new_key g u v layers attr :
  wf g → u ∈ dom (succ g) → v ∈ dom (succ g) → is_layer_set layers = true →
  ∃ k g',
    add_edge u v layers None None attr g = (Ok tt, g') ∧
    keydict_of g u v !! k = None ∧
    (∀ u' v', keydict_of g' u' v' =
       if decide (u = u' ∧ v = v')
       then <[k := update attr {["layers" := layers]}]> (keydict_of g u v)
       else keydict_of g u' v') ∧
    wf g' ∧ dom (succ g') = dom (succ g) ∧
    tokens g' = tokens g ∧ root g' = root g ∧ ns g' = ns g.
Proof.
  intros Hwf Hu Hv Hls.
  destruct (adj_ref g u v) as [l|] eqn:Href.
  - eexists (AInt (new_key (deref g l))), _.
    split; [by apply add_edge_existing_pair|].
    split; [unfold keydict_of; rewrite Href; apply new_key_not_used|].
    split; [|split; [apply wf_set_heap; [done|by eapply wf_heap]|done]].
    intros u' v'. rewrite keydict_of_set_heap.
    case_decide as Huv.
    + destruct Huv as [<- <-]. rewrite Href. rewrite decide_True by done.
      unfold keydict_of. by rewrite Href.
    + unfold keydict_of. destruct (adj_ref g u' v') as [l'|] eqn:Href'; [|done].
      rewrite decide_False; [done|]. intros <-.
      destruct (wf_inj g Hwf _ _ _ _ _ Href Href'). naive_solver.
  - eexists (AInt 0), _.
    split; [apply add_edge_new_pair; try done; by rewrite (wf_dom g Hwf)|].
    split; [by unfold keydict_of; rewrite Href|].
    split; [|split; [by apply wf_new_edge|]].
    + intros u' v'. rewrite keydict_of_new_edge by done.
      case_decide; [|done]. unfold keydict_of. rewrite Href.
      by rewrite insert_empty.
    + simpl. by rewrite dom_alter_L.
Qed.

Lemma occurrences_cons p q ps :
  occurrences p (q :: ps) = ((if decide (q = p) then 1 else 0) + occurrences p ps)%nat.
Proof. unfold occurrences. rewrite filter_cons. by case_decide. Qed.

Lemma occurrences_pos p ps : p ∈ ps → (0 < occurrences p ps)%nat.
Proof.
  induction 1 as [|q ps Hin IH]; rewrite occurrences_cons.
  - rewrite decide_True by done. lia.
  - lia.
Qed.

(** A run of [add_edge] calls without keys. *)
Lemma add_edges_without_keys layers attr pairs :
  is_layer_set layers = true →
  ∀ g, wf g →
  Forall (λ p, p.1 ∈ dom (succ g) ∧ p.2 ∈ dom (succ g)) pairs →
  ∃ g',
    for_each pairs (λ '(a, b), add_edge a b layers None None attr) g = (Ok tt, g') ∧
    wf g' ∧ dom (succ g') = dom (succ g) ∧
    tokens g' = tokens g ∧ root g' = root g ∧ ns g' = ns g ∧
    (∀ u v, number_of_edges g' u v
            = (number_of_edges g u v + occurrences (u, v) pairs)%nat) ∧
    (∀ u v, keydict_of g u v ⊆ keydict_of g' u v) ∧
    (∀ u v k d, keydict_of g' u v !! k = Some d →
       keydict_of g u v !! k = Some d ∨ d = update attr {["layers" := layers]}).
Proof.
  intros Hls. induction pairs as [|[a b] pairs IH]; intros g Hwf Hall.
  - exists g. do 6 (split; [done|]). split; [|split].
    + intros u v. unfold occurrences. simpl. lia.
    + done.
    + intros. by left.
  - apply Forall_cons in Hall as [[Ha Hb] Hall]. simpl in Ha, Hb.
    destruct (add_edge_new_key g a b layers attr Hwf Ha Hb Hls)
      as (k & g1 & Hadd & Hfree & Hkd & Hwf1 & Hdom1 & Htok1 & Hroot1 & Hns1).
    destruct (IH g1 Hwf1) as (g' & Hrest & Hwf' & Hdom' & Htok' & Hroot' & Hns' & Hnum & Hsub & Hnew).
    { by rewrite Hdom1. }
    exists g'. simpl. unfold bind. rewrite Hadd, Hrest.
    split; [done|]. split; [done|]. split; [congruence|].
    split; [congruence|]. split; [congruence|]. split; [congruence|].
    split; [|split].
    + intros u v. rewrite Hnum, occurrences_cons. unfold number_of_edges.
      rewrite Hkd. case_decide as Huv.
      * destruct Huv as [<- <-]. rewrite decide_True by done.
        rewrite map_size_insert_None by done. lia.
      * rewrite decide_False by naive_solver. lia.
    + intros u v. etrans; [|apply Hsub]. rewrite Hkd. case_decide as Huv; [|done].
      destruct Huv as [<- <-]. by apply insert_subseteq.
    + intros u v k' d Hd. apply Hnew in Hd as [Hd| ->]; [|by right].
      rewrite Hkd in Hd. case_decide as Huv; [|by left].
      destruct Huv as [<- <-]. destruct (decide (k = k')) as [<-|Hne].
      * rewrite lookup_insert_eq in Hd. right. congruence.
      * rewrite lookup_insert_ne in Hd by done. by left.
Qed.

(** The loop over [enumerate(self.tokens[1:])] visits consecutive tokens. *)
Lemma for_each_enumerate_tokens (toks : list atom) (f : atom → atom → M unit) :
  ∀ l pre x g, toks = pre ++ x :: l →
  for_each (imap (λ i t, ((length pre + i)%nat, t)) l)
    (λ '(i, token_node_id),
       do ti <- lift (or_raise IndexError (toks !! i)); f ti token_node_id) g
  = for_each (zip (x :: l) l) (λ '(a, b), f a b) g.
Proof.
  induction l as [|y l IH]; intros pre x g Htoks; [done|].
  rewrite imap_cons.
  change (zip (x :: y :: l) (y :: l)) with ((x, y) :: zip (y :: l) l).
  rewrite !for_each_cons. apply bind_ext.
  - unfold bind, lift. rewrite Htoks at 1. rewrite Nat.add_0_r.
    rewrite lookup_app_r by lia. by rewrite Nat.sub_diag.
  - intros _ g1. rewrite <- (IH (pre ++ [x]) y g1).
    + f_equal. apply imap_ext. intros i t _. simpl. rewrite length_app. simpl.
      f_equal. lia.
    + by rewrite <- app_assoc.
Qed.

Lemma add_precedence_relations_pairs g :
  (1 < length (tokens g))%nat →
  add_precedence_relations g =
  for_each (precedence_pairs g)
    (λ '(a, b), add_edge a b (precedence_layers g) None None
                  {["edge_type" := VEnum precedence_relation]}) g.
Proof.
  intros Hlen. unfold add_precedence_relations, precedence_pairs.
  unfold bind at 1. unfold get. unfold bind at 1. unfold assert.
  rewrite bool_decide_eq_true_2 by done. unfold ret.
  destruct (tokens g) as [|t0 rest] eqn:Htok; [simpl in Hlen; lia|].
  unfold bind at 1. unfold lift. cbn [lookup list_lookup or_raise].
  change (zip (t0 :: rest) rest) with (zip (t0 :: rest) rest).
  rewrite for_each_cons. apply bind_ext; [done|]. intros _ g1.
  apply (for_each_enumerate_tokens (t0 :: rest) _ rest [] t0 g1). done.
Qed.

Lemma precedence_attrs_update g :
  update {["edge_type" := VEnum precedence_relation]}
         {["layers" := precedence_layers g]} = precedence_attrs g.
Proof. unfold update, precedence_attrs. by rewrite <- insert_union_singleton_l. Qed.

Lemma precedence_pairs_nodes g :
  root g ∈ dom (succ g) → Forall (λ t, t ∈ dom (succ g)) (tokens g) →
  Forall (λ p, p.1 ∈ dom (succ g) ∧ p.2 ∈ dom (succ g)) (precedence_pairs g).
Proof.
  intros Hroot Htok. unfold precedence_pairs.
  destruct (tokens g) as [|t0 rest] eqn:Heq; [done|].
  apply Forall_cons. split.
  - split; [done|]. by apply Forall_cons in Htok as [? _].
  - apply Forall_forall. intros [a b] Hin. simpl.
    rewrite Forall_forall in Htok. split; apply Htok.
    + by eapply elem_of_zip_l.
    + apply elem_of_zip_r in Hin. by apply elem_of_cons; right.
Qed.

(** One call of [add_precedence_relations] on a well-formed graph. *)
Lemma add_precedence_relations_once g :
  wf g → root g ∈ dom (succ g) → Forall (λ t, t ∈ dom (succ g)) (tokens g) →
  (1 < length (tokens g))%nat →
  ∃ g',
    add_precedence_relations g = (Ok tt, g') ∧
    wf g' ∧ dom (succ g') = dom (succ g) ∧
    tokens g' = tokens g ∧ root g' = root g ∧ ns g' = ns g ∧
    (∀ u v, number_of_edges g' u v
            = (number_of_edges g u v + occurrences (u, v) (precedence_pairs g))%nat) ∧
    (∀ u v, keydict_of g u v ⊆ keydict_of g' u v) ∧
    (∀ u v k d, keydict_of g' u v !! k = Some d →
       keydict_of g u v !! k = Some d ∨ d = precedence_attrs g).
Proof.
  intros Hwf Hroot Htok Hlen. rewrite add_precedence_relations_pairs by done.
  rewrite <- precedence_attrs_update.
  apply add_edges_without_keys; [apply all_str_precedence_layers|done|].
  by apply precedence_pairs_nodes.
Qed.

(** C4, amended: on a graph built by the methods, whose root and at least
    two tokens are nodes, every call of [add_precedence_relations] returns
    and adds one more parallel edge, under a key of its own, from the root
    to the first token and from each token to the next.  After the second
    call each of these pairs carries one edge more than after the first; the
    edges of the first call are all kept, and every edge that is new carries
    the precedence layers and edge type. *)
Theorem precedence_relations_add_up nm nsp r toks cs :
  let g := run_calls cs (empty_graph nm nsp r toks) in
  root g ∈ dom (succ g) →
  Forall (λ t, t ∈ dom (succ g)) (tokens g) →
  (1 < length (tokens g))%nat →
  ∃ g1 g2,
    add_precedence_relations g = (Ok tt, g1) ∧
    add_precedence_relations g1 = (Ok tt, g2) ∧
    (∀ u v, number_of_edges g2 u v
            = (number_of_edges g1 u v + occurrences (u, v) (precedence_pairs g))%nat) ∧
    (∀ u v, (u, v) ∈ precedence_pairs g →
            (number_of_edges g1 u v < number_of_edges g2 u v)%nat) ∧
    (∀ u v, keydict_of g1 u v ⊆ keydict_of g2 u v) ∧
    (∀ u v k d, keydict_of g2 u v !! k = Some d →
       keydict_of g1 u v !! k = Some d ∨ d = precedence_attrs g).
Proof.
  intros g Hroot Htok Hlen.
  assert (Hwf : wf g) by apply wf_run_calls, wf_empty_graph.
  destruct (add_precedence_relations_once g Hwf Hroot Htok Hlen)
    as (g1 & Hrun1 & Hwf1 & Hdom1 & Htok1 & Hroot1 & Hns1 & _).
  destruct (add_precedence_relations_once g1 Hwf1)
    as (g2 & Hrun2 & _ & _ & _ & _ & _ & Hnum & Hsub & Hnew).
  { by rewrite Hroot1, Hdom1. }
  { by rewrite Htok1, Hdom1. }
  { by rewrite Htok1. }
  assert (Hpairs : precedence_pairs g1 = precedence_pairs g).
  { unfold precedence_pairs. by rewrite Htok1, Hroot1. }
  assert (Hattrs : precedence_attrs g1 = precedence_attrs g).
  { unfold precedence_attrs, precedence_layers. by rewrite Hns1. }
  rewrite Hpairs in Hnum. rewrite Hattrs in Hnew.
  exists g1, g2. repeat (split; [done|]). split; [|done].
  intros u v Hin. rewrite Hnum. apply occurrences_pos in Hin. lia.
Qed.

Lemma precedence_relations_add_up_witness :
  let g := run_calls [AddNodesFrom [Examples.plain "root"; Examples.token "t1" "a";
                                    Examples.token "t2" "b"] ∅]
             (empty_graph "doc" "ex" (AStr "root") [AStr "t1"; AStr "t2"]) in
  (root g ∈ dom (succ g) ∧ Forall (λ t, t ∈ dom (succ g)) (tokens g) ∧
   (1 < length (tokens g))%nat) ∧
  ∃ g1 g2,
    add_precedence_relations g = (Ok tt, g1) ∧
    add_precedence_relations g1 = (Ok tt, g2) ∧
    (∀ u v, number_of_edges g2 u v
            = (number_of_edges g1 u v + occurrences (u, v) (precedence_pairs g))%nat) ∧
    (∀ u v, (u, v) ∈ precedence_pairs g →
            (number_of_edges g1 u v < number_of_edges g2 u v)%nat) ∧
    (∀ u v, keydict_of g1 u v ⊆ keydict_of g2 u v) ∧
    (∀ u v k d, keydict_of g2 u v !! k = Some d →
       keydict_of g1 u v !! k = Some d ∨ d = precedence_attrs g).
Proof.
  intros g.
  assert (H : root g ∈ dom (succ g) ∧ Forall (λ t, t ∈ dom (succ g)) (tokens g) ∧
              (1 < length (tokens g))%nat) by (subst g; compute_done).
  split; [exact H|].
  destruct H as (H1 & H2 & H3).
  exact (precedence_relations_add_up "doc" "ex" (AStr "root") [AStr "t1"; AStr "t2"]
           _ H1 H2 H3).
Defined.

(** C4 as stated fails: the second call adds a second edge, under the key 1,
    between the root and the first token and between the two tokens. *)
Lemma precedence_twice_duplicates :
  let once := exec add_precedence_relations Examples.root_t1_t2 in
  let twice := exec add_precedence_relations once in
  outcome add_precedence_relations Examples.root_t1_t2 = Ok tt ∧
  outcome add_precedence_relations once = Ok tt ∧
  dom (keydict_of once (AStr "root") (AStr "t1")) = {[AInt 0]} ∧
  dom (keydict_of twice (AStr "root") (AStr "t1")) = {[AInt 0; AInt 1]} ∧
  dom (keydict_of once (AStr "t1") (AStr "t2")) = {[AInt 0]} ∧
  dom (keydict_of twice (AStr "t1") (AStr "t2")) = {[AInt 0; AInt 1]} ∧
  length (edges once) = 2%nat ∧
  length (edges twice) = 4%nat ∧
  edges twice ≠ edges once.
Proof. cbv zeta. compute_done. Qed.

(** ** Merging *)

(** A failure of the token alignment leaves [self] as it was: nothing has
    been written yet. *)
Lemma merge_alignment_failure self other remote_tokens e :
  get_tokens other "token" = Ok remote_tokens →
  align_tokens self (if decide (ns self = "tiger") then "word" else "token")
    remote_tokens 0 (tokens self) ∅ = Raise e →
  merge_graphs other self = (Raise e, self).
Proof.
  intros Hremote Halign. unfold merge_graphs, bind, get, lift.
  by rewrite Hremote, Halign.
Qed.

(** A token text that differs at a position both graphs have raises the
    mismatch error. *)
Lemma align_tokens_mismatch self attrib remote_tokens local_ids :
  ∀ i r2l pre id rest local_tok remote_id remote_tok,
  local_ids = pre ++ id :: rest →
  (∃ m, align_tokens self attrib remote_tokens i pre r2l = Ok m) →
  get_token self attrib id = Ok (id, local_tok) →
  remote_tokens !! (i + length pre)%nat = Some (remote_id, remote_tok) →
  local_tok ≠ remote_tok →
  align_tokens self attrib remote_tokens i local_ids r2l = Raise ValueError.
Proof.
  intros i r2l pre. revert i r2l local_ids.
  induction pre as [|p pre IH]; intros i r2l local_ids id rest lt rid rt -> Hpre Hloc Hrem Hne.
  - simpl. rewrite Hloc. simpl. rewrite Nat.add_0_r in Hrem. rewrite Hrem. simpl.
    by destruct (decide (lt ≠ rt)).
  - destruct Hpre as [m Hpre]. simpl in *.
    destruct (get_token self attrib p) as [[? ptok]|]; simpl in *; [|done].
    destruct (remote_tokens !! i) as [[prid prtok]|]; simpl in *; [|done].
    destruct (decide (ptok ≠ prtok)); [done|].
    eapply IH; eauto.
    by replace (S i + length pre)%nat with (i + S (length pre))%nat by lia.
Qed.

(** A token text that differs at a position both graphs have makes the
    merge raise the mismatch error, and [self] is left as it was. *)
Lemma merge_text_mismatch self other remote_tokens pre id rest
    local_tok remote_id remote_tok :
  let attrib := if decide (ns self = "tiger") then "word" else "token" in
  get_tokens other "token" = Ok remote_tokens →
  tokens self = pre ++ id :: rest →
  (∃ m, align_tokens self attrib remote_tokens 0 pre ∅ = Ok m) →
  get_token self attrib id = Ok (id, local_tok) →
  remote_tokens !! length pre = Some (remote_id, remote_tok) →
  local_tok ≠ remote_tok →
  merge_graphs other self = (Raise ValueError, self).
Proof.
  intros attrib Hremote Htok Hpre Hloc Hrem Hne.
  apply (merge_alignment_failure self other remote_tokens ValueError Hremote).
  by eapply align_tokens_mismatch.
Qed.

(** C2: when the other graph has the tokens of [self] and one more, the
    merge goes through and writes the extra token into [self]; when it has
    fewer, indexing its token list fails. *)
Theorem merge_ignores_surplus_tokens :
  length (tokens Examples.merge_self) ≠ length (tokens Examples.merge_other) ∧
  outcome (merge_graphs Examples.merge_other) Examples.merge_self = Ok tt ∧
  dom (node Examples.merge_self) = {[AStr "t1"]} ∧
  dom (node (exec (merge_graphs Examples.merge_other) Examples.merge_self))
    = {[AStr "t1"; AStr "r2"]} ∧
  merge_graphs Examples.merge_self Examples.merge_other
    = (Raise IndexError, Examples.merge_other).
Proof. compute_done. Qed.

(** ** Spans *)

Lemma chunk_compare_antisym x y : chunk_compare y x = CompOpp (chunk_compare x y).
Proof.
  destruct x, y; simpl; try done.
  - apply N.compare_antisym.
  - apply String.compare_antisym.
Qed.

Lemma key_compare_antisym k1 : ∀ k2, key_compare k2 k1 = CompOpp (key_compare k1 k2).
Proof.
  induction k1 as [|x k1 IH]; intros [|y k2]; simpl; try done.
  rewrite (chunk_compare_antisym x y).
  destruct (chunk_compare x y); simpl; [apply IH|done..].
Qed.

Lemma key_le_total k1 k2 : key_le k1 k2 = false → key_le k2 k1 = true.
Proof.
  unfold key_le. rewrite (key_compare_antisym k1 k2).
  by destruct (key_compare k1 k2).
Qed.

Lemma insert_by_key_Permutation x l : insert_by_key x l ≡ₚ x :: l.
Proof.
  induction l as [|y l IH]; simpl; [done|].
  destruct (key_le y.1 x.1); [|done]. rewrite IH. apply perm_swap.
Qed.

Lemma sort_by_key_acc l : ∀ acc,
  foldl (λ acc x, insert_by_key x acc) acc l ≡ₚ acc ++ l.
Proof.
  induction l as [|x l IH]; intros acc; simpl.
  - by rewrite app_nil_r.
  - rewrite IH, insert_by_key_Permutation. simpl. apply Permutation_middle.
Qed.

Lemma sort_by_key_Permutation l : sort_by_key l ≡ₚ l.
Proof. apply (sort_by_key_acc l []). Qed.

Lemma insert_by_key_sorted x l :
  Sorted (λ p q, key_le p.1 q.1 = true) l →
  Sorted (λ p q, key_le p.1 q.1 = true) (insert_by_key x l).
Proof.
  induction 1 as [|y l Hl IH Hy]; simpl.
  - by repeat constructor.
  - destruct (key_le y.1 x.1) eqn:Hle.
    + constructor; [done|]. destruct l as [|z l]; simpl.
      * by constructor.
      * inversion Hy; subst. destruct (key_le z.1 x.1); by constructor.
    + constructor; [by constructor|]. constructor. by apply key_le_total.
Qed.

Lemma sort_by_key_sorted_acc l : ∀ acc,
  Sorted (λ p q, key_le p.1 q.1 = true) acc →
  Sorted (λ p q, key_le p.1 q.1 = true) (foldl (λ acc x, insert_by_key x acc) acc l).
Proof.
  induction l as [|x l IH]; intros acc Hacc; simpl; [done|].
  by apply IH, insert_by_key_sorted.
Qed.

Lemma sort_by_key_sorted l :
  Sorted (λ p q, key_le p.1 q.1 = true) (sort_by_key l).
Proof. apply sort_by_key_sorted_acc. constructor. Qed.

(** What [sorted(span, key=natural_sort_key)] returns: the ids of the span,
    in ascending order of their keys. *)
Lemma sorted_spec span res :
  sorted span = Ok res →
  res ≡ₚ span ∧
  ∃ keyed, res = keyed.*2 ∧
           Forall (λ p, natural_sort_key p.2 = Ok p.1) keyed ∧
           Sorted (λ p q, key_le p.1 q.1 = true) keyed.
Proof.
  unfold sorted.
  destruct (mapM_result _ span) as [keyed|e] eqn:Hkeyed; simpl; [|done].
  intros [= <-]. apply mapM_result_Ok in Hkeyed.
  assert (keyed.*2 = span ∧ Forall (λ p, natural_sort_key p.2 = Ok p.1) keyed)
    as [Hsnd Hkeys].
  { induction Hkeyed as [|x [k y] span keyed Hx _ [IH1 IH2]]; [done|].
    destruct (natural_sort_key x) as [k'|] eqn:Hk; simpl in Hx; [|done].
    injection Hx as <- <-. simpl. split; [by f_equal|]. by constructor. }
  split.
  - rewrite <- Hsnd. by rewrite sort_by_key_Permutation.
  - exists (sort_by_key keyed). split; [done|]. split; [|apply sort_by_key_sorted].
    by rewrite sort_by_key_Permutation.
Qed.

(** The order is numeric-aware: [t2] comes before [t10]. *)
Lemma natural_order_example :
  sorted [AStr "t1"; AStr "t10"; AStr "t2"] = Ok [AStr "t1"; AStr "t2"; AStr "t10"].
Proof. compute_done. Qed.

Lemma sorted_span_tree :
  get_span 2 Examples.span_tree (AStr "n") = Ok [AStr "t1"; AStr "t2"; AStr "t10"].
Proof. compute_done. Qed.

Lemma get_span_body_node_loop rec :
  rec (AStr "n") = Raise RecursionError →
  get_span_body rec Examples.node_loop (AStr "n") = Raise RecursionError.
Proof.
  intros Hrec. vm_compute. by rewrite Hrec.
Qed.

(** C5: a self-loop is not skipped.  The span of a token with a dominance
    edge to itself holds that token (no token is reachable from it past the
    self-loop), and the span of a node that dominates itself and a token is
    never returned, whatever the recursion limit. *)
Theorem get_span_follows_self_loops :
  (∀ depth, get_span (S depth) Examples.token_loop (AStr "t1") = Ok [AStr "t1"]) ∧
  (∀ depth, get_span depth Examples.node_loop (AStr "n") = Raise RecursionError).
Proof.
  split.
  - intros depth. apply (bool_decide_unpack _). vm_compute. exact I.
  - induction depth as [|depth IH]; [reflexivity|].
    simpl. by apply get_span_body_node_loop.
Qed.

(** ** Pointing chains *)

(** The chain lists at the other positions. *)
Lemma elem_of_others {A} (l : list A) i x :
  x ∈ take i l ++ drop (S i) l ↔ ∃ j, j ≠ i ∧ l !! j = Some x.
Proof.
  rewrite elem_of_app, elem_of_take, list_elem_of_lookup. split.
  - intros [(j & Hj & Hlt)|(j & Hj)].
    + exists j. split; [lia|done].
    + rewrite lookup_drop in Hj. exists (S i + j)%nat. split; [lia|done].
  - intros (j & Hne & Hj). destruct (decide (j < i)%nat).
    + left. eauto.
    + right. exists (j - S i)%nat. rewrite lookup_drop. rewrite <- Hj. f_equal. lia.
Qed.

Lemma existsb_occurs_elsewhere all_chains i from_id :
  existsb (λ chain, bool_decide (from_id ∈ chain))
          (concat (take i all_chains ++ drop (S i) all_chains)) = true
  ↔ occurs_elsewhere all_chains i from_id.
Proof.
  rewrite existsb_exists. unfold occurs_elsewhere. split.
  - intros (chain & Hin & Hfrom). apply in_concat in Hin as (chains & Hchains & Hin).
    apply list_elem_of_In, elem_of_others in Hchains as (j & Hne & Hj).
    exists j, chains, chain. repeat split; try done.
    + by apply list_elem_of_In.
    + by apply bool_decide_eq_true in Hfrom.
  - intros (j & chains & chain & Hne & Hj & Hin & Hfrom).
    exists chain. split; [|by apply bool_decide_eq_true].
    apply in_concat. exists chains. split; apply list_elem_of_In; [|done].
    apply elem_of_others. eauto.
Qed.

Lemma unique_step_head all_chains unique i chains from_id :
  chains !! 0%nat ≫= (.!! 0%nat) = Some from_id →
  unique_step all_chains unique (i, chains) =
  if existsb (λ chain, bool_decide (from_id ∈ chain))
             (concat (take i all_chains ++ drop (S i) all_chains))
  then Ok unique else Ok (unique ++ chains).
Proof. intros Hhead. unfold unique_step. by rewrite Hhead. Qed.

Lemma unique_chains_acc all_chains : ∀ rest pre unique res,
  all_chains = pre ++ rest →
  foldM (unique_step all_chains) unique
        (imap (λ i c, ((length pre + i)%nat, c)) rest) = Ok res →
  ∀ chain, chain ∈ res ↔
    chain ∈ unique ∨
    ∃ i chains from_id,
      (length pre ≤ i)%nat ∧ all_chains !! i = Some chains ∧ chain ∈ chains ∧
      chains !! 0%nat ≫= (.!! 0%nat) = Some from_id ∧
      ¬ occurs_elsewhere all_chains i from_id.
Proof.
  induction rest as [|chains rest IH]; intros pre unique res Hall Hrun chain.
  - simpl in Hrun. injection Hrun as <-. split; [by left|].
    intros [?|(i & cs & from_id & Hi & Hlook & _)]; [done|].
    apply lookup_lt_Some in Hlook. rewrite Hall, app_nil_r in Hlook. lia.
  - rewrite imap_cons in Hrun. simpl in Hrun. rewrite Nat.add_0_r in Hrun.
    destruct (chains !! 0%nat ≫= (.!! 0%nat)) as [from_id|] eqn:Hhead;
      simpl in Hrun; [|done].
    assert (Hlook : all_chains !! length pre = Some chains).
    { rewrite Hall. rewrite lookup_app_r by lia. by rewrite Nat.sub_diag. }
    assert (Hrest : ∀ unique',
      foldM (unique_step all_chains) unique'
            (imap ((λ i c, ((length pre + i)%nat, c)) ∘ S) rest) = Ok res →
      ∀ chain, chain ∈ res ↔ chain ∈ unique' ∨
        ∃ i chains from_id,
          (S (length pre) ≤ i)%nat ∧ all_chains !! i = Some chains ∧ chain ∈ chains ∧
          chains !! 0%nat ≫= (.!! 0%nat) = Some from_id ∧
          ¬ occurs_elsewhere all_chains i from_id).
    { intros unique' Hrun' chain'.
      rewrite (IH (pre ++ [chains]) unique' res).
      - rewrite length_app. simpl. by rewrite Nat.add_1_r.
      - by rewrite <- app_assoc.
      - rewrite <- Hrun'. f_equal. apply imap_ext. intros j c _. simpl.
        rewrite length_app. simpl. f_equal. lia. }
    destruct (existsb _ _) eqn:Hex.
    + apply existsb_occurs_elsewhere in Hex.
      rewrite (Hrest unique Hrun chain). split.
      * intros [?|(i & cs & f & Hi & ?)]; [by left|right].
        exists i, cs, f. split; [lia|done].
      * intros [?|(i & cs & f & Hi & Hl & Hin & Hh & Hno)]; [by left|right].
        destruct (decide (i = length pre)) as [->|Hne].
        -- rewrite Hlook in Hl. injection Hl as <-. rewrite Hhead in Hh.
           injection Hh as <-. done.
        -- exists i, cs, f. split; [lia|done].
    + assert (¬ occurs_elsewhere all_chains (length pre) from_id) as Hno.
      { intros Hocc%existsb_occurs_elsewhere. congruence. }
      rewrite (Hrest _ Hrun chain). rewrite elem_of_app. split.
      * intros [[?|Hin]|(i & cs & f & Hi & ?)]; [by left|right|right].
        -- exists (length pre), chains, from_id. split; [lia|done].
        -- exists i, cs, f. split; [lia|done].
      * intros [?|(i & cs & f & Hi & Hl & Hin & Hh & Hno')]; [by left; left|].
        destruct (decide (i = length pre)) as [->|Hne].
        -- rewrite Hlook in Hl. injection Hl as <-. by left; right.
        -- right. exists i, cs, f. split; [lia|done].
Qed.

Lemma unique_chains_spec all_chains res :
  unique_chains all_chains = Ok res →
  ∀ chain, chain ∈ res ↔
    ∃ i chains from_id,
      all_chains !! i = Some chains ∧ chain ∈ chains ∧
      chains !! 0%nat ≫= (.!! 0%nat) = Some from_id ∧
      ¬ occurs_elsewhere all_chains i from_id.
Proof.
  intros Hrun chain.
  rewrite (unique_chains_acc all_chains all_chains [] [] res eq_refl Hrun chain).
  split.
  - intros [Hin|(i & cs & f & _ & ?)]; [by apply elem_of_nil in Hin|eauto].
  - intros (i & cs & f & ?). right. exists i, cs, f. split; [simpl; lia|done].
Qed.

Lemma unique_steps_total all_chains entries : ∀ unique,
  Forall (λ e, is_Some (e.2 !! 0%nat ≫= (.!! 0%nat))) entries →
  ∃ kept, foldM (unique_step all_chains) unique entries = Ok (unique ++ kept) ∧
          kept `sublist_of` concat entries.*2.
Proof.
  induction entries as [|[i chains] entries IH]; intros unique Hall.
  - exists []. by rewrite app_nil_r.
  - apply Forall_cons in Hall as [[from_id Hhead] Hall]. simpl in Hhead.
    rewrite foldM_cons, (unique_step_head _ _ _ _ _ Hhead).
    destruct (existsb _ _); simpl.
    + destruct (IH unique Hall) as (kept & Hrun & Hsub). exists kept.
      split; [done|]. by apply sublist_inserts_l.
    + destruct (IH (unique ++ chains) Hall) as (kept & Hrun & Hsub).
      exists (chains ++ kept). split; [by rewrite app_assoc|].
      by apply sublist_app.
Qed.

Lemma snd_imap_pair {A} (l : list A) : ∀ f : nat → nat,
  (imap (λ i c, (f i, c)) l).*2 = l.
Proof.
  induction l as [|x l IH]; intros f; [done|].
  rewrite imap_cons. simpl. f_equal. apply (IH (f ∘ S)).
Qed.

Lemma unique_chains_total all_chains :
  Forall (λ chains, is_Some (chains !! 0%nat ≫= (.!! 0%nat))) all_chains →
  ∃ res, unique_chains all_chains = Ok res ∧ res `sublist_of` concat all_chains.
Proof.
  intros Hall. unfold unique_chains.
  pose proof (snd_imap_pair all_chains (λ i, i)) as Hsnd.
  destruct (unique_steps_total all_chains (imap (λ i c, (i, c)) all_chains) [])
    as (kept & Hrun & Hsub).
  - apply Forall_forall. intros [i chains] Hin. simpl.
    rewrite Forall_forall in Hall. apply Hall.
    rewrite <- Hsnd. apply list_elem_of_fmap. by exists (i, chains).
  - exists kept. split; [done|]. by rewrite Hsnd in Hsub.
Qed.

Lemma concat_Permutation {A} (l l' : list (list A)) :
  l ≡ₚ l' → concat l ≡ₚ concat l'.
Proof.
  induction 1 as [|x l l' _ IH|x y l|l l' l'' _ IH _ IH']; simpl.
  - done.
  - by rewrite IH.
  - rewrite !app_assoc. f_equiv. apply Permutation_app_comm.
  - by etrans.
Qed.

(** *** Walking a chain *)

Lemma walk_chain_unfold depth rel_dict from_id :
  walk_chain (S depth) rel_dict from_id =
  foldM (walk_step (walk_chain depth rel_dict) rel_dict from_id) []
        (elements (targets rel_dict from_id)).
Proof. reflexivity. Qed.

Lemma walk_step_end rec rel_dict from_id paths to_id :
  to_id ∉ dom rel_dict →
  walk_step rec rel_dict from_id paths to_id = Ok (paths ++ [[from_id; to_id]]).
Proof. intros Hdom. unfold walk_step. by rewrite decide_False. Qed.

Lemma walk_step_on rec rel_dict from_id paths to_id tails :
  to_id ∈ dom rel_dict → rec to_id = Ok tails →
  walk_step rec rel_dict from_id paths to_id = Ok (paths ++ ((from_id ::.) <$> tails)).
Proof. intros Hdom Hrec. unfold walk_step. by rewrite decide_True, Hrec. Qed.

Lemma walk_steps_spec rec rel_dict from_id : ∀ tos paths res,
  foldM (walk_step rec rel_dict from_id) paths tos = Ok res →
  (∀ to_id, to_id ∈ tos → to_id ∈ dom rel_dict → ∃ tails, rec to_id = Ok tails) ∧
  ∀ chain, chain ∈ res ↔
    chain ∈ paths ∨
    ∃ to_id, to_id ∈ tos ∧
      (((to_id ∉ dom rel_dict) ∧ chain = [from_id; to_id]) ∨
       (to_id ∈ dom rel_dict ∧
        ∃ tails tail, rec to_id = Ok tails ∧ tail ∈ tails ∧ chain = from_id :: tail)).
Proof.
  induction tos as [|to_id tos IH]; intros paths res Hrun.
  - simpl in Hrun. injection Hrun as <-. split.
    + intros ? Hin. by apply elem_of_nil in Hin.
    + intros chain. split; [by left|]. intros [?|(? & Hin & _)]; [done|].
      by apply elem_of_nil in Hin.
  - simpl in Hrun. unfold walk_step at 2 in Hrun.
    destruct (decide (to_id ∈ dom rel_dict)) as [Hdom|Hdom].
    + destruct (rec to_id) as [tails|e] eqn:Hrec; simpl in Hrun; [|done].
      destruct (IH _ _ Hrun) as [Hok Hmem]. split.
      * intros t [->|Hin]%elem_of_cons Ht; [eauto|by apply Hok].
      * intros chain. rewrite Hmem, elem_of_app, list_elem_of_fmap. split.
        -- intros [[?|(tail & -> & Htail)]|(t & Hin & Hcase)].
           ++ by left.
           ++ right. exists to_id. split; [by left|]. right. split; [done|].
              by exists tails, tail.
           ++ right. exists t. split; [by right|done].
        -- intros [?|(t & [->|Hin]%elem_of_cons & Hcase)].
           ++ by left; left.
           ++ destruct Hcase as [[? _]|(_ & tails' & tail & Hrec' & Htail & ->)]; [done|].
              left. right. exists tail. split; [done|]. congruence.
           ++ right. by exists t.
    + destruct (IH _ _ Hrun) as [Hok Hmem]. split.
      * intros t [->|Hin]%elem_of_cons Ht; [done|by apply Hok].
      * intros chain. rewrite Hmem, elem_of_app, list_elem_of_singleton. split.
        -- intros [[?| ->]|(t & Hin & Hcase)].
           ++ by left.
           ++ right. exists to_id. split; [by left|]. by left.
           ++ right. exists t. split; [by right|done].
        -- intros [?|(t & [->|Hin]%elem_of_cons & Hcase)].
           ++ by left; left.
           ++ destruct Hcase as [[_ ->]|[? _]]; [|done]. by left; right.
           ++ right. by exists t.
Qed.

(** What [__walk_chain] returns: for each target, the chain that stops
    there if it points nowhere, and otherwise the chains that go on from
    it. *)
Lemma walk_chain_spec depth rel_dict from_id chains :
  walk_chain (S depth) rel_dict from_id = Ok chains →
  (∀ to_id, to_id ∈ targets rel_dict from_id → to_id ∈ dom rel_dict →
     ∃ tails, walk_chain depth rel_dict to_id = Ok tails) ∧
  ∀ chain, chain ∈ chains ↔
    ∃ to_id, to_id ∈ targets rel_dict from_id ∧
      (((to_id ∉ dom rel_dict) ∧ chain = [from_id; to_id]) ∨
       (to_id ∈ dom rel_dict ∧
        ∃ tails tail, walk_chain depth rel_dict to_id = Ok tails ∧
                      tail ∈ tails ∧ chain = from_id :: tail)).
Proof.
  rewrite walk_chain_unfold. intros [Hok Hmem]%walk_steps_spec. split.
  - intros to_id Hin. apply Hok. by apply elem_of_elements.
  - intros chain. rewrite Hmem. split.
    + intros [Hin|(t & Hin & ?)]; [by apply elem_of_nil in Hin|].
      exists t. split; [by apply elem_of_elements|done].
    + intros (t & Hin & ?). right. exists t. split; [by apply elem_of_elements|done].
Qed.

(** Every chain follows pointing relations from [from_id] to a node that
    points nowhere. *)
Lemma walk_chain_path depth rel_dict : ∀ from_id chains chain,
  walk_chain depth rel_dict from_id = Ok chains → chain ∈ chains →
  pointing_path rel_dict chain ∧ ∃ rest, chain = from_id :: rest.
Proof.
  induction depth as [|depth IH]; intros from_id chains chain Hrun Hin; [done|].
  apply walk_chain_spec in Hrun as [_ Hmem]. apply Hmem in Hin as (t & Ht & Hcase).
  destruct Hcase as [[Hdom ->]|(Hdom & tails & tail & Hrec & Htail & ->)].
  - split; [by constructor|eauto].
  - destruct (IH _ _ _ Hrec Htail) as [Hpath [rest ->]]. split; [|eauto].
    by constructor.
Qed.

(** A node that points to itself is never walked to the end. *)
Lemma walk_chain_no_self_loop depth rel_dict : ∀ from_id chains,
  walk_chain depth rel_dict from_id = Ok chains →
  from_id ∈ dom rel_dict → from_id ∉ targets rel_dict from_id.
Proof.
  induction depth as [|depth IH]; intros from_id chains Hrun Hdom Hself; [done|].
  apply walk_chain_spec in Hrun as [Hok _].
  destruct (Hok from_id Hself Hdom) as [tails Htails].
  by apply (IH from_id tails).
Qed.

Lemma walk_chain_deeper depth rel_dict : ∀ from_id chains,
  walk_chain depth rel_dict from_id = Ok chains →
  walk_chain (S depth) rel_dict from_id = Ok chains.
Proof.
  induction depth as [|depth IH]; intros from_id chains Hrun; [done|].
  rewrite walk_chain_unfold in *. revert Hrun. apply foldM_ext_Ok.
  intros paths to_id r _. unfold walk_step. case_decide; [|done].
  destruct (walk_chain depth rel_dict to_id) as [tails|e] eqn:Hrec; [|done].
  by rewrite (IH _ _ Hrec).
Qed.

Lemma walk_chain_head depth rel_dict from_id chains :
  walk_chain depth rel_dict from_id = Ok chains → chains ≠ [] →
  chains !! 0%nat ≫= (.!! 0%nat) = Some from_id.
Proof.
  intros Hrun Hne. destruct chains as [|chain chains]; [done|].
  destruct (walk_chain_path _ _ _ _ chain Hrun) as [_ [rest ->]]; [by left|done].
Qed.

(** *** The chains of a relation dictionary *)

(** The discard rule, by starting id. *)
Lemma chains_of_rel_dict_spec depth rel_dict res :
  chains_of_rel_dict depth rel_dict = Ok res →
  (∀ from_id, from_id ∈ dom rel_dict →
     ∃ chains, walk_chain depth rel_dict from_id = Ok chains) ∧
  ∀ chain, chain ∈ res ↔
    ∃ from_id chains,
      from_id ∈ dom rel_dict ∧
      walk_chain depth rel_dict from_id = Ok chains ∧ chain ∈ chains ∧
      ¬ ∃ other chains' chain',
          other ∈ dom rel_dict ∧ other ≠ from_id ∧
          walk_chain depth rel_dict other = Ok chains' ∧
          chain' ∈ chains' ∧ from_id ∈ chain'.
Proof.
  unfold chains_of_rel_dict.
  destruct (mapM_result _ _) as [all_chains|e] eqn:Hall; simpl; [|done].
  apply mapM_result_Ok in Hall. intros Hrun.
  pose proof (NoDup_fst_map_to_list rel_dict) as Hnodup.
  assert (Hkeys : ∀ k, k ∈ (map_to_list rel_dict).*1 ↔ k ∈ dom rel_dict).
  { intros k. rewrite elem_of_dom, list_elem_of_fmap. split.
    - intros ([k' s] & -> & Hin). apply elem_of_map_to_list in Hin. eauto.
    - intros [s Hs]. exists (k, s). split; [done|]. by apply elem_of_map_to_list. }
  split.
  - intros from_id [i Hi]%Hkeys%list_elem_of_lookup.
    destruct (Forall2_lookup_l _ _ _ _ _ Hall Hi) as (chains & _ & ?). eauto.
  - intros chain. rewrite (unique_chains_spec _ _ Hrun chain). split.
    + intros (i & chains & from_id & Hi & Hin & Hhead & Hno).
      destruct (Forall2_lookup_r _ _ _ _ _ Hall Hi) as (k & Hk & Hwalk).
      assert (from_id = k) as ->.
      { rewrite (walk_chain_head _ _ _ _ Hwalk) in Hhead; [congruence|].
        intros ->. by apply elem_of_nil in Hin. }
      exists k, chains. split; [apply Hkeys; by eapply list_elem_of_lookup_2|].
      split; [done|]. split; [done|].
      intros (other & chains' & chain' & Hother & Hne & Hwalk' & Hin' & Hfrom).
      apply Hkeys, list_elem_of_lookup in Hother as [j Hj].
      destruct (Forall2_lookup_l _ _ _ _ _ Hall Hj) as (cs & Hcs & Hwalk'').
      apply Hno. exists j, chains', chain'. split; [|split; [congruence|done]].
      intros ->. congruence.
    + intros (from_id & chains & Hdom & Hwalk & Hin & Hno).
      apply Hkeys, list_elem_of_lookup in Hdom as [i Hi].
      destruct (Forall2_lookup_l _ _ _ _ _ Hall Hi) as (cs & Hcs & Hwalk').
      assert (cs = chains) as -> by congruence.
      exists i, chains, from_id. split; [done|]. split; [done|]. split.
      { apply (walk_chain_head _ _ _ _ Hwalk). intros ->. by apply elem_of_nil in Hin. }
      intros (j & chains' & chain' & Hne & Hj & Hin' & Hfrom).
      destruct (Forall2_lookup_r _ _ _ _ _ Hall Hj) as (other & Hother & Hwalk'').
      apply Hno. exists other, chains', chain'.
      split; [apply Hkeys; by eapply list_elem_of_lookup_2|].
      split; [|done]. intros ->. apply Hne.
      by apply (NoDup_lookup _ _ _ _ Hnodup Hother Hi).
Qed.

(** Only maximal chains are returned: a returned chain follows pointing
    relations down to a node that points nowhere, and nothing points to its
    first node. *)
Lemma chains_of_rel_dict_maximal depth rel_dict res chain :
  chains_of_rel_dict depth rel_dict = Ok res → chain ∈ res →
  pointing_path rel_dict chain ∧
  ∃ from_id rest, chain = from_id :: rest ∧ ∀ x, from_id ∉ targets rel_dict x.
Proof.
  intros Hrun Hin. destruct (chains_of_rel_dict_spec _ _ _ Hrun) as [Hall Hmem].
  apply Hmem in Hin as (from_id & chains & Hdom & Hwalk & Hin & Hno).
  destruct (walk_chain_path _ _ _ _ _ Hwalk Hin) as [Hpath [rest ->]].
  split; [done|]. exists from_id, rest. split; [done|]. intros x Hx.
  assert (Hxdom : x ∈ dom rel_dict).
  { apply elem_of_dom. unfold targets in Hx. destruct (rel_dict !! x); [eauto|].
    by apply elem_of_empty in Hx. }
  destruct (decide (x = from_id)) as [->|Hne].
  { by apply (walk_chain_no_self_loop _ _ _ _ Hwalk Hdom). }
  destruct (Hall x Hxdom) as [chains_x Hwalk_x].
  destruct depth as [|depth]; [done|].
  destruct (walk_chain_spec _ _ _ _ Hwalk_x) as [Hok Hmem_x].
  destruct (Hok from_id Hx Hdom) as [tails Htails].
  assert (tails = chains) as ->.
  { apply walk_chain_deeper in Htails. congruence. }
  apply Hno. exists x, chains_x, (x :: from_id :: rest).
  split; [done|]. split; [done|]. split; [done|]. split.
  - apply Hmem_x. exists from_id. split; [done|]. right. split; [done|].
    by exists chains, (from_id :: rest).
  - by right; left.
Qed.

(** *** The relation dictionary of a graph *)

Lemma make_rel_dict_acc pointing_relations : ∀ rel_dict from_id to_id,
  let rel_dict' :=
    foldl (λ rel_dict '(from_id, to_id),
             <[from_id := default ∅ (rel_dict !! from_id) ∪ {[to_id]}]> rel_dict)
          rel_dict pointing_relations in
  (to_id ∈ targets rel_dict' from_id
   ↔ to_id ∈ targets rel_dict from_id ∨ (from_id, to_id) ∈ pointing_relations) ∧
  (from_id ∈ dom rel_dict'
   ↔ from_id ∈ dom rel_dict ∨ ∃ t, (from_id, t) ∈ pointing_relations).
Proof.
  induction pointing_relations as [|[f t] es IH]; intros rel_dict from_id to_id; simpl.
  - split; [set_solver|]. split; [by left|]. intros [?|[? Hin]]; [done|].
    by apply elem_of_nil in Hin.
  - destruct (IH (<[f := default ∅ (rel_dict !! f) ∪ {[t]}]> rel_dict) from_id to_id)
      as [Htargets Hdom].
    split.
    + rewrite Htargets. unfold targets. rewrite elem_of_cons.
      destruct (decide (f = from_id)) as [->|Hne].
      * rewrite lookup_insert_eq. simpl. set_solver.
      * rewrite lookup_insert_ne by done. naive_solver.
    + rewrite Hdom, dom_insert. setoid_rewrite elem_of_cons. set_solver.
Qed.

Lemma targets_make_rel_dict pointing_relations from_id to_id :
  to_id ∈ targets (make_rel_dict pointing_relations) from_id
  ↔ (from_id, to_id) ∈ pointing_relations.
Proof.
  unfold make_rel_dict.
  rewrite (proj1 (make_rel_dict_acc pointing_relations ∅ from_id to_id)).
  unfold targets. rewrite lookup_empty. set_solver.
Qed.

Lemma dom_make_rel_dict pointing_relations from_id :
  from_id ∈ dom (make_rel_dict pointing_relations)
  ↔ ∃ to_id, (from_id, to_id) ∈ pointing_relations.
Proof.
  unfold make_rel_dict.
  rewrite (proj2 (make_rel_dict_acc pointing_relations ∅ from_id from_id)).
  set_solver.
Qed.

(** *** The example a→b, b→c, d→c *)

(** Membership in a list of distinct things. *)
Ltac elem_of_list_contra H :=
  repeat (apply elem_of_cons in H as [H|H]; [congruence|]);
  by apply elem_of_nil in H.

Section three_relations.
Context (a b c d : atom).
Context (Hdistinct : NoDup [a; b; c; d]).

Local Notation rel_dict := (three_relations a b c d).
Local Notation walked := (walked a b c d).

Lemma distinct_abcd : a ≠ b ∧ a ≠ c ∧ a ≠ d ∧ b ≠ c ∧ b ≠ d ∧ c ≠ d.
Proof.
  apply NoDup_cons in Hdistinct as [Ha Hd1]. apply NoDup_cons in Hd1 as [Hb Hd2].
  apply NoDup_cons in Hd2 as [Hc _]. set_solver.
Qed.

Lemma make_rel_dict_three pointing_relations :
  (∀ p, p ∈ pointing_relations ↔ p ∈ [(a, b); (b, c); (d, c)]) →
  make_rel_dict pointing_relations = rel_dict.
Proof.
  destruct distinct_abcd as (Hab & Hac & Had & Hbc & Hbd & Hcd).
  intros Hes. apply map_eq. intros k.
  set (rd := make_rel_dict pointing_relations).
  assert (Ht : ∀ f t, t ∈ targets rd f ↔ (f, t) ∈ [(a, b); (b, c); (d, c)]).
  { intros f t. unfold rd. by rewrite targets_make_rel_dict, Hes. }
  assert (Hd : ∀ f, f ∈ dom rd ↔ ∃ t, (f, t) ∈ [(a, b); (b, c); (d, c)]).
  { intros f. unfold rd. rewrite dom_make_rel_dict. by setoid_rewrite Hes. }
  assert (Hk : ∀ s, (∀ t, t ∈ targets rd k ↔ t ∈ s) → k ∈ dom rd → rd !! k = Some s).
  { intros s Hs [s' Hs']%elem_of_dom. rewrite Hs'. f_equal. apply set_eq. intros t.
    rewrite <- Hs. unfold targets. by rewrite Hs'. }
  unfold three_relations.
  destruct (decide (k = a)) as [->|Ha];
    [|destruct (decide (k = b)) as [->|Hb];
      [|destruct (decide (k = d)) as [->|Hd']]].
  - rewrite lookup_insert_eq. apply Hk.
    + intros t. rewrite Ht. set_unfold. naive_solver.
    + apply Hd. exists b. set_solver.
  - rewrite lookup_insert_ne, lookup_insert_eq by done. apply Hk.
    + intros t. rewrite Ht. set_unfold. naive_solver.
    + apply Hd. exists c. set_solver.
  - rewrite !lookup_insert_ne, lookup_singleton_eq by done. apply Hk.
    + intros t. rewrite Ht. set_unfold. naive_solver.
    + apply Hd. exists c. set_solver.
  - rewrite !lookup_insert_ne, lookup_singleton_ne by done.
    apply not_elem_of_dom. rewrite Hd. intros [t Hin]. set_unfold. naive_solver.
Qed.

Lemma dom_three : dom rel_dict = {[a; b; d]}.
Proof. unfold three_relations. rewrite !dom_insert_L, dom_singleton_L. set_solver. Qed.

Lemma keys_three : (map_to_list rel_dict).*1 ≡ₚ [a; b; d].
Proof.
  destruct distinct_abcd as (Hab & Hac & Had & Hbc & Hbd & Hcd).
  unfold three_relations.
  rewrite map_to_list_insert.
  2:{ rewrite lookup_insert_ne, lookup_singleton_ne; done. }
  rewrite map_to_list_insert by (by rewrite lookup_singleton_ne).
  by rewrite map_to_list_singleton.
Qed.

Lemma targets_three :
  targets rel_dict a = {[b]} ∧ targets rel_dict b = {[c]} ∧
  targets rel_dict d = {[c]}.
Proof.
  destruct distinct_abcd as (Hab & Hac & Had & Hbc & Hbd & Hcd).
  unfold targets, three_relations. rewrite lookup_insert_eq.
  rewrite lookup_insert_ne, lookup_insert_eq by done.
  by rewrite !lookup_insert_ne, lookup_singleton_eq by done.
Qed.

Lemma c_not_source : c ∉ dom rel_dict.
Proof.
  destruct distinct_abcd as (Hab & Hac & Had & Hbc & Hbd & Hcd).
  rewrite dom_three. set_solver.
Qed.

Lemma walk_b depth : walk_chain (S depth) rel_dict b = Ok [[b; c]].
Proof.
  destruct targets_three as (_ & Hb & _).
  rewrite walk_chain_unfold, Hb, elements_singleton, foldM_cons.
  by rewrite (walk_step_end _ _ _ _ _ c_not_source).
Qed.

Lemma walk_d depth : walk_chain (S depth) rel_dict d = Ok [[d; c]].
Proof.
  destruct targets_three as (_ & _ & Hd).
  rewrite walk_chain_unfold, Hd, elements_singleton, foldM_cons.
  by rewrite (walk_step_end _ _ _ _ _ c_not_source).
Qed.

Lemma walk_a depth : walk_chain (S (S depth)) rel_dict a = Ok [[a; b; c]].
Proof.
  destruct targets_three as (Ha & _ & _).
  rewrite walk_chain_unfold, Ha, elements_singleton, foldM_cons.
  rewrite (walk_step_on _ _ _ _ _ [[b; c]]); [done| |apply walk_b].
  rewrite dom_three. set_solver.
Qed.

Lemma walk_three depth k :
  k ∈ dom rel_dict → walk_chain (S (S depth)) rel_dict k = Ok (walked k).
Proof.
  destruct distinct_abcd as (Hab & Hac & Had & Hbc & Hbd & Hcd).
  rewrite dom_three. unfold walked. intros Hk.
  repeat case_decide; subst; [apply walk_a|apply walk_b|].
  assert (k = d) as -> by set_solver. apply walk_d.
Qed.

Lemma walked_cases k :
  k ∈ dom rel_dict →
  (k = a ∧ walked k = [[a; b; c]]) ∨ (k = b ∧ walked k = [[b; c]]) ∨
  (k = d ∧ walked k = [[d; c]]).
Proof.
  rewrite dom_three. unfold walked. intros Hk.
  repeat case_decide; [by left|by right; left|right; right].
  split; [|done]. apply elem_of_union in Hk as [Hk|Hk]; [|by apply elem_of_singleton in Hk].
  apply elem_of_union in Hk as [Hk|Hk]; by apply elem_of_singleton in Hk.
Qed.

Lemma sources_three : a ∈ dom rel_dict ∧ b ∈ dom rel_dict ∧ d ∈ dom rel_dict.
Proof. rewrite dom_three. set_solver. Qed.

Lemma chains_three depth :
  ∃ res, chains_of_rel_dict (S (S depth)) rel_dict = Ok res ∧
         res ≡ₚ [[a; b; c]; [d; c]].
Proof.
  destruct distinct_abcd as (Hab & Hac & Had & Hbc & Hbd & Hcd).
  destruct sources_three as (Hdoma & Hdomb & Hdomd).
  assert (Hall : mapM_result (walk_chain (S (S depth)) rel_dict)
                   (map_to_list rel_dict).*1
                 = Ok (walked <$> (map_to_list rel_dict).*1)).
  { apply mapM_result_total, Forall_forall. intros k Hk. apply walk_three.
    apply elem_of_dom. apply list_elem_of_fmap in Hk as ([k' s] & -> & Hin).
    apply elem_of_map_to_list in Hin. eauto. }
  destruct (unique_chains_total (walked <$> (map_to_list rel_dict).*1))
    as (res & Hrun & Hsub).
  { apply Forall_forall. intros chains (k & -> & _)%list_elem_of_fmap.
    unfold walked. by repeat case_decide. }
  assert (Hres : chains_of_rel_dict (S (S depth)) rel_dict = Ok res).
  { unfold chains_of_rel_dict. by rewrite Hall. }
  exists res. split; [done|].
  apply NoDup_Permutation.
  - eapply sublist_NoDup; [|exact Hsub].
    rewrite (concat_Permutation _ (walked <$> [a; b; d]))
      by (by rewrite keys_three).
    destruct (walked_cases a Hdoma) as [[_ Hwa]|[[? _]|[? _]]]; [|done..].
    destruct (walked_cases b Hdomb) as [[? _]|[[_ Hwb]|[? _]]]; [done| |done].
    destruct (walked_cases d Hdomd) as [[? _]|[[? _]|[_ Hwd]]]; [done..|].
    change (concat (walked <$> [a; b; d]))
      with (walked a ++ walked b ++ walked d ++ []).
    rewrite Hwa, Hwb, Hwd. simpl.
    apply NoDup_cons_2; [|apply NoDup_cons_2; [|apply NoDup_singleton]].
    + intros Hin. elem_of_list_contra Hin.
    + intros Hin. elem_of_list_contra Hin.
  - apply NoDup_cons_2; [|apply NoDup_singleton].
    intros Hin. elem_of_list_contra Hin.
  - intros chain.
    rewrite (proj2 (chains_of_rel_dict_spec _ _ _ Hres) chain). split.
    + intros (from_id & chains & Hdom & Hwalk & Hin & Hno).
      rewrite (walk_three depth from_id Hdom) in Hwalk. injection Hwalk as <-.
      destruct (walked_cases from_id Hdom) as [[-> Hw]|[[-> Hw]|[-> Hw]]];
        rewrite Hw in Hin; apply list_elem_of_singleton in Hin as ->.
      * by left.
      * exfalso. apply Hno. exists a, [[a; b; c]], [a; b; c].
        split; [done|]. split; [done|]. split; [apply walk_a|].
        split; [by left|by right; left].
      * by right; left.
    + intros Hchain. apply elem_of_cons in Hchain as [->|Hchain].
      * exists a, [[a; b; c]].
        split; [done|]. split; [apply walk_a|]. split; [by left|].
        intros (other & chains' & chain' & Hother & Hne & Hwalk & Hin & Hfrom).
        rewrite (walk_three depth other Hother) in Hwalk. injection Hwalk as <-.
        destruct (walked_cases other Hother) as [[-> Hw]|[[-> Hw]|[-> Hw]]];
          [done|..]; rewrite Hw in Hin; apply list_elem_of_singleton in Hin as ->;
          elem_of_list_contra Hfrom.
      * apply list_elem_of_singleton in Hchain as ->.
        exists d, [[d; c]].
        split; [done|]. split; [apply walk_d|]. split; [by left|].
        intros (other & chains' & chain' & Hother & Hne & Hwalk & Hin & Hfrom).
        rewrite (walk_three depth other Hother) in Hwalk. injection Hwalk as <-.
        destruct (walked_cases other Hother) as [[-> Hw]|[[-> Hw]|[-> Hw]]];
          [| |done]; rewrite Hw in Hin; apply list_elem_of_singleton in Hin as ->;
          elem_of_list_contra Hfrom.
Qed.
End three_relations.



(** ** Consistency *)

Lemma assert_layers_Ok layers g ls g1 :
  assert_layers layers g = (Ok ls, g1) →
  layers = VSet ls ∧ all_str ls = true ∧ g1 = g.
Proof.
  unfold assert_layers, bind, assert, ret, throw. destruct layers; simpl; try done.
  destruct (all_str s) eqn:E; simpl; [|done]. by intros [= <- <-].
Qed.

Lemma all_str_empty : all_str ∅ = true.
Proof. unfold all_str. apply bool_decide_eq_true_2. apply set_Forall_empty. Qed.

Lemma all_str_union s1 s2 :
  all_str s1 = true → all_str s2 = true → all_str (s1 ∪ s2) = true.
Proof.
  unfold all_str. rewrite !bool_decide_eq_true. apply set_Forall_union.
Qed.

Lemma has_layers_update (d e : attrs) s :
  all_str s = true → has_layers (update (update d e) {["layers" := VSet s]}).
Proof. intros Hs. exists s. split; [apply datadict_layers|done]. Qed.

Lemma has_layers_set (d : attrs) s :
  has_layers d → d !! "layers" = Some (VSet s) → all_str s = true.
Proof. intros (s' & Hs' & Hall) Hs. congruence. Qed.

Lemma attr_dict_has_layers (attr_dict : option attrs) (attr : attrs) ls :
  all_str ls = true →
  has_layers (match attr_dict with
              | None => update attr {["layers" := VSet ls]}
              | Some d => update d (update attr {["layers" := VSet ls]})
              end).
Proof.
  intros Hls. exists ls. split; [|done]. unfold update.
  destruct attr_dict; by rewrite !lookup_union, lookup_singleton_eq, !union_Some_l.
Qed.

Lemma existing_layers_all_str g l key s0 :
  (∀ l kd k d, heap g !! l = Some kd → kd !! k = Some d → has_layers d) →
  as_set (get_layers (default ∅ (deref g l !! key))) = Ok s0 → all_str s0 = true.
Proof.
  intros Hel. unfold deref, get_layers.
  destruct (heap g !! l) as [kd|] eqn:Hl; simpl.
  - destruct (kd !! key) as [d|] eqn:Hd; simpl.
    + destruct (Hel _ _ _ _ Hl Hd) as (s & -> & Hs). simpl. by intros [= <-].
    + rewrite lookup_empty. simpl. intros [= <-]. apply all_str_empty.
  - rewrite !lookup_empty. simpl. intros [= <-]. apply all_str_empty.
Qed.

Lemma consistent_update_step g g' : consistent g → update_step g g' → consistent g'.
Proof.
  intros [Hwf Hn Hnl Hel] Hstep.
  destruct Hstep as [n nd Hnew Hnd|n nd extra s0 ls Hin Hnd Hs0 Hls
                    |u v key d Hu Hv Href Hd|u v l key extra s0 ls Href Hs0 Hls].
  - split.
    + by apply wf_set_node, wf_new_node.
    + simpl. rewrite !dom_insert_L. by rewrite Hn.
    + intros n' nd'. simpl. destruct (decide (n = n')) as [<-|Hne].
      * rewrite lookup_insert_eq. by intros [= <-].
      * rewrite lookup_insert_ne by done. apply Hnl.
    + apply Hel.
  - split.
    + by apply wf_set_node.
    + simpl. rewrite dom_insert_L, Hn. set_solver.
    + intros n' nd'. simpl. destruct (decide (n = n')) as [<-|Hne].
      * rewrite lookup_insert_eq. intros [= <-].
        apply has_layers_update, all_str_union; [|done].
        by eapply has_layers_set; [eapply Hnl|].
      * rewrite lookup_insert_ne by done. apply Hnl.
    + apply Hel.
  - split.
    + by apply wf_new_edge.
    + simpl. by rewrite dom_alter_L.
    + apply Hnl.
    + simpl. intros l kd k d'. destruct (decide (fresh (dom (heap g)) = l)) as [<-|Hne].
      * rewrite lookup_insert_eq. intros [= <-].
        intros [<- <-]%lookup_singleton_Some. done.
      * rewrite lookup_insert_ne by done. apply Hel.
  - split.
    + apply wf_set_heap; [done|]. exact (wf_heap g Hwf u v l Href).
    + done.
    + done.
    + simpl. intros l' kd k d'. destruct (decide (l = l')) as [<-|Hne].
      * rewrite lookup_insert_eq. intros [= <-].
        destruct (decide (key = k)) as [<-|Hk].
        -- rewrite lookup_insert_eq. intros [= <-].
           apply has_layers_update, all_str_union; [|done].
           by eapply existing_layers_all_str.
        -- rewrite lookup_insert_ne by done. unfold deref.
           destruct (heap g !! l) as [kd|] eqn:Hl; simpl; [by apply (Hel l)|].
           by rewrite lookup_empty.
      * rewrite lookup_insert_ne by done. apply Hel.
Qed.

Lemma consistent_updates g g' : rtc update_step g g' → consistent g → consistent g'.
Proof.
  induction 1 as [|g g1 g' Hstep _ IH]; [done|].
  intros Hc. apply IH. by eapply consistent_update_step.
Qed.

Lemma consistent_empty_graph nm nsp r toks : consistent (empty_graph nm nsp r toks).
Proof. split; [apply wf_empty_graph|done|done|done]. Qed.

(** ** Methods as sequences of elementary updates *)

Lemma reached_step {A} (m : M A) g0 :
  (∀ g, consistent g → rtc update_step g (exec m g)) → preserves (reached g0) m.
Proof.
  intros Hm g [Hc Hr]. split.
  - eapply consistent_updates; [by apply Hm|done].
  - etrans; [done|]. by apply Hm.
Qed.

Lemma reached_pure {A} (m : M A) g0 :
  (∀ g, exec m g = g) → preserves (reached g0) m.
Proof. intros Hm g Hg. by rewrite Hm. Qed.

Lemma add_node_updates n layers attr_dict attr g :
  rtc update_step g (exec (add_node n layers attr_dict attr) g).
Proof.
  unfold exec, add_node. unfold bind at 1.
  destruct (assert_layers layers g) as [[ls|e] g1] eqn:Hal.
  - apply assert_layers_Ok in Hal as (-> & Hls & ->).
    unfold bind, get, assert, lift, modify, throw, ret. simpl.
    case_decide as Hn.
    + destruct (node g !! n) as [nd|] eqn:Hnd; simpl; [|done].
      destruct (nd !! "layers") as [existing|] eqn:Hex; simpl; [|done].
      destruct existing; simpl; try done.
      apply rtc_once. by eapply updated_node.
    + simpl. apply rtc_once. apply new_node; [done|].
      by apply attr_dict_has_layers.
  - pose proof (assert_layers_state layers g) as Hst. rewrite Hal in Hst.
    simpl in *. by subst.
Qed.

Lemma add_nodes_from_entry_updates additional_attribs node_id ndict g :
  rtc update_step g (exec (
    assert (bool_decide ("layers" ∈ dom ndict)) ;;
    do layers <- lift (or_raise KeyError (ndict !! "layers"));
    do ls <- assert_layers layers;
    do g <- get;
    if decide (node_id ∈ dom (succ g)) then
      do nd <- lift (or_raise KeyError (node g !! node_id));
      do existing <- lift (or_raise KeyError (nd !! "layers"));
      do existing_layers <- lift (as_set existing);
      let all_layers := existing_layers ∪ ls in
      let nd := update nd ndict in
      let nd := update nd additional_attribs in
      let nd := update nd {["layers" := VSet all_layers]} in
      modify (set_node <[node_id := nd]>)
    else
      modify (set_succ <[node_id := ∅]>) ;;
      modify (set_pred <[node_id := ∅]>) ;;
      let newdict := update additional_attribs ndict in
      modify (set_node <[node_id := newdict]>)) g).
Proof.
  unfold exec, bind, get, assert, lift, modify, throw, ret. simpl.
  case_bool_decide; simpl; [|done].
  destruct (ndict !! "layers") as [layers|] eqn:Hl; simpl; [|done].
  destruct (assert_layers layers g) as [[ls|e] g1] eqn:Hal.
  - apply assert_layers_Ok in Hal as (-> & Hls & ->).
    case_decide as Hn.
    + destruct (node g !! node_id) as [nd|] eqn:Hnd; simpl; [|done].
      destruct (nd !! "layers") as [existing|] eqn:Hex; simpl; [|done].
      destruct existing; simpl; try done.
      apply rtc_once.
      replace (update (update nd ndict) additional_attribs)
        with (update nd (update ndict additional_attribs)).
      { by eapply updated_node. }
      unfold update. by rewrite (assoc_L (∪)).
    + simpl. apply rtc_once. apply new_node; [done|].
      exists ls. split; [|done]. unfold update. by rewrite lookup_union, Hl, union_Some_l.
  - pose proof (assert_layers_state layers g) as Hst. rewrite Hal in Hst.
    simpl in *. by subst.
Qed.

Lemma reached_add_node g0 n layers attr_dict attr :
  preserves (reached g0) (add_node n layers attr_dict attr).
Proof. apply reached_step. intros g _. apply add_node_updates. Qed.

Lemma reached_add_nodes_from g0 nodes attr :
  preserves (reached g0) (add_nodes_from nodes attr).
Proof.
  unfold add_nodes_from. apply preserves_for_each. intros [node_id ndict].
  apply reached_step. intros g _. apply add_nodes_from_entry_updates.
Qed.

Lemma add_edge_updates u v layers key attr_dict attr g :
  wf g → rtc update_step g (exec (add_edge u v layers key attr_dict attr) g).
Proof.
  intros Hwf. unfold exec, add_edge. unfold bind at 1.
  destruct (assert_layers layers g) as [[ls|e] g1] eqn:Hal.
  - apply assert_layers_Ok in Hal as (-> & Hls & ->).
    unfold bind, get, assert, lift, modify, throw, ret, alloc. simpl.
    case_bool_decide as Hu; simpl; [|done].
    case_bool_decide as Hv; simpl; [|done].
    destruct (adj_ref g u v) as [l|] eqn:Href.
    + destruct (as_set _) as [s0|] eqn:Hs0; simpl; [|done].
      apply rtc_once. by eapply updated_edge.
    + simpl. rewrite decide_True by (by rewrite (wf_dom g Hwf)). simpl.
      apply rtc_once. apply new_edge; try done.
      unfold update at 1. rewrite (right_id_L ∅ (∪)).
      by apply attr_dict_has_layers.
  - pose proof (assert_layers_state layers g) as Hst. rewrite Hal in Hst.
    simpl in *. by subst.
Qed.

Lemma reached_add_edge g0 u v layers key attr_dict attr :
  preserves (reached g0) (add_edge u v layers key attr_dict attr).
Proof. apply reached_step. intros g Hc. apply add_edge_updates, Hc. Qed.

Lemma wf_adj_target g u v l :
  wf g → adj_ref g u v = Some l → u ∈ dom (succ g) ∧ v ∈ dom (succ g).
Proof.
  intros Hwf Href. split.
  - unfold adj_ref in Href. apply elem_of_dom.
    destruct (succ g !! u); [done|discriminate].
  - rewrite (wf_refs g Hwf) in Href. rewrite <- (wf_dom g Hwf).
    unfold pred_ref in Href. apply elem_of_dom.
    destruct (pred g !! v); [done|discriminate].
Qed.

Lemma for_each_cons_single {A} (x : A) xs body g :
  for_each (x :: xs) body g = bind (for_each [x] body) (λ _, for_each xs body) g.
Proof.
  cbn [for_each]. unfold bind, ret. by destruct (body x g) as [[[]|?] ?].
Qed.

Lemma add_edges_from_cons e ebunch attr_dict attr g :
  add_edges_from (e :: ebunch) attr_dict attr g =
  bind (add_edges_from [e] attr_dict attr)
       (λ _, add_edges_from ebunch attr_dict attr) g.
Proof. unfold add_edges_from. apply for_each_cons_single. Qed.

Lemma falsy_iter_set al s : truthy al = false → iter_set al = Ok s → s = ∅.
Proof.
  destruct al; simpl; try done.
  - intros Hs%bool_decide_eq_false [= <-].
    destruct (decide (s0 = "")) as [->|]; [done|naive_solver].
  - intros Hl%bool_decide_eq_false [= <-].
    destruct (decide (l = [])) as [->|]; [done|naive_solver].
  - intros Hs%bool_decide_eq_false [= <-].
    destruct (decide (s0 = ∅)) as [->|]; [done|naive_solver].
Qed.

(** An entry for an edge that exists: the attributes are written into its
    dictionary, and [add_edge] then adds the layers. *)
Lemma update_in_place_then_add g u v l key old (A dd : attrs) s0 ls additional :
  wf g → adj_ref g u v = Some l → deref g l !! key = Some old →
  old !! "layers" = Some (VSet s0) → dd !! "layers" = Some (VSet ls) →
  all_str s0 = true → all_str ls = true → all_str additional = true →
  add_edge u v (VSet (s0 ∪ (ls ∪ additional))) (Some key)
    (Some (delete "layers" (update (update old A) dd))) ∅
    (set_heap <[l := <[key := update (update old A) dd]> (deref g l)]> g)
  = (Ok tt,
     set_heap <[l := <[key := update (update (default ∅ (deref g l !! key)) (update A dd))
                               {["layers" := VSet (s0 ∪ (ls ∪ additional))]}]>
                       (deref g l)]> g).
Proof.
  intros Hwf Href Hold Hs0 Hdd Hall0 Halls Halla.
  destruct (wf_adj_target g u v l Hwf Href) as [Hu Hv].
  set (g1 := set_heap <[l := <[key := update (update old A) dd]> (deref g l)]> g).
  pose proof (add_edge_keyed_existing g1 u v key
    (CallArgs (s0 ∪ (ls ∪ additional))
              (Some (delete "layers" (update (update old A) dd))) ∅) l ls) as Hadd.
  simpl in Hadd. rewrite Hadd; try done.
  - assert (Hderef : deref g1 l = <[key := update (update old A) dd]> (deref g l)).
    { unfold deref, g1. simpl. by rewrite lookup_insert_eq. }
    rewrite Hderef, lookup_insert_eq, Hold. simpl.
    f_equal. unfold g1, set_heap. simpl. f_equal.
    rewrite insert_insert_eq. f_equal. rewrite insert_insert_eq. f_equal.
    unfold effective, update. simpl.
    apply map_eq. intros i. rewrite !lookup_union.
    destruct (decide (i = "layers")) as [->|Hne].
    + rewrite !lookup_singleton_eq. rewrite !union_Some_l. do 2 f_equal. set_solver.
    + rewrite !lookup_singleton_ne by done. rewrite lookup_delete_ne by done.
      rewrite !lookup_union, lookup_empty.
      by destruct (dd !! i), (A !! i), (old !! i).
  - unfold deref, g1. simpl. rewrite lookup_insert_eq. simpl.
    rewrite lookup_insert_eq. simpl. unfold get_layers, update.
    by rewrite lookup_union, Hdd, union_Some_l.
  - simpl. repeat apply all_str_union; done.
Qed.

Lemma exec_then_ret (m : M unit) g : exec (m ;; ret tt) g = exec m g.
Proof. unfold exec, bind, ret. by destruct (m g) as [[[]|?] ?]. Qed.

Lemma add_edges_from_single_updates e attr_dict attr g :
  consistent g → rtc update_step g (exec (add_edges_from [e] attr_dict attr) g).
Proof.
  intros [Hwf Hn Hnl Hel].
  assert (∀ u v key dd,
    rtc update_step g (exec (add_edges_from [Edge4 u v key dd] attr_dict attr) g))
    as Hmain.
  2:{ destruct e as [u v dd|u v key dd|ne]; [apply (Hmain u v None dd)|apply Hmain|done]. }
  intros u v key dd.
  unfold add_edges_from. cbn [for_each]. rewrite exec_then_ret.
  set (ad := match attr_dict with None => attr | Some d => update d attr end).
  unfold exec. unfold bind at 1. unfold ret at 1.
  unfold bind at 1. unfold assert at 1.
  case_bool_decide as Hin; [|done]. unfold ret at 1.
  unfold bind at 1. unfold lift at 1.
  destruct (dd !! "layers") as [layers|] eqn:Hdd; [|done]. simpl or_raise. cbv iota.
  unfold bind at 1.
  destruct (assert_layers layers g) as [[ls|err] g1] eqn:Hal.
  2:{ pose proof (assert_layers_state layers g) as Hst. rewrite Hal in Hst. simpl in *. by subst. }
  apply assert_layers_Ok in Hal as (-> & Hls & ->).
  unfold bind at 1.
  assert (∃ r, (match ad !! "layers" with
                | Some al => if truthy al then assert_layers al else lift (iter_set al)
                | None => ret ∅
                end) g = (r, g) ∧ ∀ s, r = Ok s → all_str s = true) as (r & -> & Hr).
  { destruct (ad !! "layers") as [al|].
    - destruct (truthy al) eqn:Htr.
      + destruct (assert_layers al g) as [[s|err] g1] eqn:Hal.
        * apply assert_layers_Ok in Hal as (-> & Hs & ->). eexists. split; [done|].
          by intros ? [= <-].
        * pose proof (assert_layers_state al g) as Hst. rewrite Hal in Hst. simpl in *.
          subst. eexists. split; [done|]. done.
      + eexists. split; [done|]. intros s Hs. unfold lift in *.
        rewrite (falsy_iter_set al s Htr Hs). apply all_str_empty.
    - eexists. split; [done|]. intros ? [= <-]. apply all_str_empty. }
  destruct r as [additional|err]; [|done].
  pose proof (Hr _ eq_refl) as Hadd. clear Hr.
  unfold bind at 1. unfold get at 1.
  remember (if decide (u ∈ dom (succ g)) then adj_ref g u v else None) as ref eqn:Href.
  remember (match ref with Some l => deref g l | None => ∅ end) as kd eqn:Hkd.
  remember (match key with Some k => k | None => AInt (new_key kd) end) as key' eqn:Hkey.
  destruct (kd !! key') as [old|] eqn:Hold.
  2:{ cbn [default from_option id]. unfold get_layers at 1. rewrite lookup_empty.
      cbn [default from_option id as_set].
      destruct ref; exact (add_edge_updates u v _ _ _ _ g Hwf). }
  assert (∃ l, ref = Some l ∧ adj_ref g u v = Some l) as (l & -> & Hl).
  { destruct ref as [l|]; [|by rewrite Hkd, lookup_empty in Hold].
    exists l. split; [done|]. by case_decide. }
  subst kd.
  assert (has_layers old) as (s0 & Hs0 & Hall0).
  { unfold deref in Hold. destruct (heap g !! l) as [kd|] eqn:Hhl; simpl in Hold.
    - by eapply Hel.
    - by rewrite lookup_empty in Hold. }
  cbn [default from_option id]. unfold get_layers at 1. rewrite Hs0.
  cbn [default from_option id as_set].
  unfold bind at 1. unfold modify at 1. unfold bind at 1. unfold lift at 1.
  rewrite (update_in_place_then_add g u v l key' old ad dd s0 ls additional); try done.
  cbn [snd]. apply rtc_once.
  eapply (updated_edge g u v l key' (update ad dd) s0 (ls ∪ additional)); [done| |].
  - rewrite Hold. simpl. unfold get_layers. by rewrite Hs0.
  - by apply all_str_union.
Qed.

Lemma reached_add_edges_from g0 ebunch attr_dict attr :
  preserves (reached g0) (add_edges_from ebunch attr_dict attr).
Proof.
  induction ebunch as [|e ebunch IH].
  - by intros g Hg.
  - intros g Hg. unfold exec. rewrite add_edges_from_cons.
    apply (exec_bind (reached g0)); [|by intros _].
    revert g Hg. apply reached_step. intros g Hc.
    by apply add_edges_from_single_updates.
Qed.

Lemma reached_add_precedence_relations g0 : preserves (reached g0) add_precedence_relations.
Proof.
  unfold add_precedence_relations.
  apply preserves_bind; [by intros g Hg|intros g].
  apply preserves_bind; [intros g' Hg; unfold exec, assert; by case_bool_decide|intros _].
  apply preserves_bind; [by intros g' Hg|intros t0].
  apply preserves_bind; [apply reached_add_edge|intros _].
  apply preserves_for_each. intros [i token_node_id].
  apply preserves_bind; [by intros g' Hg|intros ti].
  apply reached_add_edge.
Qed.

Lemma reached_merge_graphs g0 document_graph :
  preserves (reached g0) (merge_graphs document_graph).
Proof.
  unfold merge_graphs.
  apply preserves_bind; [by intros g Hg|intros self].
  apply preserves_bind; [by intros g Hg|intros remote_tokens].
  apply preserves_bind; [by intros g Hg|intros remote2local].
  apply preserves_bind; [apply reached_add_nodes_from|intros _].
  apply reached_add_edges_from.
Qed.

Lemma reached_run_call g0 c : preserves (reached g0) (run_call c).
Proof.
  destruct c; simpl.
  - apply reached_add_node.
  - apply reached_add_nodes_from.
  - apply reached_add_edge.
  - apply reached_add_edges_from.
  - apply reached_add_precedence_relations.
  - apply reached_merge_graphs.
Qed.

Lemma reached_run_calls g0 cs g : reached g0 g → reached g0 (run_calls cs g).
Proof.
  revert g. induction cs as [|c cs IH]; intros g Hg; [done|].
  simpl. apply IH. by apply reached_run_call.
Qed.

Lemma reached_refl g : consistent g → reached g g.
Proof. by split. Qed.

Lemma consistent_run_calls nm nsp r toks cs :
  consistent (run_calls cs (empty_graph nm nsp r toks)).
Proof.
  apply (reached_run_calls (empty_graph nm nsp r toks)), reached_refl,
    consistent_empty_graph.
Qed.

(** ** Nothing is lost *)

Lemma layers_grow_refl d : layers_grow d d.
Proof. intros s Hs. by exists s. Qed.

Lemma layers_grow_trans d1 d2 d3 :
  layers_grow d1 d2 → layers_grow d2 d3 → layers_grow d1 d3.
Proof.
  intros H12 H23 s Hs. destruct (H12 s Hs) as (s' & Hs' & Hsub).
  destruct (H23 s' Hs') as (s'' & Hs'' & Hsub'). exists s''. split; [done|set_solver].
Qed.

Lemma layers_grow_update (d extra : attrs) s0 ls :
  d !! "layers" = Some (VSet s0) →
  dom d ⊆ dom (update (update d extra) {["layers" := VSet (s0 ∪ ls)]}) ∧
  layers_grow d (update (update d extra) {["layers" := VSet (s0 ∪ ls)]}).
Proof.
  intros Hd. split.
  - unfold update. rewrite !dom_union_L. set_solver.
  - intros s Hs. exists (s0 ∪ ls). split; [apply datadict_layers|].
    rewrite Hd in Hs. injection Hs as <-. set_solver.
Qed.

Lemma grows_refl g : grows g g.
Proof.
  split; try done.
  - intros n nd Hnd. exists nd. split; [done|]. split; [done|apply layers_grow_refl].
  - intros u v k d Hd. exists d. split; [done|]. split; [done|apply layers_grow_refl].
Qed.

Lemma grows_trans g1 g2 g3 : grows g1 g2 → grows g2 g3 → grows g1 g3.
Proof.
  intros [Hn1 Hs1 Hr1 Ht1 Hnodes1 Hedges1] [Hn2 Hs2 Hr2 Ht2 Hnodes2 Hedges2].
  split; try congruence.
  - intros n nd Hnd. destruct (Hnodes1 n nd Hnd) as (nd' & Hnd' & Hdom & Hl).
    destruct (Hnodes2 n nd' Hnd') as (nd'' & Hnd'' & Hdom' & Hl').
    exists nd''. split; [done|]. split; [set_solver|by eapply layers_grow_trans].
  - intros u v k d Hd. destruct (Hedges1 u v k d Hd) as (d' & Hd' & Hdom & Hl).
    destruct (Hedges2 u v k d' Hd') as (d'' & Hd'' & Hdom' & Hl').
    exists d''. split; [done|]. split; [set_solver|by eapply layers_grow_trans].
Qed.

Lemma succ_edge_new_node g n f u v k :
  n ∉ dom (succ g) →
  succ_edge (set_node f (set_pred <[n := ∅]> (set_succ <[n := ∅]> g))) u v k
  = succ_edge g u v k.
Proof.
  intros Hn. unfold succ_edge, adj_ref. simpl.
  destruct (decide (n = u)) as [<-|Hne].
  - rewrite lookup_insert_eq. apply not_elem_of_dom in Hn. rewrite Hn. simpl.
    by rewrite lookup_empty.
  - by rewrite lookup_insert_ne.
Qed.

Lemma grows_update_step g g' : consistent g → update_step g g' → grows g g'.
Proof.
  intros [Hwf Hn Hnl Hel] Hstep.
  destruct Hstep as [n nd Hnew Hnd|n nd extra s0 ls Hin Hnd Hs0 Hls
                    |u v key d Hu Hv Href Hd|u v l key extra s0 ls Href Hs0 Hls].
  - split; try done.
    + intros n' nd' Hnd'. simpl. rewrite lookup_insert_ne.
      * exists nd'. split; [done|]. split; [done|apply layers_grow_refl].
      * intros <-. rewrite <- Hn in Hnew. apply not_elem_of_dom in Hnew. congruence.
    + intros u v k d. rewrite succ_edge_new_node by done. intros Hd.
      exists d. split; [done|]. split; [done|apply layers_grow_refl].
  - split; try done.
    + intros n' nd' Hnd'. simpl. destruct (decide (n = n')) as [<-|Hne].
      * rewrite lookup_insert_eq. eexists. split; [done|].
        assert (nd' = nd) as -> by congruence. by apply layers_grow_update.
      * rewrite lookup_insert_ne by done.
        exists nd'. split; [done|]. split; [done|apply layers_grow_refl].
    + intros u v k d Hd. exists d. split; [done|]. split; [done|apply layers_grow_refl].
  - split; try done.
    + intros n nd Hnd. exists nd. split; [done|]. split; [done|apply layers_grow_refl].
    + intros u' v' k d'. setoid_rewrite <- keydict_of_succ_edge.
      rewrite keydict_of_new_edge by done. case_decide as Huv.
      * destruct Huv as [<- <-]. unfold keydict_of. rewrite Href.
        by rewrite lookup_empty.
      * intros Hd'. exists d'. split; [done|]. split; [done|apply layers_grow_refl].
  - split; try done.
    + intros n nd Hnd. exists nd. split; [done|]. split; [done|apply layers_grow_refl].
    + intros u' v' k d'. setoid_rewrite <- keydict_of_succ_edge.
      rewrite keydict_of_set_heap. unfold keydict_of.
      destruct (adj_ref g u' v') as [l'|]; [|by rewrite lookup_empty].
      case_decide as Hl; [subst l'|].
      * destruct (decide (key = k)) as [<-|Hk].
        -- rewrite lookup_insert_eq. intros Hd'. rewrite Hd' in *. simpl in *.
           eexists. split; [done|].
           destruct (d' !! "layers") as [layers|] eqn:Hlayers.
           ++ unfold get_layers in Hs0. rewrite Hlayers in Hs0. simpl in Hs0.
              destruct layers; try done. injection Hs0 as ->.
              by apply layers_grow_update.
           ++ split; [unfold update; rewrite !dom_union_L; set_solver|].
              intros s Hs. congruence.
        -- rewrite lookup_insert_ne by done. intros Hd'.
           exists d'. split; [done|]. split; [done|apply layers_grow_refl].
      * intros Hd'. exists d'. split; [done|]. split; [done|apply layers_grow_refl].
Qed.

Lemma grows_updates g g' : rtc update_step g g' → consistent g → grows g g'.
Proof.
  induction 1 as [g|g g1 g' Hstep _ IH]; intros Hc; [apply grows_refl|].
  eapply grows_trans; [by apply grows_update_step|].
  apply IH. by eapply consistent_update_step.
Qed.

(** X1: Every edge of a graph the methods have built connects two of its nodes:
    the node dictionary and the two adjacency dictionaries have the same
    keys, and both ends of an edge are among them. *)
Theorem edges_connect_nodes nm nsp r toks cs u v k d :
  let g := run_calls cs (empty_graph nm nsp r toks) in
  dom (succ g) = dom (node g) ∧ dom (pred g) = dom (node g) ∧
  (succ_edge g u v k = Some d → u ∈ dom (node g) ∧ v ∈ dom (node g)).
Proof.
  intros g. destruct (consistent_run_calls nm nsp r toks cs) as [Hwf Hn _ _].
  fold g in Hwf, Hn. split; [done|]. split; [by rewrite (wf_dom g Hwf)|].
  unfold succ_edge. destruct (adj_ref g u v) as [l|] eqn:Href; [|done].
  intros _. rewrite Hn. by eapply wf_adj_target.
Qed.

(** X2: Every node and every edge of a graph the methods have built carries a
    ['layers'] attribute that is a set of strings. *)
Theorem layers_on_every_node_and_edge nm nsp r toks cs :
  let g := run_calls cs (empty_graph nm nsp r toks) in
  (∀ n nd, node g !! n = Some nd → has_layers nd) ∧
  (∀ u v k d, succ_edge g u v k = Some d → has_layers d).
Proof.
  intros g. destruct (consistent_run_calls nm nsp r toks cs) as [_ _ Hnl Hel].
  fold g in Hnl, Hel. split; [done|].
  intros u v k d. unfold succ_edge.
  destruct (adj_ref g u v) as [l|]; [|done]. simpl.
  destruct (heap g !! l) as [kd|] eqn:Hl; [|done]. simpl. by apply (Hel l).
Qed.

(** X3: Further calls on a graph the methods have built lose nothing: the name,
    the namespace, the root and the token list stay as they are, every node
    and every edge stays, with all its attribute keys, and its layers can
    only become more. *)
Theorem methods_lose_nothing nm nsp r toks cs cs' :
  let g := run_calls cs (empty_graph nm nsp r toks) in
  grows g (run_calls cs' g).
Proof.
  intros g. pose proof (consistent_run_calls nm nsp r toks cs) as Hc. fold g in Hc.
  destruct (reached_run_calls g cs' g (reached_refl g Hc)) as [_ Hr].
  by apply grows_updates.
Qed.

(** ** What the node methods and the edge methods leave alone *)

Lemma add_node_keeps_edges n layers attr_dict attr g0 :
  preserves (λ g, ∀ u v k, succ_edge g u v k = succ_edge g0 u v k)
            (add_node n layers attr_dict attr).
Proof.
  intros g Hg. unfold exec, add_node. unfold bind at 1.
  destruct (assert_layers layers g) as [[ls|e] g1] eqn:Hal.
  - apply assert_layers_Ok in Hal as (-> & Hls & ->).
    unfold bind, get, assert, lift, modify, throw, ret. simpl.
    case_decide as Hn.
    + repeat case_match; simpl; done.
    + simpl. intros u v k.
      by rewrite (succ_edge_new_node g n (λ _, _) u v k Hn).
  - pose proof (assert_layers_state layers g) as Hst. rewrite Hal in Hst.
    simpl in *. by subst.
Qed.

Lemma add_nodes_from_keeps_edges nodes attr g0 :
  preserves (λ g, ∀ u v k, succ_edge g u v k = succ_edge g0 u v k)
            (add_nodes_from nodes attr).
Proof.
  unfold add_nodes_from. apply preserves_for_each. intros [node_id ndict] g Hg.
  unfold exec, bind, get, assert, lift, modify, throw, ret. simpl.
  case_bool_decide; simpl; [|done].
  destruct (ndict !! "layers") as [layers|]; simpl; [|done].
  pose proof (assert_layers_state layers g) as Hst.
  destruct (assert_layers layers g) as [[ls|e] g1]; simpl in Hst; subst g1; [|done].
  case_decide as Hn.
  - repeat case_match; simpl; done.
  - simpl. intros u v k.
    by rewrite (succ_edge_new_node g node_id (λ _, _) u v k Hn).
Qed.

(** X4: [add_node] and [add_nodes_from] never add, remove or change an edge. *)
Theorem node_methods_keep_edges g n layers attr_dict attr nodes u v k :
  succ_edge (exec (add_node n layers attr_dict attr) g) u v k = succ_edge g u v k ∧
  succ_edge (exec (add_nodes_from nodes attr) g) u v k = succ_edge g u v k.
Proof.
  split.
  - by apply (add_node_keeps_edges n layers attr_dict attr g g).
  - by apply (add_nodes_from_keeps_edges nodes attr g g).
Qed.


Lemma add_edge_same_nodes u v layers key attr_dict attr g0 :
  preserves (same_nodes g0) (add_edge u v layers key attr_dict attr).
Proof.
  intros g Hg. unfold exec, add_edge. unfold bind at 1.
  pose proof (assert_layers_state layers g) as Hst.
  destruct (assert_layers layers g) as [[ls|e] g1]; simpl in Hst; subst g1; [|done].
  unfold bind, get, assert, lift, modify, throw, ret, alloc. simpl.
  case_bool_decide as Hu; simpl; [|done].
  case_bool_decide as Hv; simpl; [|done].
  destruct Hg as (Hnode & Hsucc & Hpred).
  destruct (adj_ref g u v) as [l|] eqn:Href.
  - by destruct (as_set _).
  - simpl. case_decide; simpl; unfold same_nodes; simpl; by rewrite ?dom_alter_L.
Qed.

Lemma add_edges_from_same_nodes ebunch attr_dict attr g0 :
  preserves (same_nodes g0) (add_edges_from ebunch attr_dict attr).
Proof.
  unfold add_edges_from. apply preserves_for_each. intros e.
  apply preserves_bind.
  { destruct e; by intros g Hg. }
  intros [[[u v] key] dd].
  apply preserves_bind; [intros g Hg; unfold exec, assert; by case_bool_decide|intros _].
  apply preserves_bind; [by intros g Hg|intros layers].
  apply preserves_bind; [intros g Hg; unfold exec; by rewrite assert_layers_state|intros ls].
  apply preserves_bind.
  { intros g Hg. destruct (_ !! "layers") as [al|]; [|done].
    destruct (truthy al); [unfold exec; by rewrite assert_layers_state|done]. }
  intros additional_layers g Hg.
  unfold exec. unfold bind at 1. unfold get.
  apply (exec_bind (same_nodes g0)).
  - case_decide; [|done]. destruct (adj_ref g u v) as [l|] eqn:Href; [|done].
    by case_match.
  - intros _. apply preserves_bind; [by intros g' Hg'|intros existing_layers].
    apply add_edge_same_nodes.
Qed.

Lemma add_precedence_relations_same_nodes g0 :
  preserves (same_nodes g0) add_precedence_relations.
Proof.
  unfold add_precedence_relations.
  apply preserves_bind; [by intros g Hg|intros g].
  apply preserves_bind; [intros g' Hg; unfold exec, assert; by case_bool_decide|intros _].
  apply preserves_bind; [by intros g' Hg|intros t0].
  apply preserves_bind; [apply add_edge_same_nodes|intros _].
  apply preserves_for_each. intros [i token_node_id].
  apply preserves_bind; [by intros g' Hg|intros ti].
  apply add_edge_same_nodes.
Qed.

(** X5: The edge methods never create a node and never touch a node's
    attributes, whether they return or raise. *)
Theorem edge_methods_add_no_nodes g u v layers key attr_dict attr ebunch :
  same_nodes g (exec (add_edge u v layers key attr_dict attr) g) ∧
  same_nodes g (exec (add_edges_from ebunch attr_dict attr) g) ∧
  same_nodes g (exec add_precedence_relations g).
Proof.
  assert (same_nodes g g) as Hg by done.
  split; [|split].
  - by apply add_edge_same_nodes.
  - by apply add_edges_from_same_nodes.
  - by apply add_precedence_relations_same_nodes.
Qed.

(** ** The outcome of [add_edge] *)

Lemma is_layer_set_VSet layers :
  is_layer_set layers = true → ∃ ls, layers = VSet ls ∧ all_str ls = true.
Proof. destruct layers; try done. intros Hls. by eexists. Qed.

Lemma add_edge_existing g u v ls key attr_dict attr l s0 :
  let key' := match key with Some k => k | None => AInt (new_key (deref g l)) end in
  adj_ref g u v = Some l → u ∈ dom (succ g) → v ∈ dom (succ g) →
  as_set (get_layers (default ∅ (deref g l !! key'))) = Ok s0 →
  all_str ls = true →
  add_edge u v (VSet ls) key attr_dict attr g =
  (Ok tt, set_heap <[l := <[key' := update (update (default ∅ (deref g l !! key'))
                                                   (effective (CallArgs ls attr_dict attr)))
                                      {["layers" := VSet (s0 ∪ ls)]}]>
                           (deref g l)]> g).
Proof.
  intros key' Href Hu Hv Hs0 Hls.
  unfold add_edge, assert_layers, bind, get, assert, modify, ret, lift. simpl.
  rewrite Hls. simpl. rewrite !bool_decide_eq_true_2 by done. simpl.
  rewrite Href. fold key'. rewrite Hs0. by destruct attr_dict.
Qed.

Lemma add_edge_new g u v ls key attr_dict attr :
  adj_ref g u v = None → u ∈ dom (succ g) → v ∈ dom (succ g) →
  v ∈ dom (pred g) → all_str ls = true →
  add_edge u v (VSet ls) key attr_dict attr g =
  (Ok tt,
   set_pred (alter <[u := fresh (dom (heap g))]> v)
     (set_succ (alter <[v := fresh (dom (heap g))]> u)
       (set_heap <[fresh (dom (heap g)) :=
                    {[default (AInt 0) key := effective (CallArgs ls attr_dict attr)]}]> g))).
Proof.
  intros Href Hu Hv Hp Hls.
  unfold add_edge, assert_layers, bind, get, assert, modify, ret, lift, alloc. simpl.
  rewrite Hls. simpl. rewrite !bool_decide_eq_true_2 by done. simpl.
  rewrite Href. simpl. rewrite decide_True by done.
  unfold update at 1. rewrite (right_id_L ∅ (∪)). by destruct attr_dict.
Qed.

(** An argument that is not a set of strings, or an end that is not a node. *)
Lemma add_edge_rejects g u v layers key attr_dict attr :
  is_layer_set layers = false ∨ u ∉ dom (succ g) ∨ v ∉ dom (succ g) →
  add_edge u v layers key attr_dict attr g = (Raise AssertionError, g).
Proof.
  intros Hbad. unfold add_edge. unfold bind at 1.
  destruct (is_layer_set layers) eqn:Hls.
  - destruct (assert_layers_valid layers g Hls) as (ls & -> & ->).
    unfold bind, get, assert, lift, modify, throw, ret. simpl.
    destruct Hbad as [?|[Hu|Hv]]; [done| |].
    + by rewrite bool_decide_eq_false_2.
    + case_bool_decide; simpl; [|done]. by rewrite bool_decide_eq_false_2.
  - by rewrite (assert_layers_invalid layers g Hls).
Qed.

Lemma existing_layers_Ok g l key :
  (∀ l kd k d, heap g !! l = Some kd → kd !! k = Some d → has_layers d) →
  ∃ s0, as_set (get_layers (default ∅ (deref g l !! key))) = Ok s0.
Proof.
  intros Hel. unfold deref, get_layers.
  destruct (heap g !! l) as [kd|] eqn:Hl; simpl.
  - destruct (kd !! key) as [d|] eqn:Hd; simpl.
    + destruct (Hel _ _ _ _ Hl Hd) as (s & -> & Hs). by eexists.
    + rewrite lookup_empty. by eexists.
  - rewrite !lookup_empty. by eexists.
Qed.

Lemma has_layers_effective c : all_str (arg_layers c) = true → has_layers (effective c).
Proof. intros Hls. eexists. split; [apply effective_layers|done]. Qed.

(** On a consistent graph [add_edge] writes one attribute dictionary: under
    the given key, or under a key that was free. *)
Lemma add_edge_effect g u v layers key attr_dict attr :
  consistent g → is_layer_set layers = true →
  u ∈ dom (succ g) → v ∈ dom (succ g) →
  ∃ k d g',
    add_edge u v layers key attr_dict attr g = (Ok tt, g') ∧
    (key = Some k ∨ (key = None ∧ keydict_of g u v !! k = None)) ∧
    has_layers d ∧
    ∀ u' v', keydict_of g' u' v' =
      if decide (u = u' ∧ v = v') then <[k := d]> (keydict_of g u v)
      else keydict_of g u' v'.
Proof.
  intros [Hwf Hn Hnl Hel] (ls & -> & Hls)%is_layer_set_VSet Hu Hv.
  destruct (adj_ref g u v) as [l|] eqn:Href.
  - set (key' := match key with Some k => k | None => AInt (new_key (deref g l)) end).
    destruct (existing_layers_Ok g l key' Hel) as (s0 & Hs0).
    eexists key', _, _. split; [by apply add_edge_existing|].
    split; [|split].
    + destruct key as [k|]; [by left|right]. split; [done|].
      unfold keydict_of. rewrite Href. apply new_key_not_used.
    + apply has_layers_update, all_str_union; [|done].
      by eapply existing_layers_all_str.
    + intros u' v'. rewrite keydict_of_set_heap.
      case_decide as Huv.
      * destruct Huv as [<- <-]. rewrite Href. rewrite decide_True by done.
        unfold keydict_of. by rewrite Href.
      * unfold keydict_of. destruct (adj_ref g u' v') as [l'|] eqn:Href'; [|done].
        rewrite decide_False; [done|]. intros <-.
        destruct (wf_inj g Hwf _ _ _ _ _ Href Href'). naive_solver.
  - eexists (default (AInt 0) key), _, _.
    split; [apply add_edge_new; try done; by rewrite (wf_dom g Hwf)|].
    split; [|split].
    + destruct key as [k|]; [by left|right]. split; [done|].
      unfold keydict_of. by rewrite Href.
    + by apply (has_layers_effective (CallArgs ls attr_dict attr)).
    + intros u' v'. rewrite keydict_of_new_edge by done.
      case_decide; [|done]. unfold keydict_of. rewrite Href.
      by rewrite insert_empty.
Qed.

(** X6: On a graph the methods have built, [add_edge] returns exactly when
    [layers] is a set of strings and both ends are nodes of the graph.
    Otherwise it raises the assertion error and leaves the graph as it was:
    a node is never created on the way. *)
Theorem add_edge_returns_iff nm nsp r toks cs u v layers key attr_dict attr :
  let g := run_calls cs (empty_graph nm nsp r toks) in
  (outcome (add_edge u v layers key attr_dict attr) g = Ok tt
   ↔ is_layer_set layers = true ∧ u ∈ dom (node g) ∧ v ∈ dom (node g)) ∧
  (outcome (add_edge u v layers key attr_dict attr) g = Ok tt ∨
   add_edge u v layers key attr_dict attr g = (Raise AssertionError, g)).
Proof.
  intros g. pose proof (consistent_run_calls nm nsp r toks cs) as Hc. fold g in Hc.
  pose proof (c_nodes g Hc) as Hn.
  destruct (decide (is_layer_set layers = true ∧ u ∈ dom (node g) ∧ v ∈ dom (node g)))
    as [(Hls & Hu & Hv)|Hbad].
  - rewrite Hn in Hu, Hv.
    destruct (add_edge_effect g u v layers key attr_dict attr Hc Hls Hu Hv)
      as (k & d & g' & Hadd & _).
    unfold outcome. rewrite Hadd. split; [|by left]. split; [|done].
    intros _. by rewrite Hn.
  - assert (add_edge u v layers key attr_dict attr g = (Raise AssertionError, g)) as Hadd.
    { apply add_edge_rejects. rewrite <- Hn.
      destruct (is_layer_set layers); [|by left]. right.
      destruct (decide (u ∈ dom (node g))); [|by left]. right. naive_solver. }
    unfold outcome. rewrite Hadd. split; [|by right]. split; [done|]. naive_solver.
Qed.

(** X7: On a graph the methods have built, a call of [add_edge] that returns
    adds at most one edge: none when the key is in use between the two
    nodes (that edge is updated), one otherwise.  The other edges between
    the two nodes and all edges between other nodes stay as they are. *)
Theorem add_edge_adds_at_most_one nm nsp r toks cs u v layers key attr_dict attr :
  let g := run_calls cs (empty_graph nm nsp r toks) in
  let g' := exec (add_edge u v layers key attr_dict attr) g in
  is_layer_set layers = true → u ∈ dom (node g) → v ∈ dom (node g) →
  number_of_edges g' u v =
    match key with
    | Some k => if decide (k ∈ dom (keydict_of g u v)) then number_of_edges g u v
                else S (number_of_edges g u v)
    | None => S (number_of_edges g u v)
    end ∧
  (∀ k d, key ≠ Some k → succ_edge g u v k = Some d → succ_edge g' u v k = Some d) ∧
  (∀ u' v' k, (u', v') ≠ (u, v) → succ_edge g' u' v' k = succ_edge g u' v' k).
Proof.
  intros g g' Hls Hu Hv.
  pose proof (consistent_run_calls nm nsp r toks cs) as Hc. fold g in Hc.
  rewrite (c_nodes g Hc) in Hu, Hv.
  destruct (add_edge_effect g u v layers key attr_dict attr Hc Hls Hu Hv)
    as (k & d & g1 & Hadd & Hkey & _ & Hkd).
  assert (g' = g1) as -> by (unfold g', exec; by rewrite Hadd).
  split; [|split].
  - unfold number_of_edges. rewrite Hkd, decide_True by done.
    destruct Hkey as [->|[-> Hfree]].
    + case_decide as Hin.
      * apply elem_of_dom in Hin as [d0 Hd0]. by apply map_size_insert_Some.
      * apply not_elem_of_dom in Hin. by apply map_size_insert_None.
    + by apply map_size_insert_None.
  - intros k' d' Hk'. rewrite <- !keydict_of_succ_edge.
    rewrite Hkd, decide_True by done. intros Hd'.
    rewrite lookup_insert_ne; [done|]. intros <-.
    destruct Hkey as [->|[-> Hfree]]; [done|congruence].
  - intros u' v' k' Hne.
    assert (keydict_of g1 u' v' = keydict_of g u' v') as Heq.
    { rewrite Hkd. rewrite decide_False; [done|]. naive_solver. }
    destruct (succ_edge g u' v' k') as [d'|] eqn:Hd'.
    + apply keydict_of_succ_edge. rewrite Heq. by apply keydict_of_succ_edge.
    + destruct (succ_edge g1 u' v' k') as [d''|] eqn:Hd''; [|done].
      apply keydict_of_succ_edge in Hd''. rewrite Heq in Hd''.
      apply keydict_of_succ_edge in Hd''. congruence.
Qed.

Lemma add_edge_adds_at_most_one_witness :
  let g := run_calls [AddNodesFrom [Examples.plain "u"; Examples.plain "v"] ∅;
                      AddEdge (AStr "u") (AStr "v") (Examples.L ["a"]) (Some (AInt 5)) None ∅]
             (empty_graph "doc" "ex" (AStr "root") []) in
  let g' := exec (add_edge (AStr "u") (AStr "v") (Examples.L ["b"]) (Some (AInt 5)) None ∅) g in
  (is_layer_set (Examples.L ["b"]) = true ∧ AStr "u" ∈ dom (node g) ∧ AStr "v" ∈ dom (node g)) ∧
  number_of_edges g' (AStr "u") (AStr "v") = number_of_edges g (AStr "u") (AStr "v").
Proof.
  cbv zeta. split; [compute_done|].
  refine (proj1 (add_edge_adds_at_most_one "doc" "ex" (AStr "root") []
    [AddNodesFrom [Examples.plain "u"; Examples.plain "v"] ∅;
     AddEdge (AStr "u") (AStr "v") (Examples.L ["a"]) (Some (AInt 5)) None ∅]
    (AStr "u") (AStr "v") (Examples.L ["b"]) (Some (AInt 5)) None ∅ _ _ _)).
  - compute_done.
  - compute_done.
  - compute_done.
Defined.

(** ** Node lists *)

Lemma invalid_node_raises n nodes attr g :
  invalid_node n = true →
  add_nodes_from (n :: nodes) attr g = (Raise AssertionError, g).
Proof.
  destruct n as [node_id ndict]. unfold invalid_node. simpl. intros Hbad.
  unfold add_nodes_from. rewrite for_each_cons.
  unfold bind, get, assert, lift, modify, throw, ret. simpl.
  destruct (ndict !! "layers") as [layers|] eqn:Hl.
  - rewrite bool_decide_eq_true_2 by (apply elem_of_dom; eauto). simpl.
    apply negb_true_iff in Hbad. by rewrite (assert_layers_invalid _ _ Hbad).
  - by rewrite bool_decide_eq_false_2 by (by apply not_elem_of_dom).
Qed.

(** X8: [add_nodes_from] checks an entry when the loop reaches it: the entries
    in front of an invalid one have been added, the assertion error is
    raised at the invalid one, and the entries behind it are not looked
    at. *)
Theorem add_nodes_from_stops_at_invalid_node pre bad post attr g :
  invalid_node bad = true →
  add_nodes_from (pre ++ bad :: post) attr g =
  match add_nodes_from pre attr g with
  | (Ok _, g') => (Raise AssertionError, g')
  | (Raise e, g') => (Raise e, g')
  end.
Proof.
  intros Hbad. unfold add_nodes_from at 1. rewrite for_each_app.
  fold (add_nodes_from pre attr).
  destruct (add_nodes_from pre attr g) as [[[]|e] g']; [|done].
  by apply (invalid_node_raises bad post attr g').
Qed.

Lemma add_nodes_from_stops_at_invalid_node_witness :
  let g := Examples.doc [] in
  invalid_node (AStr "b", ∅) = true ∧
  add_nodes_from ([Examples.plain "a"] ++ (AStr "b", ∅) :: [Examples.plain "c"]) ∅ g =
  match add_nodes_from [Examples.plain "a"] ∅ g with
  | (Ok _, g') => (Raise AssertionError, g')
  | (Raise e, g') => (Raise e, g')
  end.
Proof.
  split; [reflexivity|].
  apply (add_nodes_from_stops_at_invalid_node [Examples.plain "a"] (AStr "b", ∅)
           [Examples.plain "c"] ∅ (Examples.doc [])).
  reflexivity.
Defined.

(** ** Lists with one entry *)

Lemma update_empty_l {K A} `{Countable K} (d : gmap K A) : update ∅ d = d.
Proof. unfold update. apply (right_id_L ∅ (∪)). Qed.

Lemma update_empty_r {K A} `{Countable K} (d : gmap K A) : update d ∅ = d.
Proof. unfold update. apply (left_id_L ∅ (∪)). Qed.

Lemma update_layers_id (d : attrs) layers :
  d !! "layers" = Some layers → update d {["layers" := layers]} = d.
Proof.
  intros Hd. unfold update. apply map_eq. intros i. rewrite lookup_union.
  destruct (decide (i = "layers")) as [->|Hne].
  - by rewrite lookup_singleton_eq, Hd.
  - rewrite lookup_singleton_ne by done. by destruct (d !! i).
Qed.

Lemma update_delete_layers (nd d : attrs) v :
  update (update nd (delete "layers" d)) {["layers" := v]}
  = update (update nd d) {["layers" := v]}.
Proof.
  unfold update. apply map_eq. intros i. rewrite !lookup_union.
  destruct (decide (i = "layers")) as [->|Hne].
  - rewrite lookup_singleton_eq. by rewrite !union_Some_l.
  - by rewrite lookup_delete_ne.
Qed.

(** X9: A node list with one entry and no shared attributes does what
    [add_node] does with the entry's dictionary as [attr_dict]. *)
Theorem add_nodes_from_one_is_add_node g n ndict layers :
  ndict !! "layers" = Some layers →
  add_nodes_from [(n, ndict)] ∅ g = add_node n layers (Some ndict) ∅ g.
Proof.
  intros Hl. unfold add_nodes_from, add_node. cbn [for_each].
  unfold bind at 1 2 3. unfold assert at 1.
  rewrite bool_decide_eq_true_2 by (apply elem_of_dom; eauto).
  unfold ret at 1. unfold lift at 1. rewrite Hl. cbn [or_raise].
  destruct (assert_layers layers g) as [[ls|e] g1] eqn:Hal.
  2:{ unfold bind. by rewrite Hal. }
  pose proof Hal as (-> & Hls & ->)%assert_layers_Ok.
  rewrite !update_empty_l, (update_layers_id ndict _ Hl).
  unfold bind, get, lift, modify, ret, throw. rewrite Hal. simpl.
  case_decide as Hn.
  - destruct (node g !! n) as [nd|]; simpl; [|done].
    destruct (nd !! "layers") as [existing|]; simpl; [|done].
    destruct (as_set existing) as [s0|]; simpl; [|done].
    by rewrite update_empty_r, update_delete_layers.
  - done.
Qed.

Lemma add_nodes_from_one_is_add_node_witness :
  add_nodes_from [Examples.token "t1" "a"] ∅ Examples.two_nodes =
  add_node (AStr "t1") (Examples.L ["ex"; "ex:token"])
    (Some (Examples.token "t1" "a").2) ∅ Examples.two_nodes.
Proof.
  apply (add_nodes_from_one_is_add_node Examples.two_nodes (AStr "t1")
           (Examples.token "t1" "a").2 (Examples.L ["ex"; "ex:token"])).
  reflexivity.
Defined.

Lemma bind_ret_tt (m : M unit) g : (m ;; ret tt) g = m g.
Proof. unfold bind, ret. by destruct (m g) as [[[]|?] ?]. Qed.

Lemma new_key_empty : new_key ∅ = 0.
Proof. unfold new_key. by rewrite map_size_empty. Qed.

Lemma effective_delete_layers ls (d a : attrs) :
  effective (CallArgs ls (Some (delete "layers" d)) a) = effective (CallArgs ls (Some d) a).
Proof.
  unfold effective, update. simpl. apply map_eq. intros i. rewrite !lookup_union.
  destruct (decide (i = "layers")) as [->|Hne].
  - rewrite lookup_singleton_eq. by rewrite !union_Some_l.
  - by rewrite lookup_delete_ne.
Qed.

Lemma effective_own_layers ls (d : attrs) :
  d !! "layers" = Some (VSet ls) → effective (CallArgs ls (Some d) ∅) = d.
Proof.
  intros Hd. unfold effective. simpl. rewrite update_empty_l.
  by apply update_layers_id.
Qed.

Lemma update_update_same (d e : attrs) s s' :
  update (update (update (update d e) {["layers" := VSet s]}) e) {["layers" := VSet s']}
  = update (update d e) {["layers" := VSet s']}.
Proof.
  unfold update. apply map_eq. intros i. rewrite !lookup_union.
  destruct (decide (i = "layers")) as [->|Hne].
  - rewrite !lookup_singleton_eq. by rewrite !union_Some_l.
  - rewrite !lookup_singleton_ne by done. by destruct (e !! i), (d !! i).
Qed.

Lemma set_heap_id g l kd : heap g !! l = Some kd → set_heap <[l := kd]> g = g.
Proof. intros Hl. destruct g. unfold set_heap. simpl in *. f_equal. by apply insert_id. Qed.

Lemma set_node_id g n nd : node g !! n = Some nd → set_node <[n := nd]> g = g.
Proof. intros Hl. destruct g. unfold set_node. simpl in *. f_equal. by apply insert_id. Qed.

(** ** Calls repeated with the same arguments *)

Lemma add_node_rejects g n layers attr_dict attr :
  is_layer_set layers = false →
  add_node n layers attr_dict attr g = (Raise AssertionError, g).
Proof.
  intros Hbad. unfold add_node, bind. by rewrite (assert_layers_invalid _ _ Hbad).
Qed.

Lemma add_node_unchanged_or_applies g n ls attr_dict attr :
  exec (add_node n (VSet ls) attr_dict attr) g = g ∨
  n ∉ dom (succ g) ∨
  (n ∈ dom (succ g) ∧ ∃ nd s0, node g !! n = Some nd ∧ nd !! "layers" = Some (VSet s0)).
Proof.
  destruct (decide (n ∈ dom (succ g))) as [Hn|Hn]; [|by right; left].
  destruct (node g !! n) as [nd|] eqn:Hnd.
  - destruct (nd !! "layers") as [existing|] eqn:Hex.
    + destruct (isinstance_set existing) eqn:Hset.
      * right. right. destruct existing; try done. eauto.
      * left. unfold exec, add_node, assert_layers, bind, get, assert, modify, ret, lift, throw.
        simpl. destruct (all_str ls); simpl; [|done].
        rewrite decide_True by done. rewrite Hnd. simpl. rewrite Hex. simpl.
        by destruct existing.
    + left. unfold exec, add_node, assert_layers, bind, get, assert, modify, ret, lift, throw.
      simpl. destruct (all_str ls); simpl; [|done].
      rewrite decide_True by done. rewrite Hnd. simpl. by rewrite Hex.
  - left. unfold exec, add_node, assert_layers, bind, get, assert, modify, ret, lift, throw.
    simpl. destruct (all_str ls); simpl; [|done].
    rewrite decide_True by done. by rewrite Hnd.
Qed.

Lemma add_node_new_node g n ls attr_dict attr :
  n ∉ dom (succ g) → all_str ls = true →
  add_node n (VSet ls) attr_dict attr g =
  (Ok tt, set_node <[n := effective (CallArgs ls attr_dict attr)]>
            (set_pred <[n := ∅]> (set_succ <[n := ∅]> g))).
Proof. exact (add_node_new g n (CallArgs ls attr_dict attr)). Qed.

Lemma add_node_old_node g n ls attr_dict attr nd s0 :
  n ∈ dom (succ g) → node g !! n = Some nd → nd !! "layers" = Some (VSet s0) →
  all_str ls = true →
  add_node n (VSet ls) attr_dict attr g =
  (Ok tt, set_node <[n := update (update nd (delete "layers"
                                      (effective (CallArgs ls attr_dict attr))))
                                {["layers" := VSet (s0 ∪ ls)]}]> g).
Proof. exact (add_node_existing g n (CallArgs ls attr_dict attr) nd s0). Qed.

Lemma add_node_twice g n layers attr_dict attr :
  exec (add_node n layers attr_dict attr) (exec (add_node n layers attr_dict attr) g)
  = exec (add_node n layers attr_dict attr) g.
Proof.
  destruct (is_layer_set layers) eqn:Hvalid.
  2:{ unfold exec. by rewrite !(add_node_rejects _ _ _ _ _ Hvalid). }
  apply is_layer_set_VSet in Hvalid as (ls & -> & Hls).
  set (c := CallArgs ls attr_dict attr).
  destruct (add_node_unchanged_or_applies g n ls attr_dict attr)
    as [Hsame|[Hnew|(Hn & nd & s0 & Hnd & Hs0)]].
  - by rewrite !Hsame.
  - unfold exec. rewrite (add_node_new_node g n ls attr_dict attr Hnew Hls).
    cbn [snd]. fold c.
    set (g1 := set_node <[n := effective c]> (set_pred <[n := ∅]> (set_succ <[n := ∅]> g))).
    assert (n ∈ dom (succ g1)) as Hn1.
    { unfold g1. cbn [succ set_node set_pred set_succ]. rewrite dom_insert_L. set_solver. }
    assert (node g1 !! n = Some (effective c)) as Hnd1.
    { unfold g1. cbn [node set_node]. apply lookup_insert_eq. }
    rewrite (add_node_old_node g1 n ls attr_dict attr (effective c) ls Hn1 Hnd1
               (effective_layers c) Hls).
    cbn [snd]. fold c. apply set_node_id. rewrite Hnd1. f_equal.
    unfold update. apply map_eq. intros i. rewrite !lookup_union.
    destruct (decide (i = "layers")) as [->|Hne].
    + rewrite lookup_singleton_eq, effective_layers.
      rewrite union_Some_l. do 2 f_equal. set_solver.
    + rewrite lookup_singleton_ne, lookup_delete_ne by done.
      by destruct (effective c !! i).
  - unfold exec. rewrite (add_node_old_node g n ls attr_dict attr nd s0 Hn Hnd Hs0 Hls).
    cbn [snd]. fold c.
    set (nd1 := update (update nd (delete "layers" (effective c)))
                       {["layers" := VSet (s0 ∪ ls)]}).
    set (g1 := set_node <[n := nd1]> g).
    assert (node g1 !! n = Some nd1) as Hnd1.
    { unfold g1. cbn [node set_node]. apply lookup_insert_eq. }
    assert (nd1 !! "layers" = Some (VSet (s0 ∪ ls))) as Hl1 by apply datadict_layers.
    assert (n ∈ dom (succ g1)) as Hn1 by (by unfold g1).
    rewrite (add_node_old_node g1 n ls attr_dict attr nd1 (s0 ∪ ls) Hn1 Hnd1 Hl1 Hls).
    cbn [snd]. fold c. apply set_node_id. rewrite Hnd1. apply (f_equal Some).
    unfold nd1. rewrite update_update_same.
    by replace (s0 ∪ ls ∪ ls) with (s0 ∪ ls) by set_solver.
Qed.

Lemma add_edge_twice g u v key layers attr_dict attr :
  consistent g →
  exec (add_edge u v layers (Some key) attr_dict attr)
       (exec (add_edge u v layers (Some key) attr_dict attr) g)
  = exec (add_edge u v layers (Some key) attr_dict attr) g.
Proof.
  intros [Hwf Hnodes Hnl Hel].
  destruct (decide (is_layer_set layers = true ∧ u ∈ dom (succ g) ∧ v ∈ dom (succ g)))
    as [(Hvalid & Hu & Hv)|Hbad].
  2:{ assert (add_edge u v layers (Some key) attr_dict attr g = (Raise AssertionError, g))
        as Hrej.
      { apply add_edge_rejects. destruct (is_layer_set layers); [|by left]. right.
        destruct (decide (u ∈ dom (succ g))); [|by left]. right. naive_solver. }
      unfold exec. rewrite Hrej. simpl. by rewrite Hrej. }
  apply is_layer_set_VSet in Hvalid as (ls & -> & Hls).
  set (c := CallArgs ls attr_dict attr).
  destruct (adj_ref g u v) as [l|] eqn:Href.
  - destruct (existing_layers_Ok g l key Hel) as (s0 & Hs0).
    unfold exec.
    rewrite (add_edge_existing g u v ls (Some key) attr_dict attr l s0 Href Hu Hv Hs0 Hls).
    cbn [snd]. fold c.
    set (d1 := update (update (default ∅ (deref g l !! key)) (effective c))
                      {["layers" := VSet (s0 ∪ ls)]}).
    set (g1 := set_heap <[l := <[key := d1]> (deref g l)]> g).
    assert (deref g1 l = <[key := d1]> (deref g l)) as Hderef.
    { unfold deref, g1. simpl. by rewrite lookup_insert_eq. }
    rewrite (add_edge_existing g1 u v ls (Some key) attr_dict attr l (s0 ∪ ls));
      try done.
    + cbn [snd]. fold c. rewrite Hderef, lookup_insert_eq. cbn [default from_option id].
      apply set_heap_id. unfold g1. cbn [heap set_heap]. rewrite lookup_insert_eq.
      apply (f_equal Some). rewrite insert_insert_eq. apply (f_equal (λ d, <[key := d]> _)).
      unfold d1. rewrite update_update_same.
      by replace (s0 ∪ ls ∪ ls) with (s0 ∪ ls) by set_solver.
    + rewrite Hderef, lookup_insert_eq. cbn [default from_option id].
      unfold get_layers, d1. by rewrite datadict_layers.
  - assert (v ∈ dom (pred g)) as Hp by (by rewrite (wf_dom g Hwf)).
    unfold exec.
    rewrite (add_edge_new g u v ls (Some key) attr_dict attr Href Hu Hv Hp Hls).
    cbn [snd default from_option id]. fold c.
    set (l := fresh (dom (heap g))).
    set (g1 := set_pred (alter <[u := l]> v)
                 (set_succ (alter <[v := l]> u)
                   (set_heap <[l := {[key := effective c]}]> g))).
    assert (adj_ref g1 u v = Some l) as Href1.
    { unfold adj_ref, g1. simpl. rewrite lookup_alter_insert by done.
      by rewrite decide_True. }
    assert (deref g1 l = {[key := effective c]}) as Hderef.
    { unfold deref, g1. simpl. by rewrite lookup_insert_eq. }
    rewrite (add_edge_existing g1 u v ls (Some key) attr_dict attr l ls); try done.
    + cbn [snd]. fold c. rewrite Hderef, lookup_singleton_eq. cbn [default from_option id].
      apply set_heap_id. unfold g1. simpl. rewrite lookup_insert_eq. f_equal.
      rewrite insert_singleton_eq. f_equal.
      unfold update. apply map_eq. intros i. rewrite !lookup_union.
      destruct (decide (i = "layers")) as [->|Hne].
      * rewrite lookup_singleton_eq, effective_layers. simpl.
        rewrite union_Some_l. do 2 f_equal. set_solver.
      * rewrite lookup_singleton_ne by done. by destruct (effective _ !! i).
    + unfold g1. simpl. by rewrite dom_alter_L.
    + unfold g1. simpl. by rewrite dom_alter_L.
    + rewrite Hderef, lookup_singleton_eq. cbn [default from_option id].
      unfold get_layers. by rewrite effective_layers.
Qed.

(** X10: A call of [add_node], and on a graph the methods have built a call of
    [add_edge] with a key, can be repeated with the same arguments: the
    second call leaves the graph as the first one left it. *)
Theorem repeated_call_changes_nothing nm nsp r toks cs g0 n u v key layers attr_dict attr :
  let g := run_calls cs (empty_graph nm nsp r toks) in
  let once_n := exec (add_node n layers attr_dict attr) g0 in
  let once_e := exec (add_edge u v layers (Some key) attr_dict attr) g in
  exec (add_node n layers attr_dict attr) once_n = once_n ∧
  exec (add_edge u v layers (Some key) attr_dict attr) once_e = once_e.
Proof.
  intros g once_n once_e. split.
  - apply add_node_twice.
  - apply add_edge_twice, consistent_run_calls.
Qed.

(** ** Edge bunches with one entry *)

Lemma add_edge_delete_layers g u v ls key (d : attrs) attr :
  add_edge u v (VSet ls) key (Some (delete "layers" d)) attr g
  = add_edge u v (VSet ls) key (Some d) attr g.
Proof.
  unfold add_edge. cbv zeta.
  replace (update (delete "layers" d) (update attr {["layers" := VSet ls]}))
    with (update d (update attr {["layers" := VSet ls]})); [done|].
  exact (eq_sym (effective_delete_layers ls d attr)).
Qed.

(** The key [add_edges_from] picks for an entry without a key is the key
    [add_edge] would pick. *)
Lemma add_edge_picked_key g u v layers attr_dict attr :
  add_edge u v layers (Some (AInt (new_key (keydict_of g u v)))) attr_dict attr g
  = add_edge u v layers None attr_dict attr g.
Proof.
  unfold add_edge, keydict_of.
  destruct (assert_layers layers g) as [[ls|e] g1] eqn:Hal.
  2:{ unfold bind. by rewrite Hal. }
  pose proof Hal as (-> & Hls & ->)%assert_layers_Ok.
  unfold bind, get, assert, lift, modify, throw, ret, alloc. rewrite Hal. simpl.
  case_bool_decide; simpl; [|done]. case_bool_decide; simpl; [|done].
  destruct (adj_ref g u v) as [l|]; [done|]. by rewrite new_key_empty.
Qed.

Lemma keydict_of_guarded g u v :
  match (if decide (u ∈ dom (succ g)) then adj_ref g u v else None) with
  | Some l => deref g l
  | None => ∅
  end = keydict_of g u v.
Proof.
  unfold keydict_of. case_decide as Hu; [done|].
  unfold adj_ref. apply not_elem_of_dom in Hu. by rewrite Hu.
Qed.

Lemma add_edges_from_one g u v key dd layers :
  consistent g → dd !! "layers" = Some layers →
  add_edges_from [Edge4 u v key dd] None ∅ g = add_edge u v layers key (Some dd) ∅ g.
Proof.
  intros [Hwf Hn Hnl Hel] Hdd.
  unfold add_edges_from. cbn [for_each]. rewrite bind_ret_tt.
  unfold bind at 1. unfold ret at 1.
  unfold bind at 1. unfold assert at 1.
  rewrite bool_decide_eq_true_2 by (apply elem_of_dom; eauto). unfold ret at 1.
  unfold bind at 1. unfold lift at 1. rewrite Hdd. cbn [or_raise].
  unfold bind at 1.
  destruct (assert_layers layers g) as [[ls|e] g1] eqn:Hal.
  2:{ unfold add_edge, bind. by rewrite Hal. }
  apply assert_layers_Ok in Hal as (-> & Hls & ->).
  rewrite lookup_empty. unfold bind at 1. unfold ret at 1.
  unfold bind at 1. unfold get at 1.
  remember (if decide (u ∈ dom (succ g)) then adj_ref g u v else None) as ref eqn:Href.
  remember (match ref with Some l => deref g l | None => ∅ end) as kd eqn:Hkd.
  assert (kd = keydict_of g u v) as Hkd'.
  { rewrite Hkd, Href. apply keydict_of_guarded. }
  remember (match key with Some k => k | None => AInt (new_key kd) end) as key' eqn:Hkey.
  rewrite !(right_id_L ∅ (∪)).
  destruct (kd !! key') as [old|] eqn:Hold.
  - assert (∃ l, ref = Some l ∧ adj_ref g u v = Some l) as (l & -> & Hl).
    { destruct ref as [l|]; [|by rewrite Hkd, lookup_empty in Hold].
      exists l. split; [done|]. by case_decide. }
    subst kd.
    assert (has_layers old) as (s0 & Hs0 & Hall0).
    { unfold deref in Hold. destruct (heap g !! l) as [kd|] eqn:Hhl; simpl in Hold.
      - by eapply Hel.
      - by rewrite lookup_empty in Hold. }
    destruct (wf_adj_target g u v l Hwf Hl) as [Hu Hv].
    cbn [default from_option id]. unfold get_layers at 1. rewrite Hs0.
    cbn [default from_option id as_set].
    unfold bind at 1. unfold modify at 1. unfold bind at 1. unfold lift at 1.
    pose proof (update_in_place_then_add g u v l key' old ∅ dd s0 ls ∅ Hwf Hl Hold Hs0
                  Hdd Hall0 Hls all_str_empty) as Hleft.
    rewrite !(right_id_L ∅ (∪)) in Hleft. rewrite Hleft.
    assert (as_set (get_layers (default ∅ (deref g l !! key'))) = Ok s0) as Hex.
    { rewrite Hold. cbn [default from_option id]. unfold get_layers. by rewrite Hs0. }
    assert (key' = match key with Some k => k | None => AInt (new_key (deref g l)) end)
      as Hkey'' by done.
    pose proof (add_edge_existing g u v ls key (Some dd) ∅ l s0 Hl Hu Hv) as Hright.
    cbv zeta in Hright. rewrite <- Hkey'' in Hright. rewrite (Hright Hex Hls).
    by rewrite update_empty_l, (effective_own_layers ls dd Hdd).
  - cbn [default from_option id]. unfold get_layers at 1. rewrite lookup_empty.
    cbn [default from_option id as_set].
    clear Href Hkd. destruct ref.
    all: unfold bind at 1; unfold ret at 1; unfold bind at 1; unfold lift at 1.
    all: rewrite !update_empty_l, (left_id_L ∅ (∪)), add_edge_delete_layers.
    all: destruct key as [k|]; [by subst|]; subst key'; rewrite Hkd'.
    all: apply add_edge_picked_key.
Qed.

(** X11: On a graph the methods have built, an edge bunch with one entry and no
    shared attributes does what [add_edge] does with the entry's dictionary
    as [attr_dict], with the entry's key or without one. *)
Theorem add_edges_from_one_is_add_edge nm nsp r toks cs u v key dd layers :
  let g := run_calls cs (empty_graph nm nsp r toks) in
  dd !! "layers" = Some layers →
  add_edges_from [Edge4 u v key dd] None ∅ g = add_edge u v layers key (Some dd) ∅ g ∧
  add_edges_from [Edge3 u v dd] None ∅ g = add_edge u v layers None (Some dd) ∅ g.
Proof.
  intros g Hdd. pose proof (consistent_run_calls nm nsp r toks cs) as Hc. fold g in Hc.
  split.
  - by apply add_edges_from_one.
  - exact (add_edges_from_one g u v None dd layers Hc Hdd).
Qed.

Lemma add_edges_from_one_is_add_edge_witness :
  let g := run_calls
             [AddNodesFrom [Examples.plain "u"; Examples.plain "v"] ∅;
              AddEdge (AStr "u") (AStr "v") (Examples.L ["a"]) (Some (AInt 0)) None ∅]
             (empty_graph "doc" "ex" (AStr "root") []) in
  let dd : attrs := {["layers" := Examples.L ["b"]; "weight" := VInt 3]} in
  dd !! "layers" = Some (Examples.L ["b"]) ∧
  add_edges_from [Edge4 (AStr "u") (AStr "v") (Some (AInt 0)) dd] None ∅ g
  = add_edge (AStr "u") (AStr "v") (Examples.L ["b"]) (Some (AInt 0)) (Some dd) ∅ g.
Proof.
  cbv zeta. split; [reflexivity|].
  refine (proj1 (add_edges_from_one_is_add_edge "doc" "ex" (AStr "root") []
    [AddNodesFrom [Examples.plain "u"; Examples.plain "v"] ∅;
     AddEdge (AStr "u") (AStr "v") (Examples.L ["a"]) (Some (AInt 0)) None ∅]
    (AStr "u") (AStr "v") (Some (AInt 0))
    {["layers" := Examples.L ["b"]; "weight" := VInt 3]} (Examples.L ["b"]) _)).
  reflexivity.
Defined.

(** ** Queries over the layers *)

Lemma get_annotation_layers_acc (l : list (atom * attrs)) :
  Forall (λ p, has_layers p.2) l →
  ∀ acc, ∃ s,
    foldM (λ all_layers '(node_id, node_attribs),
      layers ← or_raise KeyError (node_attribs !! "layers");
      ls ← iter_set layers;
      Ok (all_layers ∪ ls)) acc l = Ok s ∧
    ∀ a, a ∈ s ↔
      a ∈ acc ∨ ∃ n nd ls, (n, nd) ∈ l ∧ nd !! "layers" = Some (VSet ls) ∧ a ∈ ls.
Proof.
  induction 1 as [|[n nd] l (ls & Hls & Hall) _ IH]; intros acc.
  - exists acc. split; [done|]. intros a. split; [by left|].
    intros [?|(? & ? & ? & Hin & _)]; [done|]. by apply elem_of_nil in Hin.
  - simpl in Hls. destruct (IH (acc ∪ ls)) as (s & Hs & Hmem).
    exists s. split.
    + rewrite foldM_cons. simpl. rewrite Hls. simpl. exact Hs.
    + intros a. rewrite Hmem. split.
      * intros [[?|Ha]%elem_of_union|(n' & nd' & ls' & Hin & Hl' & Ha)].
        -- by left.
        -- right. exists n, nd, ls. split; [apply list_elem_of_here|done].
        -- right. exists n', nd', ls'. split; [by apply list_elem_of_further|done].
      * intros [?|(n' & nd' & ls' & Hin & Hl' & Ha)]; [left; set_solver|].
        apply elem_of_cons in Hin as [[= -> ->]|Hin].
        -- left. rewrite Hls in Hl'. injection Hl' as <-. set_solver.
        -- right. by exists n', nd', ls'.
Qed.

Lemma annotation_layers_acc_total g :
  Forall (λ p : atom * attrs, has_layers p.2) (nodes g) →
  ∃ s, get_annotation_layers g = Ok s ∧
       ∀ a, a ∈ s ↔
         ∃ n nd ls, node g !! n = Some nd ∧ nd !! "layers" = Some (VSet ls) ∧ a ∈ ls.
Proof.
  intros Hall.
  destruct (get_annotation_layers_acc (nodes g) Hall ∅) as (s & Hs & Hmem).
  exists s. split; [done|]. intros a. rewrite Hmem. split.
  - intros [?|(n & nd & ls & Hin & Hl & Ha)]; [set_solver|].
    exists n, nd, ls. by apply elem_of_map_to_list in Hin.
  - intros (n & nd & ls & Hnd & Hl & Ha). right. exists n, nd, ls.
    split; [by apply elem_of_map_to_list|done].
Qed.

Lemma built_nodes_have_layers g :
  (∀ n nd, node g !! n = Some nd → has_layers nd) →
  Forall (λ p : atom * attrs, has_layers p.2) (nodes g).
Proof.
  intros Hnl. apply Forall_forall. intros [n nd] Hin.
  apply elem_of_map_to_list in Hin. by eapply Hnl.
Qed.

(** X12: On a graph the methods have built, [get_annotation_layers] returns: its
    result holds exactly the layers of the nodes, and all of them are
    strings. *)
Theorem annotation_layers_of_built_graph nm nsp r toks cs :
  let g := run_calls cs (empty_graph nm nsp r toks) in
  ∃ s, get_annotation_layers g = Ok s ∧
       set_Forall is_str s ∧
       ∀ a, a ∈ s ↔
         ∃ n nd ls, node g !! n = Some nd ∧ nd !! "layers" = Some (VSet ls) ∧ a ∈ ls.
Proof.
  intros g. destruct (consistent_run_calls nm nsp r toks cs) as [_ _ Hnl _].
  fold g in Hnl.
  destruct (annotation_layers_acc_total g (built_nodes_have_layers g Hnl)) as (s & Hs & Hs').
  exists s. split; [done|]. split; [|done].
  intros a (n & nd & ls & Hnd & Hl & Ha)%Hs'.
  destruct (Hnl n nd Hnd) as (ls' & Hl' & Hall).
  assert (ls' = ls) as -> by congruence.
  unfold all_str in Hall. apply bool_decide_eq_true in Hall. by apply Hall.
Qed.

Lemma select_nodes_by_layer_acc layer (l : list (atom * attrs)) :
  Forall (λ p, has_layers p.2) l →
  ∀ acc, ∃ sel,
    foldM (λ acc '(node_id, node_attribs),
      layers ← or_raise KeyError (node_attribs !! "layers");
      b ← contains layers layer;
      Ok (if b : bool then acc ++ [node_id] else acc)) acc l = Ok (acc ++ sel) ∧
    sel `sublist_of` l.*1 ∧
    ∀ n, n ∈ sel ↔
      ∃ nd ls, (n, nd) ∈ l ∧ nd !! "layers" = Some (VSet ls) ∧ layer ∈ ls.
Proof.
  induction 1 as [|[n nd] l (ls & Hls & Hall) _ IH]; intros acc.
  - exists []. split; [by rewrite app_nil_r|]. split; [done|].
    intros n. split; [by intros ?%elem_of_nil|].
    intros (? & ? & Hin & _). by apply elem_of_nil in Hin.
  - simpl in Hls. rewrite foldM_cons. simpl. rewrite Hls. simpl.
    case_bool_decide as Hin.
    + destruct (IH (acc ++ [n])) as (sel & Hsel & Hsub & Hmem).
      exists (n :: sel). split; [by rewrite Hsel, <- app_assoc|].
      split; [by apply sublist_skip|].
      intros n'. rewrite elem_of_cons, Hmem. split.
      * intros [->|(nd' & ls' & Hin' & Hl' & Hlayer)].
        -- exists nd, ls. split; [apply list_elem_of_here|done].
        -- exists nd', ls'. split; [by apply list_elem_of_further|done].
      * intros (nd' & ls' & Hin' & Hl' & Hlayer).
        apply elem_of_cons in Hin' as [[= -> ->]|Hin']; [by left|].
        right. by exists nd', ls'.
    + destruct (IH acc) as (sel & Hsel & Hsub & Hmem).
      exists sel. split; [done|]. split; [by apply sublist_cons|].
      intros n'. rewrite Hmem. split.
      * intros (nd' & ls' & Hin' & Hl' & Hlayer).
        exists nd', ls'. split; [by apply list_elem_of_further|done].
      * intros (nd' & ls' & Hin' & Hl' & Hlayer).
        apply elem_of_cons in Hin' as [[= -> ->]|Hin'].
        -- rewrite Hls in Hl'. injection Hl' as <-. done.
        -- by exists nd', ls'.
Qed.

(** X13: On a graph the methods have built, [select_nodes_by_layer] returns: it
    yields each node that has the layer once, and no other node.  A layer
    is among the annotation layers exactly when some node is selected for
    it. *)
Theorem nodes_of_a_layer nm nsp r toks cs layer :
  let g := run_calls cs (empty_graph nm nsp r toks) in
  ∃ sel, select_nodes_by_layer g layer = Ok sel ∧
         NoDup sel ∧
         (∀ n, n ∈ sel ↔
            ∃ nd ls, node g !! n = Some nd ∧ nd !! "layers" = Some (VSet ls) ∧
                     layer ∈ ls) ∧
         (sel ≠ [] ↔ ∃ s, get_annotation_layers g = Ok s ∧ layer ∈ s).
Proof.
  intros g. destruct (consistent_run_calls nm nsp r toks cs) as [_ _ Hnl _].
  fold g in Hnl.
  pose proof (built_nodes_have_layers g Hnl) as Hall.
  destruct (select_nodes_by_layer_acc layer (nodes g) Hall []) as (sel & Hsel & Hsub & Hmem).
  assert (∀ n, n ∈ sel ↔
    ∃ nd ls, node g !! n = Some nd ∧ nd !! "layers" = Some (VSet ls) ∧ layer ∈ ls)
    as Hmem'.
  { intros n. rewrite Hmem. split.
    - intros (nd & ls & Hin & Hl & Hlayer). exists nd, ls.
      by apply elem_of_map_to_list in Hin.
    - intros (nd & ls & Hnd & Hl & Hlayer). exists nd, ls.
      split; [by apply elem_of_map_to_list|done]. }
  exists sel. split; [done|]. split; [|split; [done|]].
  - exact (sublist_NoDup sel _ (NoDup_fst_map_to_list (node g)) Hsub).
  - destruct (annotation_layers_acc_total g Hall) as (s & Hs & Hs').
    split.
    + intros Hne. exists s. split; [done|]. apply Hs'.
      destruct sel as [|n sel]; [done|].
      destruct (proj1 (Hmem' n)) as (nd & ls & Hnd & Hl & Hlayer); [apply list_elem_of_here|].
      by exists n, nd, ls.
    + intros (s' & Hs'' & Hlayer). assert (s' = s) as -> by congruence.
      apply Hs' in Hlayer as (n & nd & ls & Hnd & Hl & Hlayer).
      assert (n ∈ sel) as Hin by (apply Hmem'; by exists nd, ls).
      intros ->. by apply elem_of_nil in Hin.
Qed.

(** ** Edges by type *)

Lemma elem_of_edges g u v d :
  (u, v, d) ∈ edges g ↔ ∃ k, succ_edge g u v k = Some d.
Proof.
  unfold edges. rewrite list_elem_of_bind. split.
  - intros ([n nbrs] & Hin & Hn). apply elem_of_map_to_list in Hn.
    unfold edges_of in Hin.
    apply list_elem_of_bind in Hin as ([nbr l] & Hin & Hnbr).
    apply elem_of_map_to_list in Hnbr.
    apply list_elem_of_bind in Hin as ([k data] & Hin & Hk).
    apply elem_of_map_to_list in Hk.
    apply list_elem_of_singleton in Hin. injection Hin as -> -> ->.
    exists k. unfold succ_edge, adj_ref. rewrite Hn. simpl. rewrite Hnbr. simpl.
    unfold deref in Hk. destruct (heap g !! l); simpl in *; [done|].
    by rewrite lookup_empty in Hk.
  - intros (k & Hk). unfold succ_edge, adj_ref in Hk.
    destruct (succ g !! u) as [nbrs|] eqn:Hu; [|done]. simpl in Hk.
    destruct (nbrs !! v) as [l|] eqn:Hv; [|done]. simpl in Hk.
    destruct (heap g !! l) as [kd|] eqn:Hl; [|done]. simpl in Hk.
    exists (u, nbrs). split; [|by apply elem_of_map_to_list].
    unfold edges_of. apply list_elem_of_bind. exists (v, l).
    split; [|by apply elem_of_map_to_list].
    apply list_elem_of_bind. exists (k, d).
    split; [by apply list_elem_of_singleton|].
    apply elem_of_map_to_list. unfold deref. by rewrite Hl.
Qed.

Lemma select_edges_typed edge_type (l : list (atom * atom * attrs)) :
  Forall (λ e, is_Some (e.2 !! "edge_type")) l →
  ∀ acc,
  foldM (λ acc '(from_id, to_id, edge_attribs),
    et ← or_raise KeyError (edge_attribs !! "edge_type");
    if decide (et = edge_type) then Ok (acc ++ [(from_id, to_id)]) else Ok acc)
    acc l
  = Ok (acc ++ (filter (λ e, e.2 !! "edge_type" = Some edge_type) l).*1).
Proof.
  induction 1 as [|[[u v] d] l [et Het] _ IH]; intros acc.
  - by rewrite app_nil_r.
  - simpl in Het. rewrite foldM_cons. simpl. rewrite Het. simpl.
    rewrite filter_cons. simpl. rewrite Het.
    destruct (decide (et = edge_type)) as [->|Hne]; simpl.
    + rewrite decide_True by done. rewrite IH. simpl. by rewrite <- app_assoc.
    + rewrite decide_False by congruence. apply IH.
Qed.

Lemma select_edges_untyped edge_type (l : list (atom * atom * attrs)) :
  Exists (λ e, e.2 !! "edge_type" = None) l →
  ∀ acc,
  foldM (λ acc '(from_id, to_id, edge_attribs),
    et ← or_raise KeyError (edge_attribs !! "edge_type");
    if decide (et = edge_type) then Ok (acc ++ [(from_id, to_id)]) else Ok acc)
    acc l
  = Raise KeyError.
Proof.
  induction 1 as [[[u v] d] l Hnone|[[u v] d] l _ IH]; intros acc.
  - simpl in Hnone. rewrite foldM_cons. simpl. by rewrite Hnone.
  - rewrite foldM_cons. simpl. destruct (d !! "edge_type") as [et|]; [|done].
    simpl. case_decide; apply IH.
Qed.

Lemma edges_typed_or_not g :
  Forall (λ e : atom * atom * attrs, is_Some (e.2 !! "edge_type")) (edges g) ∨
  Exists (λ e : atom * atom * attrs, e.2 !! "edge_type" = None) (edges g).
Proof.
  destruct (decide (Forall (λ e : atom * atom * attrs, is_Some (e.2 !! "edge_type"))
                           (edges g))) as [?|Hno]; [by left|right].
  apply not_Forall_Exists in Hno; [|apply _].
  eapply Exists_impl; [done|]. intros e He. simpl in He.
  destruct (e.2 !! "edge_type"); [|done]. exfalso. apply He. by eexists.
Qed.

(** X14: [select_edges_by_edgetype] looks up ['edge_type'] on every edge of the
    graph: it raises the key error exactly when some edge has no edge type,
    whatever type is asked for, and otherwise returns the pairs that are
    connected by an edge of the type. *)
Theorem select_edges_by_edgetype_outcome g edge_type :
  (select_edges_by_edgetype g edge_type = Raise KeyError
   ↔ ∃ u v k d, succ_edge g u v k = Some d ∧ d !! "edge_type" = None) ∧
  (∀ res, select_edges_by_edgetype g edge_type = Ok res →
     ∀ u v, (u, v) ∈ res
            ↔ ∃ k d, succ_edge g u v k = Some d ∧ d !! "edge_type" = Some edge_type) ∧
  (select_edges_by_edgetype g edge_type = Raise KeyError ∨
   ∃ res, select_edges_by_edgetype g edge_type = Ok res).
Proof.
  assert (Exists (λ e : atom * atom * attrs, e.2 !! "edge_type" = None) (edges g)
          ↔ ∃ u v k d, succ_edge g u v k = Some d ∧ d !! "edge_type" = None) as Hex.
  { rewrite Exists_exists. split.
    - intros ([[u v] d] & Hin & Hnone). apply elem_of_edges in Hin as [k Hk].
      by exists u, v, k, d.
    - intros (u & v & k & d & Hk & Hnone). exists (u, v, d).
      split; [|done]. apply elem_of_edges. by exists k. }
  unfold select_edges_by_edgetype.
  destruct (edges_typed_or_not g) as [Hall|Hsome].
  - rewrite (select_edges_typed edge_type _ Hall). split; [|split].
    + split; [done|]. intros Hsome%Hex. exfalso.
      apply Exists_exists in Hsome as (e & Hin & Hnone).
      rewrite Forall_forall in Hall. destruct (Hall e Hin) as [? ?]. congruence.
    + intros res [= <-] u v. simpl. rewrite list_elem_of_fmap. split.
      * intros ([[u' v'] d] & [= -> ->] & [Hd Hin]%list_elem_of_filter).
        apply elem_of_edges in Hin as [k Hk]. by exists k, d.
      * intros (k & d & Hk & Hd). exists (u, v, d). split; [done|].
        apply list_elem_of_filter. split; [done|]. apply elem_of_edges. by exists k.
    + right. by eexists.
  - rewrite (select_edges_untyped edge_type _ Hsome). split; [|split].
    + split; [|done]. intros _. by apply Hex.
    + by intros res.
    + by left.
Qed.

(** ** Tokens *)

Lemma mapM_result_raise_acc {A B} (f : A → result B) xs e :
  (∀ x e', f x = Raise e' → e' = e) →
  Exists (λ x, ∃ e', f x = Raise e') xs →
  ∀ acc, foldM (λ acc x, y ← f x; Ok (acc ++ [y])) acc xs = Raise e.
Proof.
  intros Honly Hex.
  induction Hex as [x xs [e' He']|x xs _ IH]; intros acc.
  - rewrite foldM_cons. rewrite He'. simpl. by rewrite (Honly x e' He').
  - rewrite foldM_cons. destruct (f x) as [y|e'] eqn:Hfx; simpl.
    + apply IH.
    + by rewrite (Honly x e' Hfx).
Qed.

Lemma mapM_result_raise {A B} (f : A → result B) xs e :
  (∀ x e', f x = Raise e' → e' = e) →
  Exists (λ x, ∃ e', f x = Raise e') xs →
  mapM_result f xs = Raise e.
Proof. intros Honly Hex. by apply mapM_result_raise_acc. Qed.

Lemma get_token_Ok g token_attrib token_id tok :
  node g !! token_id ≫= (.!! (ns g +:+ ":" +:+ token_attrib)) = Some tok →
  get_token g token_attrib token_id = Ok (token_id, tok).
Proof.
  unfold get_token. destruct (node g !! token_id) as [nd|]; [|done]. simpl.
  by intros ->.
Qed.

Lemma get_token_raise g token_attrib token_id :
  node g !! token_id ≫= (.!! (ns g +:+ ":" +:+ token_attrib)) = None →
  get_token g token_attrib token_id = Raise KeyError.
Proof.
  unfold get_token. destruct (node g !! token_id) as [nd|]; [|done]. simpl.
  by intros ->.
Qed.

Lemma get_token_raises_key_error g token_attrib token_id e :
  get_token g token_attrib token_id = Raise e → e = KeyError.
Proof.
  unfold get_token. destruct (node g !! token_id) as [nd|]; simpl; [|congruence].
  destruct (nd !! _); simpl; congruence.
Qed.

(** X15: [get_tokens] goes through the token list of the document: when every
    token id is a node that has the token attribute, it returns the ids in
    document order, each with the value of the attribute; when one of them
    is no node or has no such attribute, it raises the key error. *)
Theorem get_tokens_outcome g token_attrib :
  let key := ns g +:+ ":" +:+ token_attrib in
  (Forall (λ id, is_Some (node g !! id ≫= (.!! key))) (tokens g) →
   ∃ l, get_tokens g token_attrib = Ok l ∧ l.*1 = tokens g ∧
        Forall (λ p, node g !! p.1 ≫= (.!! key) = Some p.2) l) ∧
  (Exists (λ id, node g !! id ≫= (.!! key) = None) (tokens g) →
   get_tokens g token_attrib = Raise KeyError).
Proof.
  intros key. split.
  - intros Hall.
    exists ((λ id, (id, default VNone (node g !! id ≫= (.!! key)))) <$> tokens g).
    split; [|split].
    + apply mapM_result_total. eapply Forall_impl; [done|].
      intros id [tok Htok]. simpl. rewrite Htok. by apply get_token_Ok.
    + rewrite <- list_fmap_compose. apply list_fmap_id.
    + apply Forall_fmap. eapply Forall_impl; [done|].
      intros id [tok Htok]. simpl. by rewrite Htok.
  - intros Hex. apply mapM_result_raise.
    + intros x e'. apply get_token_raises_key_error.
    + eapply Exists_impl; [done|]. intros id Hid. simpl in Hid.
      exists KeyError. by apply get_token_raise.
Qed.

Lemma get_tokens_outcome_witness :
  let g := Examples.root_t1_t2 in
  Forall (λ id, is_Some (node g !! id ≫= (.!! (ns g +:+ ":" +:+ "token")))) (tokens g) ∧
  ∃ l, get_tokens g "token" = Ok l ∧ l.*1 = tokens g ∧
       Forall (λ p, node g !! p.1 ≫= (.!! (ns g +:+ ":" +:+ "token")) = Some p.2) l.
Proof.
  cbv zeta.
  assert (Forall (λ id, is_Some (node Examples.root_t1_t2 !! id
                                   ≫= (.!! (ns Examples.root_t1_t2 +:+ ":" +:+ "token"))))
                 (tokens Examples.root_t1_t2)) as Hall.
  { repeat constructor; by eexists. }
  split; [exact Hall|].
  exact (proj1 (get_tokens_outcome Examples.root_t1_t2 "token") Hall).
Defined.

(** ** When the pointing chains are returned *)

Lemma targets_dom rel_dict from_id to_id :
  to_id ∈ targets rel_dict from_id → from_id ∈ dom rel_dict.
Proof.
  unfold targets. intros Hin. apply elem_of_dom.
  destruct (rel_dict !! from_id); [done|]. by apply elem_of_empty in Hin.
Qed.

Lemma foldM_raise {A B} (f : B → A → result B) xs : ∀ b e,
  foldM f b xs = Raise e → ∃ b' x, x ∈ xs ∧ f b' x = Raise e.
Proof.
  induction xs as [|x xs IH]; intros b e; [done|].
  rewrite foldM_cons. destruct (f b x) as [b'|e'] eqn:Hfx; simpl.
  - intros (b'' & y & Hin & Hy)%IH. exists b'', y. split; [by right|done].
  - intros [= <-]. exists b, x. split; [by left|done].
Qed.

(** The only error of [__walk_chain] is the recursion error. *)
Lemma walk_chain_raises depth rel_dict : ∀ from_id e,
  walk_chain depth rel_dict from_id = Raise e → e = RecursionError.
Proof.
  induction depth as [|depth IH]; intros from_id e.
  - by intros [= <-].
  - rewrite walk_chain_unfold. intros (paths & to_id & _ & Hstep)%foldM_raise.
    unfold walk_step in Hstep. case_decide; [|done].
    destruct (walk_chain depth rel_dict to_id) as [tails|e'] eqn:Hrec; [done|].
    simpl in Hstep. injection Hstep as <-. by eapply IH.
Qed.

Lemma walk_steps_total rec rel_dict from_id tos :
  (∀ to_id, to_id ∈ tos → to_id ∈ dom rel_dict → ∃ tails, rec to_id = Ok tails) →
  ∀ paths, ∃ res, foldM (walk_step rec rel_dict from_id) paths tos = Ok res.
Proof.
  induction tos as [|to_id tos IH]; intros Hrec paths; [by eexists|].
  rewrite foldM_cons.
  destruct (decide (to_id ∈ dom rel_dict)) as [Hdom|Hdom].
  - destruct (Hrec to_id) as [tails Htails]; [by left|done|].
    rewrite (walk_step_on _ _ _ _ _ _ Hdom Htails). simpl.
    apply IH. intros t Ht. apply Hrec. by right.
  - rewrite (walk_step_end _ _ _ _ _ Hdom). simpl.
    apply IH. intros t Ht. apply Hrec. by right.
Qed.

Lemma tc_first_step {A} (R : relation A) x y : tc R x y → ∃ z, R x z.
Proof. destruct 1; eauto. Qed.

(** A walk that returns has not started on a cycle. *)
Lemma walk_chain_off_cycle depth rel_dict : ∀ from_id chains,
  walk_chain depth rel_dict from_id = Ok chains →
  ¬ tc (related rel_dict) from_id from_id.
Proof.
  induction depth as [|depth IH]; intros from_id chains Hrun Hcyc; [done|].
  apply walk_chain_spec in Hrun as [Hok _].
  assert (∃ to_id, related rel_dict from_id to_id ∧ tc (related rel_dict) to_id to_id)
    as (to_id & Hto & Hcyc').
  { inversion Hcyc as [? ? Hstep|? to_id ? Hstep Hrest]; subst.
    - by exists from_id.
    - exists to_id. split; [done|]. by eapply tc_r. }
  destruct (tc_first_step _ _ _ Hcyc') as [z Hz].
  destruct (Hok to_id Hto (targets_dom _ _ _ Hz)) as [tails Htails].
  by eapply IH.
Qed.

(** Without cycles a walk returns when the recursion limit is above the
    number of ids that have targets. *)
Lemma walk_chain_total rel_dict :
  (∀ x, ¬ tc (related rel_dict) x x) →
  ∀ (n : nat) (X : gset atom) from_id, size X = n →
  (∀ y, rtc (related rel_dict) from_id y → y ∈ dom rel_dict → y ∈ X) →
  ∃ chains, walk_chain (S n) rel_dict from_id = Ok chains.
Proof.
  intros Hacyclic. induction n as [|n IH]; intros X from_id Hsize Hreach.
  - rewrite walk_chain_unfold. apply walk_steps_total.
    intros to_id Hin%elem_of_elements Hdom. exfalso.
    apply size_empty_inv in Hsize. apply leibniz_equiv in Hsize. subst X.
    eapply (not_elem_of_empty (C := gset atom)). apply (Hreach to_id); [|done].
    by apply rtc_once.
  - rewrite walk_chain_unfold. apply walk_steps_total.
    intros to_id Hin%elem_of_elements Hdom.
    apply (IH (X ∖ {[from_id]})).
    + assert (from_id ∈ X) as HX.
      { apply Hreach; [done|]. by eapply targets_dom. }
      rewrite size_difference by set_solver. rewrite size_singleton. lia.
    + intros y Hy Hydom. apply elem_of_difference. split.
      * apply Hreach; [|done]. by eapply rtc_l.
      * intros ->%elem_of_singleton. apply (Hacyclic from_id).
        eapply tc_rtc_r; [|done]. by apply tc_once.
Qed.

Lemma walk_chain_deeper_le depth depth' rel_dict from_id chains :
  (depth ≤ depth')%nat →
  walk_chain depth rel_dict from_id = Ok chains →
  walk_chain depth' rel_dict from_id = Ok chains.
Proof.
  induction 1 as [|depth' _ IH]; [done|].
  intros Hrun. by apply walk_chain_deeper, IH.
Qed.

(** A relation dictionary as [get_pointing_chains] builds it: every key has
    a target. *)
Lemma walk_chain_nonempty depth rel_dict :
  (∀ x, x ∈ dom rel_dict → targets rel_dict x ≠ ∅) →
  ∀ from_id chains, from_id ∈ dom rel_dict →
  walk_chain depth rel_dict from_id = Ok chains → chains ≠ [].
Proof.
  intros Htotal. induction depth as [|depth IH]; intros from_id chains Hdom Hrun; [done|].
  apply walk_chain_spec in Hrun as [Hok Hmem].
  destruct (set_choose_L _ (Htotal from_id Hdom)) as [to_id Hto].
  destruct (decide (to_id ∈ dom rel_dict)) as [Hin|Hout].
  - destruct (Hok to_id Hto Hin) as [tails Htails].
    pose proof (IH to_id tails Hin Htails) as Hne.
    destruct tails as [|tail tails]; [done|].
    assert (from_id :: tail ∈ chains) as Hchain.
    { apply Hmem. exists to_id. split; [done|]. right. split; [done|].
      exists (tail :: tails), tail. split; [done|]. split; [by left|done]. }
    intros ->. by apply elem_of_nil in Hchain.
  - assert ([from_id; to_id] ∈ chains) as Hchain.
    { apply Hmem. exists to_id. split; [done|]. by left. }
    intros ->. by apply elem_of_nil in Hchain.
Qed.

Lemma mapM_result_all_Ok_acc {A B} (f : A → result B) xs :
  Forall (λ x, ∃ y, f x = Ok y) xs →
  ∀ acc, ∃ ys, foldM (λ acc x, y ← f x; Ok (acc ++ [y])) acc xs = Ok ys.
Proof.
  induction 1 as [|x xs [y Hy] _ IH]; intros acc; [by eexists|].
  rewrite foldM_cons, Hy. simpl. apply IH.
Qed.

Lemma all_Ok_or_some_Raise {A B} (f : A → result B) xs :
  Forall (λ x, ∃ y, f x = Ok y) xs ∨ Exists (λ x, ∃ e, f x = Raise e) xs.
Proof.
  induction xs as [|x xs [IH|IH]].
  - by left.
  - destruct (f x) as [y|e] eqn:Hfx.
    + left. constructor; [by exists y|done].
    + right. apply Exists_cons_hd. by exists e.
  - right. by apply Exists_cons_tl.
Qed.

Lemma elem_of_keys (rel_dict : gmap atom (gset atom)) k :
  k ∈ (map_to_list rel_dict).*1 ↔ k ∈ dom rel_dict.
Proof.
  rewrite elem_of_dom, list_elem_of_fmap. split.
  - intros ([k' s] & -> & Hin). apply elem_of_map_to_list in Hin. eauto.
  - intros [s Hs]. exists (k, s). split; [done|]. by apply elem_of_map_to_list.
Qed.

Lemma chains_of_rel_dict_outcome depth rel_dict :
  (∀ x, x ∈ dom rel_dict → targets rel_dict x ≠ ∅) →
  (chains_of_rel_dict depth rel_dict = Raise RecursionError ∨
   ∃ res, chains_of_rel_dict depth rel_dict = Ok res) ∧
  ((∃ x, tc (related rel_dict) x x) →
   chains_of_rel_dict depth rel_dict = Raise RecursionError) ∧
  ((∀ x, ¬ tc (related rel_dict) x x) → (size (dom rel_dict) < depth)%nat →
   ∃ res, chains_of_rel_dict depth rel_dict = Ok res).
Proof.
  intros Htotal. unfold chains_of_rel_dict.
  destruct (all_Ok_or_some_Raise (walk_chain depth rel_dict) (map_to_list rel_dict).*1)
    as [Hall|Hsome].
  - destruct (mapM_result_all_Ok_acc _ _ Hall []) as [all_chains Hrun].
    fold (mapM_result (walk_chain depth rel_dict) (map_to_list rel_dict).*1) in Hrun.
    rewrite Hrun. simpl.
    destruct (unique_chains_total all_chains) as (res & Hres & _).
    { apply mapM_result_Ok in Hrun. apply Forall_forall. intros chains Hin.
      apply list_elem_of_lookup in Hin as [i Hi].
      destruct (Forall2_lookup_r _ _ _ _ _ Hrun Hi) as (k & Hk & Hwalk).
      rewrite (walk_chain_head _ _ _ _ Hwalk); [by eexists|].
      eapply walk_chain_nonempty; [done| |done].
      apply elem_of_keys. by eapply list_elem_of_lookup_2. }
    rewrite Hres. split; [right; by eexists|]. split; [|intros _ _; by eexists].
    intros [x Hcyc]. exfalso.
    destruct (tc_first_step _ _ _ Hcyc) as [z Hz].
    pose proof (targets_dom _ _ _ Hz) as Hdom. apply elem_of_keys in Hdom.
    rewrite Forall_forall in Hall. destruct (Hall x Hdom) as [chains Hwalk].
    by eapply walk_chain_off_cycle.
  - assert (mapM_result (walk_chain depth rel_dict) (map_to_list rel_dict).*1
            = Raise RecursionError) as ->.
    { apply mapM_result_raise; [|done]. intros x e. apply walk_chain_raises. }
    simpl. split; [by left|]. split; [done|].
    intros Hacyclic Hdepth. exfalso.
    apply Exists_exists in Hsome as (x & Hx & e & He).
    destruct (walk_chain_total rel_dict Hacyclic (size (dom rel_dict)) (dom rel_dict) x)
      as [chains Hwalk]; [done|done|].
    rewrite (walk_chain_deeper_le _ depth _ _ _ Hdepth Hwalk) in He. done.
Qed.

Lemma make_rel_dict_total pointing_relations x :
  x ∈ dom (make_rel_dict pointing_relations) →
  targets (make_rel_dict pointing_relations) x ≠ ∅.
Proof.
  intros [to_id Hin]%dom_make_rel_dict. apply targets_make_rel_dict in Hin.
  set_solver.
Qed.

Lemma select_edges_by_edgetype_Ok g edge_type res :
  select_edges_by_edgetype g edge_type = Ok res →
  ∀ u v, (u, v) ∈ res
         ↔ ∃ k d, succ_edge g u v k = Some d ∧ d !! "edge_type" = Some edge_type.
Proof.
  unfold select_edges_by_edgetype.
  destruct (edges_typed_or_not g) as [Hall|Hsome].
  - rewrite (select_edges_typed edge_type _ Hall). intros [= <-] u v. simpl.
    rewrite list_elem_of_fmap. split.
    + intros ([[u' v'] d] & [= -> ->] & [Hd Hin]%list_elem_of_filter).
      apply elem_of_edges in Hin as [k Hk]. by exists k, d.
    + intros (k & d & Hk & Hd). exists (u, v, d). split; [done|].
      apply list_elem_of_filter. split; [done|]. apply elem_of_edges. by exists k.
  - by rewrite (select_edges_untyped edge_type _ Hsome).
Qed.

Lemma select_edges_by_edgetype_typed g edge_type :
  typed g → ∃ res, select_edges_by_edgetype g edge_type = Ok res.
Proof.
  intros Htyped. unfold select_edges_by_edgetype.
  rewrite select_edges_typed; [by eexists|].
  apply Forall_forall. intros [[u v] d] [k Hk]%elem_of_edges. by eapply Htyped.
Qed.

Lemma select_edges_by_edgetype_untyped g edge_type u v k d :
  succ_edge g u v k = Some d → d !! "edge_type" = None →
  select_edges_by_edgetype g edge_type = Raise KeyError.
Proof.
  intros Hk Hnone. unfold select_edges_by_edgetype. apply select_edges_untyped.
  apply Exists_exists. exists (u, v, d). split; [|done].
  apply elem_of_edges. by exists k.
Qed.

Lemma tc_iff {A} (R R' : relation A) x y :
  (∀ a b, R a b ↔ R' a b) → tc R x y ↔ tc R' x y.
Proof.
  intros HR. split; induction 1 as [? ? Hstep|? ? ? Hstep _ IH].
  - apply tc_once. by apply HR.
  - eapply tc_l; [|done]. by apply HR.
  - apply tc_once. by apply HR.
  - eapply tc_l; [|done]. by apply HR.
Qed.

(** X16: [get_pointing_chains] raises the key error exactly when some edge of
    the graph has no edge type.  When every edge has one, it raises the
    recursion error, at every recursion limit, if the ['points_to'] edges
    contain a cycle, and it returns if they contain none and the recursion
    limit is above the number of nodes.  It raises nothing else. *)
Theorem pointing_chains_outcome depth g :
  (get_pointing_chains depth g = Raise KeyError
   ↔ ∃ u v k d, succ_edge g u v k = Some d ∧ d !! "edge_type" = None) ∧
  (typed g → (∃ x, tc (pointing g) x x) →
   get_pointing_chains depth g = Raise RecursionError) ∧
  (typed g → (∀ x, ¬ tc (pointing g) x x) → (size (dom (succ g)) < depth)%nat →
   ∃ res, get_pointing_chains depth g = Ok res) ∧
  (get_pointing_chains depth g = Raise KeyError ∨
   get_pointing_chains depth g = Raise RecursionError ∨
   ∃ res, get_pointing_chains depth g = Ok res).
Proof.
  unfold get_pointing_chains.
  destruct (select_edges_by_edgetype g (VStr "points_to")) as [rels|e] eqn:Hsel.
  - simpl. pose proof (select_edges_by_edgetype_Ok _ _ _ Hsel) as Hrels.
    assert (∀ a b, related (make_rel_dict rels) a b ↔ pointing g a b) as Hrel.
    { intros a b. unfold related. rewrite targets_make_rel_dict. apply Hrels. }
    destruct (chains_of_rel_dict_outcome depth (make_rel_dict rels)
                (make_rel_dict_total rels)) as (Hany & Hcyc & Hacyc).
    split; [|split; [|split]].
    + split.
      * intros Herr. destruct Hany as [Hany|[res Hany]]; congruence.
      * intros (u & v & k & d & Hk & Hnone).
        rewrite (select_edges_by_edgetype_untyped _ _ _ _ _ _ Hk Hnone) in Hsel. done.
    + intros _ [x Hx]. apply Hcyc. exists x. by apply (tc_iff _ _ _ _ Hrel).
    + intros _ Hno Hdepth. apply Hacyc.
      * intros x Hx. apply (Hno x). by apply (tc_iff _ _ _ _ Hrel).
      * eapply Nat.le_lt_trans; [|done]. apply subseteq_size.
        intros x [to_id Hto]%dom_make_rel_dict.
        apply Hrels in Hto as (k & d & Hk & _).
        unfold succ_edge, adj_ref in Hk. apply elem_of_dom.
        destruct (succ g !! x); [done|discriminate].
    + destruct Hany as [Hany|Hany]; [right; by left|right; by right].
  - assert (e = KeyError) as ->.
    { destruct (edges_typed_or_not g) as [Hall|Hsome].
      - unfold select_edges_by_edgetype in Hsel.
        by rewrite (select_edges_typed _ _ Hall) in Hsel.
      - unfold select_edges_by_edgetype in Hsel.
        rewrite (select_edges_untyped _ _ Hsome) in Hsel. congruence. }
    simpl. split; [|split; [|split]].
    + split; [intros _|done].
      destruct (edges_typed_or_not g) as [Hall|Hsome].
      * unfold select_edges_by_edgetype in Hsel.
        by rewrite (select_edges_typed _ _ Hall) in Hsel.
      * apply Exists_exists in Hsome as ([[u v] d] & [k Hk]%elem_of_edges & Hnone).
        by exists u, v, k, d.
    + intros Htyped _. destruct (select_edges_by_edgetype_typed g (VStr "points_to") Htyped).
      congruence.
    + intros Htyped _ _.
      destruct (select_edges_by_edgetype_typed g (VStr "points_to") Htyped). congruence.
    + by left.
Qed.

(** ** The span of a node *)

Lemma elem_of_out_edges g n u v d :
  (u, v, d) ∈ out_edges g n ↔ u = n ∧ ∃ k, succ_edge g n v k = Some d.
Proof.
  unfold out_edges, succ_edge, adj_ref.
  destruct (succ g !! n) as [nbrs|] eqn:Hn; simpl.
  - unfold edges_of. rewrite list_elem_of_bind. split.
    + intros ([nbr l] & Hin & Hnbr). apply elem_of_map_to_list in Hnbr.
      apply list_elem_of_bind in Hin as ([k data] & Hin & Hk).
      apply elem_of_map_to_list in Hk.
      apply list_elem_of_singleton in Hin. injection Hin as -> -> ->.
      split; [done|]. exists k. rewrite Hnbr. simpl.
      unfold deref in Hk. destruct (heap g !! l); simpl in *; [done|].
      by rewrite lookup_empty in Hk.
    + intros [-> (k & Hk)].
      destruct (nbrs !! v) as [l|] eqn:Hv; [|done]. simpl in Hk.
      destruct (heap g !! l) as [kd|] eqn:Hl; [|done]. simpl in Hk.
      exists (v, l). split; [|by apply elem_of_map_to_list].
      apply list_elem_of_bind. exists (k, d).
      split; [by apply list_elem_of_singleton|].
      apply elem_of_map_to_list. unfold deref. by rewrite Hl.
  - split; [by intros ?%elem_of_nil|]. by intros [_ [k ?]].
Qed.

Lemma span_steps_spec (rec : atom → result (list atom)) g
    (l : list (atom * atom * attrs)) :
  ∀ span res,
  foldM (λ span '(from_id, to_id, edge_attribs),
    edge_type ← or_raise KeyError (edge_attribs !! "edge_type");
    if decide (edge_type ≠ VEnum pointing_relation) then
      to_attrs ← or_raise KeyError (node g !! to_id);
      if decide (ns g +:+ ":token" ∈ dom to_attrs)
      then Ok (span ++ [to_id])
      else sub ← rec to_id; Ok (span ++ sub)
    else Ok span) span l = Ok res →
  (∀ from_id to_id d to_attrs,
     (from_id, to_id, d) ∈ l → followed d → node g !! to_id = Some to_attrs →
     ns g +:+ ":token" ∉ dom to_attrs → ∃ sub, rec to_id = Ok sub) ∧
  ∀ x, x ∈ res ↔
    x ∈ span ∨
    ∃ from_id to_id d to_attrs,
      (from_id, to_id, d) ∈ l ∧ followed d ∧ node g !! to_id = Some to_attrs ∧
      ((ns g +:+ ":token" ∈ dom to_attrs ∧ x = to_id) ∨
       ((ns g +:+ ":token" ∉ dom to_attrs) ∧ ∃ sub, rec to_id = Ok sub ∧ x ∈ sub)).
Proof.
  induction l as [|[[u v] d] l IH]; intros span res.
  - intros [= <-]. split.
    + intros ? ? ? ? Hin. by apply elem_of_nil in Hin.
    + intros x. split; [by left|].
      intros [?|(? & ? & ? & ? & Hin & _)]; [done|]. by apply elem_of_nil in Hin.
  - rewrite foldM_cons. simpl.
    destruct (d !! "edge_type") as [et|] eqn:Het; simpl; [|done].
    destruct (decide (et ≠ VEnum pointing_relation)) as [Hfollow|Hpoint].
    + destruct (node g !! v) as [to_attrs|] eqn:Hv; simpl; [|done].
      destruct (decide (ns g +:+ ":token" ∈ dom to_attrs)) as [Htok|Hnotok]; simpl.
      * intros [Hrec Hmem]%IH. split.
        -- intros from_id to_id d' to_attrs' [[= -> -> ->]|Hin]%elem_of_cons Hf Hn Hno.
           ++ congruence.
           ++ by eapply Hrec.
        -- intros x. rewrite Hmem, elem_of_app, list_elem_of_singleton. split.
           ++ intros [[?| ->]|(f & t & d' & a & Hin & ?)].
              ** by left.
              ** right. exists u, v, d, to_attrs. split; [by left|].
                 split; [by exists et|]. split; [done|]. by left.
              ** right. exists f, t, d', a. split; [by right|done].
           ++ intros [?|(f & t & d' & a & [[= -> -> ->]|Hin]%elem_of_cons & Hf & Hn & Hx)].
              ** by left; left.
              ** left. right. assert (a = to_attrs) as -> by congruence.
                 destruct Hx as [[_ ->]|[? _]]; done.
              ** right. by exists f, t, d', a.
      * destruct (rec v) as [sub|e] eqn:Hsub; simpl; [|done].
        intros [Hrec Hmem]%IH. split.
        -- intros from_id to_id d' to_attrs' [[= -> -> ->]|Hin]%elem_of_cons Hf Hn Hno.
           ++ by exists sub.
           ++ by eapply Hrec.
        -- intros x. rewrite Hmem, elem_of_app. split.
           ++ intros [[?|Hx]|(f & t & d' & a & Hin & ?)].
              ** by left.
              ** right. exists u, v, d, to_attrs. split; [by left|].
                 split; [by exists et|]. split; [done|]. right. split; [done|].
                 by exists sub.
              ** right. exists f, t, d', a. split; [by right|done].
           ++ intros [?|(f & t & d' & a & [[= -> -> ->]|Hin]%elem_of_cons & Hf & Hn & Hx)].
              ** by left; left.
              ** left. right. assert (a = to_attrs) as -> by congruence.
                 destruct Hx as [[? _]|[_ (sub' & Hsub' & Hx)]]; [done|]. congruence.
              ** right. by exists f, t, d', a.
    + intros [Hrec Hmem]%IH. split.
      * intros from_id to_id d' to_attrs' [[= -> -> ->]|Hin]%elem_of_cons Hf Hn Hno.
        -- destruct Hf as (et' & Het' & Hne). exfalso. apply Hpoint. congruence.
        -- by eapply Hrec.
      * intros x. rewrite Hmem. split.
        -- intros [?|(f & t & d' & a & Hin & ?)]; [by left|].
           right. exists f, t, d', a. split; [by right|done].
        -- intros [?|(f & t & d' & a & [[= -> -> ->]|Hin]%elem_of_cons & Hf & Hn & Hx)].
           ++ by left.
           ++ destruct Hf as (et' & Het' & Hne). exfalso. apply Hpoint. congruence.
           ++ right. by exists f, t, d', a.
Qed.

Lemma get_span_members g : ∀ depth node_id res,
  get_span depth g node_id = Ok res → ∀ x, x ∈ res ↔ spanned g node_id x.
Proof.
  induction depth as [|depth IH]; intros node_id res; [done|].
  simpl. unfold get_span_body.
  destruct (foldM _ [] (out_edges g node_id)) as [span|e] eqn:Hfold; simpl; [|done].
  intros [Hperm _]%sorted_spec x. rewrite Hperm.
  apply span_steps_spec in Hfold as [Hrec Hmem]. rewrite Hmem. split.
  - intros [Hnil|(f & t & d & a & [-> [k Hk]]%elem_of_out_edges & Hf & Hn & Hx)].
    { by apply elem_of_nil in Hnil. }
    destruct Hx as [[Htok ->]|[Hnotok (sub & Hsub & Hx)]].
    + by eapply spanned_token.
    + eapply spanned_inner; try done. by apply (IH t sub).
  - intros Hsp. right.
    inversion Hsp as [? ? k d a Hk Hf Hn Htok|? t k d a ? Hk Hf Hn Hnotok Hrest]; subst.
    + exists node_id, x, d, a. split; [apply elem_of_out_edges; eauto|].
      split; [done|]. split; [done|]. by left.
    + exists node_id, t, d, a.
      assert ((node_id, t, d) ∈ out_edges g node_id) as Hin
        by (apply elem_of_out_edges; eauto).
      split; [done|]. split; [done|]. split; [done|]. right. split; [done|].
      destruct (Hrec node_id t d a Hin Hf Hn Hnotok) as [sub Hsub].
      exists sub. split; [done|]. by apply (IH t sub).
Qed.

Lemma get_span_sorted g depth node_id res :
  get_span depth g node_id = Ok res →
  ∃ keyed, res = keyed.*2 ∧
           Forall (λ p, natural_sort_key p.2 = Ok p.1) keyed ∧
           Sorted (λ p q, key_le p.1 q.1 = true) keyed.
Proof.
  destruct depth as [|depth]; [done|]. simpl. unfold get_span_body.
  destruct (foldM _ [] (out_edges g node_id)) as [span|e]; simpl; [|done].
  by intros [_ Hsorted]%sorted_spec.
Qed.

(** X17: On a graph the methods have built, when [get_span] returns for a node
    of the graph, its result holds exactly the token nodes that are reached
    from the node over edges whose type is not the member
    [EdgeTypes.pointing_relation], passing only nodes that are no tokens;
    the ids are in ascending order of their sort keys. *)
Theorem get_span_spans nm nsp r toks cs depth node_id res :
  let g := run_calls cs (empty_graph nm nsp r toks) in
  node_id ∈ dom (node g) →
  get_span depth g node_id = Ok res →
  (∀ x, x ∈ res ↔ spanned g node_id x) ∧
  ∃ keyed, res = keyed.*2 ∧
           Forall (λ p, natural_sort_key p.2 = Ok p.1) keyed ∧
           Sorted (λ p q, key_le p.1 q.1 = true) keyed.
Proof.
  intros g _ Hrun. split.
  - by apply (get_span_members g depth).
  - by eapply get_span_sorted.
Qed.

Lemma get_span_spans_witness :
  let g := run_calls Examples.span_tree_calls
             (empty_graph "doc" "ex" (AStr "root") [AStr "t1"; AStr "t10"; AStr "t2"]) in
  (AStr "n" ∈ dom (node g) ∧
   get_span 2 g (AStr "n") = Ok [AStr "t1"; AStr "t2"; AStr "t10"]) ∧
  (∀ x, x ∈ [AStr "t1"; AStr "t2"; AStr "t10"] ↔ spanned g (AStr "n") x).
Proof.
  cbv zeta.
  assert (get_span 2 (run_calls Examples.span_tree_calls
            (empty_graph "doc" "ex" (AStr "root") [AStr "t1"; AStr "t10"; AStr "t2"]))
            (AStr "n")
          = Ok [AStr "t1"; AStr "t2"; AStr "t10"]) as Hrun by compute_done.
  assert (AStr "n" ∈ dom (node (run_calls Examples.span_tree_calls
            (empty_graph "doc" "ex" (AStr "root") [AStr "t1"; AStr "t10"; AStr "t2"]))))
    as Hnode by compute_done.
  split; [by split|].
  exact (proj1 (get_span_spans "doc" "ex" (AStr "root") [AStr "t1"; AStr "t10"; AStr "t2"]
                  Examples.span_tree_calls 2 (AStr "n") _ Hnode Hrun)).
Defined.

(** ** The text of a node *)

Lemma spanned_is_token g n x :
  spanned g n x → ∃ attrs, node g !! x = Some attrs ∧ ns g +:+ ":token" ∈ dom attrs.
Proof. induction 1; eauto. Qed.

Lemma as_str_raises v e : as_str v = Raise e → e = TypeError.
Proof. destruct v; simpl; congruence. Qed.

(** X18: On a graph the methods have built, when [get_span] returns for a node
    of the graph, every id of the span is a node with a token attribute, so
    that [get_text] finds all the tokens: it returns them joined by single
    spaces when all of them are strings, and raises the type error when one
    of them is not. *)
Theorem get_text_joins_span nm nsp r toks cs depth node_id span :
  let g := run_calls cs (empty_graph nm nsp r toks) in
  node_id ∈ dom (node g) →
  get_span depth g node_id = Ok span →
  ∃ toks,
    Forall2 (λ x t, node g !! x ≫= (.!! (ns g +:+ ":token")) = Some t) span toks ∧
    (∀ strs, toks = VStr <$> strs →
       get_text depth g node_id = Ok (String.concat " " strs)) ∧
    (Exists (λ t, as_str t = Raise TypeError) toks →
       get_text depth g node_id = Raise TypeError).
Proof.
  intros g _ Hrun. pose proof (get_span_members g depth node_id span Hrun) as Hmem.
  set (tok := λ x, default VNone (node g !! x ≫= (.!! (ns g +:+ ":token")))).
  assert (Forall (λ x, node g !! x ≫= (.!! (ns g +:+ ":token")) = Some (tok x)) span)
    as Hall.
  { apply Forall_forall. intros x Hx%Hmem.
    destruct (spanned_is_token g node_id x Hx) as (attrs & Hattrs & [t Ht]%elem_of_dom).
    unfold tok. rewrite Hattrs. simpl. by rewrite Ht. }
  assert (mapM_result (λ node_id,
            nd ← or_raise KeyError (node g !! node_id);
            or_raise KeyError (nd !! (ns g +:+ ":token"))) span = Ok (tok <$> span))
    as Htoks.
  { apply mapM_result_total. eapply Forall_impl; [exact Hall|].
    intros x Hx. simpl in Hx. destruct (node g !! x) as [nd|]; [|done].
    simpl in *. by rewrite Hx. }
  exists (tok <$> span). split; [|split].
  - apply Forall2_fmap_r, Forall_Forall2_diag. exact Hall.
  - intros strs Hstrs. unfold get_text. rewrite Hrun. simpl. rewrite Htoks. simpl.
    rewrite Hstrs.
    rewrite (mapM_result_total as_str
               (λ v, match v with VStr s => s | _ => "" end) (VStr <$> strs)).
    + simpl. do 2 f_equal. rewrite <- list_fmap_compose. apply list_fmap_id.
    + apply Forall_fmap, Forall_forall. by intros s _.
  - intros Hex. unfold get_text. rewrite Hrun. simpl. rewrite Htoks. simpl.
    rewrite (mapM_result_raise as_str (tok <$> span) TypeError); [done| |].
    + apply as_str_raises.
    + eapply Exists_impl; [exact Hex|]. intros t Ht. by exists TypeError.
Qed.

Lemma get_text_joins_span_witness :
  let g := run_calls Examples.span_tree_calls
             (empty_graph "doc" "ex" (AStr "root") [AStr "t1"; AStr "t10"; AStr "t2"]) in
  (AStr "n" ∈ dom (node g) ∧
   get_span 2 g (AStr "n") = Ok [AStr "t1"; AStr "t2"; AStr "t10"]) ∧
  get_text 2 g (AStr "n") = Ok "a c b".
Proof.
  cbv zeta.
  assert (get_span 2 (run_calls Examples.span_tree_calls
            (empty_graph "doc" "ex" (AStr "root") [AStr "t1"; AStr "t10"; AStr "t2"]))
            (AStr "n")
          = Ok [AStr "t1"; AStr "t2"; AStr "t10"]) as Hrun by compute_done.
  assert (AStr "n" ∈ dom (node (run_calls Examples.span_tree_calls
            (empty_graph "doc" "ex" (AStr "root") [AStr "t1"; AStr "t10"; AStr "t2"]))))
    as Hnode by compute_done.
  split; [by split|].
  destruct (get_text_joins_span "doc" "ex" (AStr "root") [AStr "t1"; AStr "t10"; AStr "t2"]
              Examples.span_tree_calls 2 (AStr "n") _ Hnode Hrun)
    as (toks & Htoks & Hjoin & _).
  apply (Hjoin ["a"; "c"; "b"]).
  apply Forall2_cons_inv_l in Htoks as (t1 & toks1 & Ht1 & Htoks & ->).
  apply Forall2_cons_inv_l in Htoks as (t2 & toks2 & Ht2 & Htoks & ->).
  apply Forall2_cons_inv_l in Htoks as (t3 & toks3 & Ht3 & Htoks & ->).
  apply Forall2_nil_inv_l in Htoks as ->.
  vm_compute in Ht1, Ht2, Ht3. by injection Ht1 as <-; injection Ht2 as <-; injection Ht3 as <-.
Defined.

(** ** When the precedence relations are added *)

Lemma add_edges_without_keys_rejected layers attr pairs :
  is_layer_set layers = true →
  ∀ g, wf g →
  Exists (λ p, p.1 ∉ dom (succ g) ∨ p.2 ∉ dom (succ g)) pairs →
  outcome (for_each pairs (λ '(a, b), add_edge a b layers None None attr)) g
  = Raise AssertionError.
Proof.
  intros Hls. induction pairs as [|[a b] pairs IH]; intros g Hwf Hex.
  - by apply Exists_nil in Hex.
  - unfold outcome. rewrite for_each_cons. unfold bind.
    destruct (decide (a ∈ dom (succ g) ∧ b ∈ dom (succ g))) as [[Ha Hb]|Hbad].
    + destruct (add_edge_new_key g a b layers attr Hwf Ha Hb Hls)
        as (k & g1 & Hadd & _ & _ & Hwf1 & Hdom1 & _).
      rewrite Hadd. apply (IH g1 Hwf1). rewrite Hdom1.
      apply Exists_cons in Hex as [[?|?]|Hex]; done.
    + rewrite add_edge_rejects; [done|]. right.
      destruct (decide (a ∈ dom (succ g))); [right|by left]. naive_solver.
Qed.

Lemma precedence_pairs_endpoints g (D : gset atom) :
  Forall (λ p, p.1 ∈ D ∧ p.2 ∈ D) (precedence_pairs g) →
  (1 < length (tokens g))%nat →
  root g ∈ D ∧ Forall (λ t, t ∈ D) (tokens g).
Proof.
  unfold precedence_pairs. destruct (tokens g) as [|t0 rest]; [simpl; lia|].
  intros [[Hroot Ht0] Hrest]%Forall_cons _. simpl in Hroot, Ht0.
  split; [done|]. constructor; [done|].
  rewrite <- (snd_zip (t0 :: rest) rest) by (simpl; lia).
  apply Forall_fmap. eapply Forall_impl; [done|]. by intros p [_ ?].
Qed.

(** X19: On a graph the methods have built, [add_precedence_relations] returns
    exactly when the document has at least two tokens and its root and all
    its tokens are nodes of the graph; otherwise it raises the assertion
    error.  With fewer than two tokens the graph is left as it was, also
    when it has one token. *)
Theorem add_precedence_relations_outcome nm nsp r toks cs :
  let g := run_calls cs (empty_graph nm nsp r toks) in
  (outcome add_precedence_relations g = Ok tt
   ↔ (1 < length (tokens g))%nat ∧ root g ∈ dom (node g) ∧
     Forall (λ t, t ∈ dom (node g)) (tokens g)) ∧
  (outcome add_precedence_relations g = Ok tt ∨
   outcome add_precedence_relations g = Raise AssertionError) ∧
  ((length (tokens g) ≤ 1)%nat →
   add_precedence_relations g = (Raise AssertionError, g)).
Proof.
  intros g. destruct (consistent_run_calls nm nsp r toks cs) as [Hwf Hn _ _].
  fold g in Hwf, Hn. rewrite Hn.
  destruct (decide (1 < length (tokens g))%nat) as [Hlen|Hlen].
  - assert (outcome add_precedence_relations g =
            outcome (for_each (precedence_pairs g)
              (λ '(a, b), add_edge a b (precedence_layers g) None None
                            {["edge_type" := VEnum precedence_relation]})) g) as ->.
    { unfold outcome. by rewrite add_precedence_relations_pairs. }
    pose proof (all_str_precedence_layers g) as Hls.
    destruct (decide (Forall (λ p, p.1 ∈ dom (succ g) ∧ p.2 ∈ dom (succ g))
                             (precedence_pairs g))) as [Hall|Hsome].
    + destruct (add_edges_without_keys (precedence_layers g)
                  {["edge_type" := VEnum precedence_relation]} (precedence_pairs g)
                  Hls g Hwf Hall) as (g' & Hrun & _).
      unfold outcome. rewrite Hrun. simpl. split; [|split; [by left|lia]].
      split; [intros _|done]. split; [done|].
      by apply precedence_pairs_endpoints.
    + assert (outcome (for_each (precedence_pairs g)
                (λ '(a, b), add_edge a b (precedence_layers g) None None
                              {["edge_type" := VEnum precedence_relation]})) g
              = Raise AssertionError) as ->.
      { apply add_edges_without_keys_rejected; [done|done|].
        apply not_Forall_Exists in Hsome; [|apply _].
        eapply Exists_impl; [done|]. intros [a b] Hp. simpl in *.
        destruct (decide (a ∈ dom (succ g))); [right|by left]. naive_solver. }
      split; [|split; [by right|lia]].
      split; [done|]. intros (_ & Hroot & Htok). exfalso. apply Hsome.
      by apply precedence_pairs_nodes.
  - assert (add_precedence_relations g = (Raise AssertionError, g)) as Hrej.
    { unfold add_precedence_relations, bind, get, assert. simpl.
      by rewrite bool_decide_eq_false_2. }
    unfold outcome. rewrite Hrej. simpl.
    split; [|split; [by right|done]]. split; [done|]. intros [? _]. lia.
Qed.

(** ** Examples for the outcomes *)

Lemma typed_of_edges g :
  Forall (λ e : atom * atom * attrs, is_Some (e.2 !! "edge_type")) (edges g) → typed g.
Proof.
  intros Hall u v k d Hk. rewrite Forall_forall in Hall.
  apply (Hall (u, v, d)). apply elem_of_edges. by exists k.
Qed.

(** A node that points to itself: the chains are never returned. *)
Lemma pointing_loop_never_returns :
  get_pointing_chains 1000 Examples.pointing_loop = Raise RecursionError.
Proof.
  apply (pointing_chains_outcome 1000 Examples.pointing_loop).
  - apply typed_of_edges. compute_done.
  - exists (AStr "a"). apply tc_once. exists (AInt 0), Examples.points_to.
    split; compute_done.
Defined.

(** ** The key of a new parallel edge *)

Lemma unused_key_from fuel (kd : keydict) : ∀ key : Z,
  (key ≤ unused_key fuel kd key)%Z ∧
  ∀ z : Z, (key ≤ z < unused_key fuel kd key)%Z → AInt z ∈ dom kd.
Proof.
  induction fuel as [|fuel IH]; intros key; simpl.
  - split; [lia|]. intros z Hz. lia.
  - case_decide as Hin; [|split; [lia|intros z Hz; lia]].
    destruct (IH (key + 1)) as [Hle Hbetween]. split; [lia|].
    intros z Hz. destruct (decide (z = key)) as [->|Hne]; [done|].
    apply Hbetween. lia.
Qed.

(** X20: The key [add_edge] picks when none is given is the least integer that
    is not below the number of parallel edges and not in use as a key. *)
Theorem new_key_least_from_len (kd : keydict) :
  (Z.of_nat (size kd) ≤ new_key kd)%Z ∧
  kd !! AInt (new_key kd) = None ∧
  ∀ z : Z, (Z.of_nat (size kd) ≤ z < new_key kd)%Z → is_Some (kd !! AInt z).
Proof.
  destruct (unused_key_from (size kd) kd (Z.of_nat (size kd))) as [Hle Hbetween].
  split; [exact Hle|]. split; [apply new_key_not_used|].
  intros z Hz. apply elem_of_dom. by apply Hbetween.
Qed.

(** ** Token alignment in a merge *)

Lemma drop_cons_inv {A} (l : list A) i x rest :
  drop i l = x :: rest → l !! i = Some x ∧ drop (S i) l = rest.
Proof.
  intros Hdrop. assert (l !! i = Some x) as Hi.
  { rewrite <- (Nat.add_0_r i), <- lookup_drop, Hdrop. done. }
  split; [done|]. rewrite (drop_S _ _ _ Hi) in Hdrop. by injection Hdrop.
Qed.

Lemma align_tokens_errors self attrib remote_tokens :
  ∀ ids locs i r2l,
  Forall2 (λ id p, get_token self attrib id = Ok p) ids locs →
  (∀ k l r, locs !! k = Some l → drop i remote_tokens !! k = Some r → l.2 ≠ r.2 →
     take k locs.*2 = take k (drop i remote_tokens).*2 →
     align_tokens self attrib remote_tokens i ids r2l = Raise ValueError) ∧
  ((length (drop i remote_tokens) < length locs)%nat →
   take (length (drop i remote_tokens)) locs.*2 = (drop i remote_tokens).*2 →
   align_tokens self attrib remote_tokens i ids r2l = Raise IndexError).
Proof.
  intros ids locs i r2l Hall. revert i r2l.
  induction Hall as [|id [pid local_tok] ids locs Hid _ IH]; intros i r2l.
  - split; [by intros k l r ?|]. simpl. lia.
  - simpl. rewrite Hid. simpl.
    destruct (drop i remote_tokens) as [|[rid remote_tok] rem] eqn:Hdrop.
    + split; [by intros k l r _ ?|]. intros _ _.
      assert (remote_tokens !! i = None) as ->; [|done].
      apply lookup_ge_None. apply (f_equal length) in Hdrop.
      rewrite length_drop in Hdrop. simpl in Hdrop. 
      destruct (decide (length remote_tokens ≤ i)%nat); [done|lia].
    + apply drop_cons_inv in Hdrop as [Hi Hrest]. rewrite Hi. simpl.
      destruct (IH (S i) (<[rid := id]> r2l)) as [IHa IHb]. rewrite Hrest in IHa, IHb.
      split.
      * intros [|k] l r Hl Hr Hne Htake; simpl in *.
        -- injection Hl as <-. injection Hr as <-. simpl in Hne.
           by rewrite decide_True.
        -- injection Htake as -> Htake. rewrite decide_False by naive_solver.
           by eapply IHa.
      * simpl. intros Hlen [= -> Htake]. rewrite decide_False by naive_solver.
        apply IHb; [lia|done].
Qed.

(** X21: When the tokens of both graphs can be read, the merge compares their
    texts position by position.  The first position where the texts differ
    raises the mismatch error; if the texts agree as far as the other graph
    has tokens and it has fewer, indexing its token list raises the index
    error.  In both cases [self] is left as it was. *)
Theorem merge_alignment_errors self other local remote :
  let attrib := if decide (ns self = "tiger") then "word" else "token" in
  get_tokens self attrib = Ok local →
  get_tokens other "token" = Ok remote →
  (∀ i l r, local !! i = Some l → remote !! i = Some r → l.2 ≠ r.2 →
     take i local.*2 = take i remote.*2 →
     merge_graphs other self = (Raise ValueError, self)) ∧
  ((length remote < length local)%nat →
   take (length remote) local.*2 = remote.*2 →
   merge_graphs other self = (Raise IndexError, self)).
Proof.
  intros attrib Hlocal Hremote.
  apply mapM_result_Ok in Hlocal.
  destruct (align_tokens_errors self attrib remote (tokens self) local 0 ∅ Hlocal)
    as [Ha Hb].
  rewrite drop_0 in Ha, Hb. split.
  - intros i l r Hl Hr Hne Htake.
    apply (merge_alignment_failure self other remote ValueError Hremote).
    by eapply Ha.
  - intros Hlen Htake.
    apply (merge_alignment_failure self other remote IndexError Hremote).
    by apply Hb.
Qed.

Lemma merge_alignment_errors_witness :
  get_tokens Examples.merge_self "token" = Ok [(AStr "t1", VStr "a")] ∧
  get_tokens Examples.merge_other_text "token" = Ok [(AStr "r1", VStr "b")] ∧
  merge_graphs Examples.merge_other_text Examples.merge_self
  = (Raise ValueError, Examples.merge_self).
Proof.
  assert (get_tokens Examples.merge_self "token" = Ok [(AStr "t1", VStr "a")])
    as Hlocal by compute_done.
  assert (get_tokens Examples.merge_other_text "token" = Ok [(AStr "r1", VStr "b")])
    as Hremote by compute_done.
  split; [exact Hlocal|]. split; [exact Hremote|].
  refine (proj1 (merge_alignment_errors Examples.merge_self Examples.merge_other_text
                   _ _ Hlocal Hremote) 0%nat (AStr "t1", VStr "a") (AStr "r1", VStr "b")
                _ _ _ _); [reflexivity|reflexivity|discriminate|reflexivity].
Defined.

(** ** Spans and cycles *)


Lemma get_span_inner g depth n to_id res :
  get_span (S depth) g n = Ok res → inner_edge g n to_id →
  ∃ sub, get_span depth g to_id = Ok sub.
Proof.
  simpl. unfold get_span_body.
  destruct (foldM _ [] (out_edges g n)) as [span|e] eqn:Hfold; simpl; [|done].
  intros _ (k & d & to_attrs & Hk & Hf & Hn & Hnotok).
  apply span_steps_spec in Hfold as [Hrec _].
  apply (Hrec n to_id d to_attrs); try done.
  apply elem_of_out_edges. eauto.
Qed.

(** X22: On a graph the methods have built, [get_span] does not return for a
    node that lies on a cycle of followed edges between nodes that are no
    tokens, whatever the recursion limit. *)
Theorem get_span_never_returns_on_cycle nm nsp r toks cs depth node_id :
  let g := run_calls cs (empty_graph nm nsp r toks) in
  tc (inner_edge g) node_id node_id →
  ∀ res, get_span depth g node_id ≠ Ok res.
Proof.
  intros g. revert node_id.
  induction depth as [|depth IH]; intros node_id Hcyc res Hrun; [done|].
  assert (∃ to_id, inner_edge g node_id to_id ∧ tc (inner_edge g) to_id to_id)
    as (to_id & Hto & Hcyc').
  { inversion Hcyc as [? ? Hstep|? to_id ? Hstep Hrest]; subst.
    - by exists node_id.
    - exists to_id. split; [done|]. by eapply tc_r. }
  destruct (get_span_inner g depth node_id to_id res Hrun Hto) as [sub Hsub].
  by apply (IH to_id Hcyc' sub).
Qed.

Lemma get_span_never_returns_on_cycle_witness :
  let g := run_calls Examples.node_loop_calls
             (empty_graph "doc" "ex" (AStr "root") [AStr "t1"]) in
  tc (inner_edge g) (AStr "n") (AStr "n") ∧
  ∀ res, get_span 1000 g (AStr "n") ≠ Ok res.
Proof.
  cbv zeta.
  assert (tc (inner_edge (run_calls Examples.node_loop_calls
                            (empty_graph "doc" "ex" (AStr "root") [AStr "t1"])))
             (AStr "n") (AStr "n")) as Hcyc.
  { apply tc_once. exists (AInt 0), Examples.dominates, (Examples.plain "n").2.
    split; [compute_done|]. split; [|split; [compute_done|compute_done]].
    exists (VEnum dominance_relation). split; [compute_done|done]. }
  split; [exact Hcyc|].
  exact (get_span_never_returns_on_cycle "doc" "ex" (AStr "root") [AStr "t1"]
           Examples.node_loop_calls 1000 (AStr "n") Hcyc).
Defined.

(** ** When the node methods return *)

Lemma add_node_valid g n layers attr_dict attr :
  consistent g → is_layer_set layers = true →
  outcome (add_node n layers attr_dict attr) g = Ok tt.
Proof.
  intros [Hwf Hn Hnl Hel] (ls & -> & Hls)%is_layer_set_VSet. unfold outcome.
  destruct (decide (n ∈ dom (succ g))) as [Hin|Hnew].
  - assert (is_Some (node g !! n)) as [nd Hnd] by (apply elem_of_dom; by rewrite Hn).
    destruct (Hnl n nd Hnd) as (s0 & Hs0 & _).
    by rewrite (add_node_old_node g n ls attr_dict attr nd s0).
  - by rewrite (add_node_new_node g n ls attr_dict attr).
Qed.

Lemma add_nodes_from_entry_valid g attr node_id ndict :
  consistent g → invalid_node (node_id, ndict) = false →
  outcome (add_nodes_from [(node_id, ndict)] attr) g = Ok tt.
Proof.
  intros [Hwf Hn Hnl Hel]. unfold invalid_node. simpl.
  destruct (ndict !! "layers") as [layers|] eqn:Hl; [|done].
  intros (ls & -> & Hls)%negb_false_iff%is_layer_set_VSet.
  unfold outcome, add_nodes_from. cbn [for_each]. rewrite bind_ret_tt.
  unfold bind, get, assert, lift, modify, throw, ret, assert_layers. simpl.
  rewrite bool_decide_eq_true_2 by (apply elem_of_dom; eauto). simpl.
  rewrite Hl. simpl. rewrite Hls. simpl.
  case_decide as Hin; [|done].
  assert (is_Some (node g !! node_id)) as [nd Hnd] by (apply elem_of_dom; by rewrite Hn).
  destruct (Hnl node_id nd Hnd) as (s0 & Hs0 & _).
  rewrite Hnd. simpl. rewrite Hs0. done.
Qed.

Lemma add_nodes_from_outcome nodes attr :
  ∀ g, consistent g →
  outcome (add_nodes_from nodes attr) g =
  if forallb (λ e, negb (invalid_node e)) nodes then Ok tt else Raise AssertionError.
Proof.
  induction nodes as [|[node_id ndict] nodes IH]; intros g Hc; [done|].
  cbn [forallb]. destruct (invalid_node (node_id, ndict)) eqn:Hvalid; cbn [negb andb].
  - unfold outcome. by rewrite invalid_node_raises.
  - unfold outcome, add_nodes_from. rewrite for_each_cons_single.
    fold (add_nodes_from [(node_id, ndict)] attr). fold (add_nodes_from nodes attr).
    pose proof (add_nodes_from_entry_valid g attr node_id ndict Hc Hvalid) as Hone.
    pose proof (reached_add_nodes_from g [(node_id, ndict)] attr g (reached_refl g Hc))
      as [Hc1 _].
    unfold outcome, exec in Hone, Hc1. unfold bind.
    destruct (add_nodes_from [(node_id, ndict)] attr g) as [[[]|e] g1]; [|done].
    by apply IH.
Qed.

(** X23: On a graph the methods have built, [add_node] returns exactly when
    [layers] is a set of strings, and [add_nodes_from] exactly when every
    entry has a ['layers'] attribute that is one; otherwise they raise the
    assertion error.  No other error is raised. *)
Theorem node_methods_return_iff nm nsp r toks cs n layers attr_dict attr nodes :
  let g := run_calls cs (empty_graph nm nsp r toks) in
  (outcome (add_node n layers attr_dict attr) g = Ok tt ↔ is_layer_set layers = true) ∧
  (outcome (add_nodes_from nodes attr) g = Ok tt
   ↔ Forall (λ e, invalid_node e = false) nodes) ∧
  (outcome (add_node n layers attr_dict attr) g = Ok tt ∨
   outcome (add_node n layers attr_dict attr) g = Raise AssertionError) ∧
  (outcome (add_nodes_from nodes attr) g = Ok tt ∨
   outcome (add_nodes_from nodes attr) g = Raise AssertionError).
Proof.
  intros g. pose proof (consistent_run_calls nm nsp r toks cs) as Hc. fold g in Hc.
  assert (forallb (λ e, negb (invalid_node e)) nodes = true
          ↔ Forall (λ e, invalid_node e = false) nodes) as Hforall.
  { induction nodes as [|e nodes IH]; simpl.
    - split; [by constructor|done].
    - rewrite Forall_cons, andb_true_iff, IH.
      by destruct (invalid_node e); simpl; naive_solver. }
  rewrite (add_nodes_from_outcome nodes attr g Hc).
  destruct (is_layer_set layers) eqn:Hls.
  - rewrite (add_node_valid g n layers attr_dict attr Hc Hls).
    split; [done|]. split; [|split; [by left|]].
    + rewrite <- Hforall. by destruct (forallb _ nodes).
    + destruct (forallb _ nodes); [by left|by right].
  - unfold outcome at 1 2 3. rewrite (add_node_rejects g n layers attr_dict attr Hls).
    simpl. split; [done|]. split; [|split; [by right|]].
    + rewrite <- Hforall. by destruct (forallb _ nodes).
    + destruct (forallb _ nodes); [by left|by right].
Qed.



(** * Dictionaries that are passed twice *)

Lemma obj_assert_layers_valid ls w :
  all_str ls = true → Obj.assert_layers (VSet ls) w = (Ok ls, w).
Proof. intros Hls. unfold Obj.assert_layers, Obj.bind, Obj.assert. simpl. by rewrite Hls. Qed.

Lemma the_dict_set_dicts w r d :
  Obj.the_dict (Obj.set_dicts <[r := d]> w) r = d.
Proof. unfold Obj.the_dict. simpl. by rewrite lookup_insert_eq. Qed.

Lemma update_layers_lookup (d attr : attrs) layers :
  update d (update attr {["layers" := layers]}) !! "layers" = Some layers.
Proof.
  unfold update.
  assert (({["layers" := layers]} ∪ attr : attrs) !! "layers" = Some layers) as H.
  { apply lookup_union_Some_l. apply lookup_singleton_eq. }
  by apply lookup_union_Some_l.
Qed.

Lemma set_dicts_twice w r d d' :
  Obj.set_dicts <[r := d']> (Obj.set_dicts <[r := d]> w) = Obj.set_dicts <[r := d']> w.
Proof. unfold Obj.set_dicts. simpl. by rewrite insert_insert_eq. Qed.

Lemma update_without_layers (d : attrs) layers :
  update (update d (delete "layers" d)) {["layers" := layers]} =
  update d {["layers" := layers]}.
Proof.
  apply map_eq. intros k. unfold update.
  destruct (decide (k = "layers")) as [->|Hk].
  - rewrite !lookup_union_l'; rewrite ?lookup_singleton_eq; done.
  - rewrite !(lookup_union_r {["layers" := layers]}) by (by rewrite lookup_singleton_ne).
    rewrite lookup_union, lookup_delete_ne by done.
    destruct (d !! k); reflexivity.
Qed.

Lemma add_node_own_dict w n r b attr :
  Obj.w_node w !! n = Some r → n ∈ dom (Obj.w_succ w) → all_str b = true →
  Obj.add_node n (VSet b) (Some (Obj.Dict (Obj.Ref r))) attr w =
  (Ok tt,
   Obj.set_dicts
     <[r := update (update (Obj.the_dict w r) (update attr {["layers" := VSet b]}))
                   {["layers" := VSet b]}]> w).
Proof.
  intros Hr Hn Hb. unfold Obj.add_node, Obj.bind at 1.
  rewrite (obj_assert_layers_valid b w Hb).
  unfold Obj.set_up, Obj.update_arg, Obj.update_dict, Obj.bind, Obj.modify,
    Obj.get, Obj.ret, Obj.lift. cbn [Obj.w_succ Obj.set_dicts Obj.w_node Obj.content].
  rewrite decide_True by done. rewrite Hr. cbn [or_raise].
  rewrite !the_dict_set_dicts, update_layers_lookup. cbn [or_raise as_set].
  rewrite !set_dicts_twice, union_idemp_L.
  by rewrite update_without_layers.
Qed.

Lemma update_self {K A} `{Countable K} (d : gmap K A) : update d d = d.
Proof. unfold update. apply (idemp_L (∪)). Qed.

Lemma add_edge_own_dict w u v key r b attr :
  u ∈ dom (Obj.w_succ w) → v ∈ dom (Obj.w_succ w) →
  Obj.edge_ref w u v key = Some r → all_str b = true →
  Obj.add_edge u v (VSet b) (Some key) (Some (Obj.Dict (Obj.Ref r))) attr w =
  (Ok tt,
   Obj.set_dicts
     <[r := update (update (Obj.the_dict w r) (update attr {["layers" := VSet b]}))
                   {["layers" := VSet b]}]> w).
Proof.
  intros Hu Hv Hr Hb. unfold Obj.edge_ref in Hr.
  destruct (Obj.adj_ref w u v) as [l|] eqn:Hl; [|done]. simpl in Hr.
  destruct (Obj.w_heap w !! l) as [kd|] eqn:Hkd; [|done]. simpl in Hr.
  unfold Obj.add_edge, Obj.bind at 1.
  rewrite (obj_assert_layers_valid b w Hb).
  unfold Obj.set_up, Obj.update_arg, Obj.update_dict, Obj.bind, Obj.modify,
    Obj.get, Obj.ret, Obj.lift, Obj.assert.
  cbn [Obj.w_succ Obj.set_dicts Obj.w_node Obj.content].
  rewrite !bool_decide_eq_true_2 by done.
  unfold Obj.adj_ref in *. cbn [Obj.w_succ Obj.set_dicts]. rewrite Hl.
  unfold Obj.deref. cbn [Obj.w_heap Obj.set_dicts]. rewrite Hkd. cbn [default id].
  unfold Obj.ret. rewrite Hr.
  rewrite !the_dict_set_dicts. unfold get_layers.
  rewrite update_layers_lookup. cbn [default as_set].
  cbn [id as_set].
  by rewrite ?the_dict_set_dicts, ?set_dicts_twice, union_idemp_L, update_self.
Qed.

(** C1: a dictionary that is passed a second time.  [add_node] makes the
    [attr_dict] of its caller the dictionary of a new node, and every call
    writes its [layers] argument into the [attr_dict] it is given before it
    reads the layers the node has.  So when the dictionary of the node is
    passed again, to [add_node] for this node, the call returns and the
    ['layers'] attribute is the [layers] argument of this call alone, not
    its union with the layers the node had; and the same for [add_edge] and
    the dictionary of the edge [(u, v, key)].  In the example [shared_node]
    the layers [{'a'}] of the first call are lost to the [{'b'}] of the
    second one, in [one_edge] the layers of the edge. *)
Theorem reused_dict_replaces_layers :
  (∀ w n r b attr,
     Obj.w_node w !! n = Some r → n ∈ dom (Obj.w_succ w) → all_str b = true →
     let call := Obj.add_node n (VSet b) (Some (Obj.Dict (Obj.Ref r))) attr in
     Obj.outcome call w = Ok tt ∧
     ∃ nd, Obj.node_dict (Obj.exec call w) n = Some nd ∧
           nd !! "layers" = Some (VSet b)) ∧
  (∀ w u v key r b attr,
     u ∈ dom (Obj.w_succ w) → v ∈ dom (Obj.w_succ w) →
     Obj.edge_ref w u v key = Some r → all_str b = true →
     let call :=
       Obj.add_edge u v (VSet b) (Some key) (Some (Obj.Dict (Obj.Ref r))) attr in
     Obj.outcome call w = Ok tt ∧
     ∃ d, Obj.edge_dict (Obj.exec call w) u v key = Some d ∧
          d !! "layers" = Some (VSet b)) ∧
  (∃ d, Obj.w_node Examples.shared_node !! AStr "n" = Some d ∧
        Obj.node_dict Examples.shared_node (AStr "n")
        = Some {["layers" := VSet {[AStr "a"]}; "weight" := VInt 1]} ∧
        Obj.node_dict
          (Obj.exec (Obj.add_node (AStr "n") (VSet {[AStr "b"]})
                       (Some (Obj.Dict (Obj.Ref d))) {["weight" := VInt 2]})
                    Examples.shared_node) (AStr "n")
        = Some {["layers" := VSet {[AStr "b"]}; "weight" := VInt 2]}) ∧
  (∃ d, Obj.edge_ref Examples.one_edge (AStr "u") (AStr "v") (AInt 0) = Some d ∧
        Obj.edge_dict Examples.one_edge (AStr "u") (AStr "v") (AInt 0)
        = Some {["layers" := VSet {[AStr "a"]}]} ∧
        Obj.edge_dict
          (Obj.exec (Obj.add_edge (AStr "u") (AStr "v") (VSet {[AStr "b"]})
                       (Some (AInt 0)) (Some (Obj.Dict (Obj.Ref d))) ∅)
                    Examples.one_edge) (AStr "u") (AStr "v") (AInt 0)
        = Some {["layers" := VSet {[AStr "b"]}]}).
Proof.
  split; [|split; [|split]].
  - intros w n r b attr Hr Hn Hb call. subst call.
    unfold Obj.outcome, Obj.exec. rewrite (add_node_own_dict w n r b attr Hr Hn Hb).
    split; [done|]. eexists. split.
    + unfold Obj.node_dict. cbn [snd Obj.set_dicts Obj.w_node]. rewrite Hr.
      cbn [fmap option_fmap option_map]. by rewrite the_dict_set_dicts.
    + unfold update. apply lookup_union_Some_l, lookup_singleton_eq.
  - intros w u v key r b attr Hu Hv Hr Hb call. subst call.
    unfold Obj.outcome, Obj.exec.
    rewrite (add_edge_own_dict w u v key r b attr Hu Hv Hr Hb).
    split; [done|]. eexists. split.
    + unfold Obj.edge_dict. change (Obj.edge_ref (_, Obj.set_dicts _ w).2 u v key)
        with (Obj.edge_ref w u v key). rewrite Hr.
      cbn [fmap option_fmap option_map snd]. by rewrite the_dict_set_dicts.
    + unfold update. apply lookup_union_Some_l, lookup_singleton_eq.
  - exists 0%nat. split; [compute_done|]. split; compute_done.
  - exists 2%nat. split; [compute_done|]. split; compute_done.
Qed.

